(** * Map_ADT: a left-leaning red-black tree map with tombstones

    A shallow embedding of [fsu::Map_ADT<K,D,P>] (map_adt.h).  Node pointers
    are modelled by the subtree they point to ([nullptr] is the empty
    subtree), the flag byte is an 8-bit integer carried in [Z], and the
    reference returned by [Get] is the position of the located node inside
    the tree that [Get] returns. *)

From Stdlib Require Import String ZArith List Bool Lia.
Import ListNotations.
Open Scope Z_scope.

(** ** The flag byte *)

Module Flags.

(** [enum Flags { ZERO = 0x00 , DEAD = 0x01, RED = 0x02 , DEFAULT = RED }] *)
Definition ZERO : Z := 0.
Definition DEAD : Z := 1.
Definition RED : Z := 2.
Definition DEFAULT : Z := RED.

(** Truncation of an [int] result to [uint8_t]. *)
Definition uint8 (z : Z) : Z := Z.land z 255.

Definition IsRed (flags_ : Z) : bool := negb (Z.land RED flags_ =? 0).
Definition IsBlack (flags_ : Z) : bool := negb (IsRed flags_).
Definition IsDead (flags_ : Z) : bool := negb (Z.land DEAD flags_ =? 0).
Definition IsAlive (flags_ : Z) : bool := negb (IsDead flags_).
Definition SetRed (flags_ : Z) : Z := uint8 (Z.lor flags_ RED).
Definition SetBlack (flags_ : Z) : Z := uint8 (Z.land flags_ (Z.lnot RED)).
Definition SetDead (flags_ : Z) : Z := uint8 (Z.lor flags_ DEAD).
Definition SetAlive (flags_ : Z) : Z := uint8 (Z.land flags_ (Z.lnot DEAD)).

(** The four flag states [0x00 .. 0x03]. *)
Definition four (flags_ : Z) : Prop := 0 <= flags_ < 4.

End Flags.

(** ** Nodes and trees *)

(** The template parameters: the comparator class [P] (a callable
    strict-less [pred_]), default construction [D()] of the data type, and
    [operator !=] on keys and data as used by the map's [operator ==].
    The member functions below take the comparator as the parameter [P]:
    it stands for the [pred_] of the object they run on.  Objects holding
    a [pred_] of their own are [Object.obj] further down. *)
Class Predicate (K : Type) : Type := pred_ : K -> K -> bool.
Class DefaultConstructible (D : Type) : Type := D_default : D.
Class NotEqual (A : Type) : Type := neq : A -> A -> bool.

Section MapADT.

Context {K D : Type}.

(** [fsu::Entry<K,D>]: a key with its data. *)
Record Entry : Type := mkEntry { key_ : K; data_ : D }.

(** A [Node*]: either [nullptr] or a node owning its entry, its two
    children and its flag byte. *)
Inductive Node : Type :=
| nullptr : Node
| mkNode (value_ : Entry) (lchild_ rchild_ : Node) (flags_ : Z) : Node.

Context {P : Predicate K} {DC : DefaultConstructible D}.
Context {NEK : NotEqual K} {NED : NotEqual D}.

(** Field access through a pointer.  The source never dereferences a null
    pointer on the paths modelled here; on [nullptr] the accessors return
    a default so that they stay total. *)
Definition lchild (n : Node) : Node :=
  match n with nullptr => nullptr | mkNode _ l _ _ => l end.
Definition rchild (n : Node) : Node :=
  match n with nullptr => nullptr | mkNode _ _ r _ => r end.
Definition flags (n : Node) : Z :=
  match n with nullptr => Flags.ZERO | mkNode _ _ _ f => f end.

Definition IsRed (n : Node) : bool := Flags.IsRed (flags n).
Definition IsBlack (n : Node) : bool := negb (IsRed n).
Definition IsDead (n : Node) : bool := Flags.IsDead (flags n).
Definition IsAlive (n : Node) : bool := negb (IsDead n).

Definition SetBlack (n : Node) : Node :=
  match n with
  | nullptr => nullptr
  | mkNode e l r f => mkNode e l r (Flags.SetBlack f)
  end.
(** [RightChildIsRed] / [LeftChildIsRed]: a missing child is not red. *)
Definition RightChildIsRed (n : Node) : bool :=
  match rchild n with
  | nullptr => false
  | r => IsRed r
  end.
Definition LeftChildIsRed (n : Node) : bool :=
  match lchild n with
  | nullptr => false
  | l => IsRed l
  end.

(** [NewNode]: allocation is assumed to succeed; the new node has no
    children and carries the given flags ([DEFAULT]: red and alive). *)
Definition NewNode (k : K) (d : D) (fl : Z) : Node :=
  mkNode (mkEntry k d) nullptr nullptr fl.

(** ** Rotations

    A rotation returns the new subtree root together with what it wrote
    to [std::cerr]. *)

Definition RotateLeft_msg : string := " ** RotateLeft called with black right child".
Definition RotateRight_msg : string := " ** RotateRight called with black left child".

Definition RotateLeft (n : Node) : Node * list string :=
  match n with
  | nullptr => (n, [])
  | mkNode e l nullptr f => (n, [])
  | mkNode e l (mkNode pe pl pr pf) f =>
      if negb (Flags.IsRed pf) then (n, [RotateLeft_msg])
      else
        (* n->rchild_ = p->lchild_; p->lchild_ = n;
           p takes n's colour, n becomes red *)
        let pf' := if Flags.IsRed f then Flags.SetRed pf else Flags.SetBlack pf in
        (mkNode pe (mkNode e l pl (Flags.SetRed f)) pr pf', [])
  end.

Definition RotateRight (n : Node) : Node * list string :=
  match n with
  | nullptr => (n, [])
  | mkNode e nullptr r f => (n, [])
  | mkNode e (mkNode pe pl pr pf) r f =>
      if negb (Flags.IsRed pf) then (n, [RotateRight_msg])
      else
        let pf' := if Flags.IsRed f then Flags.SetRed pf else Flags.SetBlack pf in
        (mkNode pe pl (mkNode e pr r (Flags.SetRed f)) pf', [])
  end.

(** ** Positions

    [Node*& location] names one node of the tree under construction.  It
    is modelled by the path from the current subtree root to that node;
    a rotation moves nodes, so it re-addresses the path. *)

Inductive Dir : Type := GoLeft | GoRight.
Definition Location : Type := list Dir.

Definition RotateLeft_loc (n : Node) (loc : Location) : Location :=
  match n with
  | mkNode _ _ (mkNode _ _ _ pf) _ =>
      if negb (Flags.IsRed pf) then loc
      else match loc with
           | [] => [GoLeft]
           | GoLeft :: rest => GoLeft :: GoLeft :: rest
           | [GoRight] => []
           | GoRight :: GoLeft :: rest => GoLeft :: GoRight :: rest
           | GoRight :: GoRight :: rest => GoRight :: rest
           end
  | _ => loc
  end.

Definition RotateRight_loc (n : Node) (loc : Location) : Location :=
  match n with
  | mkNode _ (mkNode _ _ _ pf) _ _ =>
      if negb (Flags.IsRed pf) then loc
      else match loc with
           | [] => [GoRight]
           | GoRight :: rest => GoRight :: GoRight :: rest
           | [GoLeft] => []
           | GoLeft :: GoRight :: rest => GoRight :: GoLeft :: rest
           | GoLeft :: GoLeft :: rest => GoLeft :: rest
           end
  | _ => loc
  end.

(** Assignment to the data slot of the node a position names. *)
Fixpoint AssignData (n : Node) (loc : Location) (d : D) : Node :=
  match n with
  | nullptr => nullptr
  | mkNode e l r f =>
      match loc with
      | [] => mkNode (mkEntry (key_ e) d) l r f
      | GoLeft :: rest => mkNode e (AssignData l rest d) r f
      | GoRight :: rest => mkNode e l (AssignData r rest d) f
      end
  end.

(** ** The repair tail shared by [RGet] and [RInsert]

    [[
    if (nptr->RightChildIsRed() && !nptr->LeftChildIsRed()) nptr = RotateLeft(nptr);
    if (nptr->LeftChildIsRed() && nptr->lchild_->LeftChildIsRed()) nptr = RotateRight(nptr);
    if (nptr->LeftChildIsRed() && nptr->RightChildIsRed()) { flip }
    ]] *)

Definition FlipColors (n : Node) : Node :=
  match n with
  | nullptr => nullptr
  | mkNode e l r f => mkNode e (SetBlack l) (SetBlack r) (Flags.SetRed f)
  end.

Definition Repair1 (nptr : Node) : Node :=
  if RightChildIsRed nptr && negb (LeftChildIsRed nptr)
  then fst (RotateLeft nptr) else nptr.
Definition Repair2 (nptr : Node) : Node :=
  if LeftChildIsRed nptr && LeftChildIsRed (lchild nptr)
  then fst (RotateRight nptr) else nptr.
Definition Repair3 (nptr : Node) : Node :=
  if LeftChildIsRed nptr && RightChildIsRed nptr
  then FlipColors nptr else nptr.
Definition Repair (nptr : Node) : Node := Repair3 (Repair2 (Repair1 nptr)).

Definition Repair1_loc (nptr : Node) (loc : Location) : Location :=
  if RightChildIsRed nptr && negb (LeftChildIsRed nptr)
  then RotateLeft_loc nptr loc else loc.
Definition Repair2_loc (nptr : Node) (loc : Location) : Location :=
  if LeftChildIsRed nptr && LeftChildIsRed (lchild nptr)
  then RotateRight_loc nptr loc else loc.
Definition Repair_loc (nptr : Node) (loc : Location) : Location :=
  Repair2_loc (Repair1 nptr) (Repair1_loc nptr loc).

(** What the repair tail writes to [std::cerr]. *)
Definition Repair_cerr (nptr : Node) : list string :=
  (if RightChildIsRed nptr && negb (LeftChildIsRed nptr)
   then snd (RotateLeft nptr) else [])
  ++ (if LeftChildIsRed (Repair1 nptr) && LeftChildIsRed (lchild (Repair1 nptr))
      then snd (RotateRight (Repair1 nptr)) else []).

(** ** [RGet] and [RInsert] *)

Fixpoint RGet (nptr : Node) (kval : K) : Node * Location :=
  match nptr with
  | nullptr => (NewNode kval D_default Flags.DEFAULT, [])
  | mkNode e l r f =>
      let '(nptr', loc) :=
        if pred_ kval (key_ e) then
          let '(l', loc) := RGet l kval in (mkNode e l' r f, GoLeft :: loc)
        else if pred_ (key_ e) kval then
          let '(r', loc) := RGet r kval in (mkNode e l r' f, GoRight :: loc)
        else (mkNode e l r (Flags.SetAlive f), [])
      in (Repair nptr', Repair_loc nptr' loc)
  end.

Fixpoint RInsert (nptr : Node) (key : K) (data : D) : Node :=
  match nptr with
  | nullptr => NewNode key data Flags.DEFAULT
  | mkNode e l r f =>
      Repair
        (if pred_ key (key_ e) then mkNode e (RInsert l key data) r f
         else if pred_ (key_ e) key then mkNode e l (RInsert r key data) f
         else mkNode (mkEntry (key_ e) data) l r (Flags.SetAlive f))
  end.

(** ** Counting *)

Fixpoint RSize (n : Node) : Z :=
  match n with
  | nullptr => 0
  | mkNode _ l r f => Z.b2z (Flags.IsAlive f) + RSize l + RSize r
  end.

Fixpoint RNumNodes (n : Node) : Z :=
  match n with
  | nullptr => 0
  | mkNode _ l r _ => 1 + RNumNodes l + RNumNodes r
  end.

Fixpoint RHeight (n : Node) : Z :=
  match n with
  | nullptr => -1
  | mkNode _ l r _ =>
      let lh := RHeight l in
      let rh := RHeight r in
      if lh <? rh then 1 + rh else 1 + lh
  end.

(** [RClone]: a fresh node per source node, same entry and flag byte. *)
Fixpoint RClone (n : Node) : Node :=
  match n with
  | nullptr => nullptr
  | mkNode e l r f =>
      (* newN = NewNode(key, data); newN->flags_ = n->flags_; *)
      mkNode (mkEntry (key_ e) (data_ e)) (RClone l) (RClone r) f
  end.

(** [RRelease(n)] deletes every descendant of [n]; the model counts the
    [delete] statements it executes. *)
Fixpoint RRelease (n : Node) : Z :=
  match n with
  | nullptr => 0
  | mkNode _ l r _ =>
      (match l with nullptr => 0 | _ => RRelease l + 1 end)
      + (match r with nullptr => 0 | _ => RRelease r + 1 end)
  end.

(** ** The in-order iterator

    Modelled from the spec: the classes [ConstInorderMapIterator] and
    [InorderMapIterator] are declared friends of the map but their
    definitions are not part of the header.  The model follows section 4.D:
    the iterator carries an explicit stack of node pointers (the head of
    the list is the top); [end] is the empty stack, so [i != End()] holds
    exactly when the stack is not empty; initialisation pushes the leftmost
    chain from the root; advancing pops the top and, if it has a right
    child, pushes that child and its leftmost chain.  The live iterator
    ([Init], [Increment]) then keeps advancing while a dead node is on
    top, so that it ranges over alive entries only, as sections 4.B and 8
    require; the structural one ([sInit], [sIncrement]) does not skip. *)

Definition Iterator : Type := list Node.

Fixpoint PushLeftChain (n : Node) (stk_ : Iterator) : Iterator :=
  match n with
  | nullptr => stk_
  | mkNode _ l _ _ => PushLeftChain l (n :: stk_)
  end.

Definition sInit (root : Node) : Iterator := PushLeftChain root [].

Definition sIncrement (i : Iterator) : Iterator :=
  match i with
  | [] => []
  | n :: rest => PushLeftChain (rchild n) rest
  end.

(** Nodes still to be visited by an iterator; it bounds the number of
    advances any loop over the iterator can make. *)
Fixpoint NodeCount (n : Node) : nat :=
  match n with
  | nullptr => O
  | mkNode _ l r _ => S (NodeCount l + NodeCount r)
  end.

Fixpoint Remaining (i : Iterator) : nat :=
  match i with
  | [] => O
  | n :: rest => (S (NodeCount (rchild n)) + Remaining rest)%nat
  end.

(** [while (top is dead) advance]. *)
Fixpoint SkipDead (fuel : nat) (i : Iterator) : Iterator :=
  match i with
  | [] => []
  | n :: _ =>
      if IsDead n then
        match fuel with
        | O => i
        | S fuel' => SkipDead fuel' (sIncrement i)
        end
      else i
  end.

Definition Init (root : Node) : Iterator :=
  let i := sInit root in SkipDead (Remaining i) i.

Definition Increment (i : Iterator) : Iterator :=
  let i' := sIncrement i in SkipDead (Remaining i') i'.

(** ** The map *)

Record Map_ADT : Type := mkMap { root_ : Node }.

Definition Map_ADT_new : Map_ADT := mkMap nullptr.

Definition Begin (m : Map_ADT) : Iterator := Init (root_ m).
Definition End (m : Map_ADT) : Iterator := [].
Definition BeginStructuralInorder (m : Map_ADT) : Iterator := sInit (root_ m).

Definition Empty (m : Map_ADT) : bool :=
  match root_ m with nullptr => true | _ => false end.
Definition Size (m : Map_ADT) : Z := RSize (root_ m).
Definition NumNodes (m : Map_ADT) : Z := RNumNodes (root_ m).
Definition Height (m : Map_ADT) : Z := RHeight (root_ m).

(** [Get] returns the map after the call and the reference it hands
    out, as the position of the located node. *)
Definition Get (k : K) (m : Map_ADT) : Map_ADT * Location :=
  let '(root, location) := RGet (root_ m) k in
  (mkMap (SetBlack root), location).

(** [Put(k,d) { Get(k) = d; }] *)
Definition Put (k : K) (d : D) (m : Map_ADT) : Map_ADT :=
  let '(m', location) := Get k m in
  mkMap (AssignData (root_ m') location d).

Definition Insert (k : K) (d : D) (m : Map_ADT) : Map_ADT := Put k d m.

(** [Includes]: the descent pushes the path on the iterator's stack. *)
Fixpoint Includes_loop (n : Node) (k : K) (stk_ : Iterator) : Iterator :=
  match n with
  | nullptr => []
  | mkNode e l r f =>
      if pred_ k (key_ e) then Includes_loop l k (n :: stk_)
      else if pred_ (key_ e) k then Includes_loop r k (n :: stk_)
      else if IsAlive n then n :: stk_ else []
  end.

Definition Includes (k : K) (m : Map_ADT) : Iterator :=
  Includes_loop (root_ m) k [].

(** [Retrieve] returns its boolean result and the content of [d] after
    the call. *)
Definition Retrieve (k : K) (d : D) (m : Map_ADT) : bool * D :=
  match Includes k m with
  | mkNode e _ _ _ :: _ => (true, data_ e)
  | _ => (false, d)
  end.

Fixpoint Erase_loop (n : Node) (k : K) : Node :=
  match n with
  | nullptr => nullptr
  | mkNode e l r f =>
      if pred_ k (key_ e) then mkNode e (Erase_loop l k) r f
      else if pred_ (key_ e) k then mkNode e l (Erase_loop r k) f
      else mkNode e l r (Flags.SetDead f)
  end.

Definition Erase (k : K) (m : Map_ADT) : Map_ADT :=
  mkMap (Erase_loop (root_ m) k).

(** [Clear]: the map afterwards, and the number of nodes it deleted. *)
Definition Clear (m : Map_ADT) : Map_ADT := mkMap nullptr.
Definition Clear_deleted (m : Map_ADT) : Z :=
  RRelease (root_ m) + (match root_ m with nullptr => 0 | _ => 1 end).

(** [Rehash]: the loop over the live iterator feeding [RInsert]. *)
Fixpoint Rehash_loop (fuel : nat) (i : Iterator) (newRoot : Node) : Node :=
  match i with
  | mkNode e _ _ _ :: _ =>
      match fuel with
      | O => newRoot
      | S fuel' =>
          Rehash_loop fuel' (Increment i)
            (SetBlack (RInsert newRoot (key_ e) (data_ e)))
      end
  | _ => newRoot
  end.

Definition Rehash (m : Map_ADT) : Map_ADT :=
  let i := Begin m in
  mkMap (Rehash_loop (Remaining i) i nullptr).

(** Copy construction and assignment from another map object. *)
Definition CopyConstruct (tree : Map_ADT) : Map_ADT :=
  mkMap (RClone (root_ tree)).
Definition AssignFrom (this that : Map_ADT) : Map_ADT :=
  mkMap (RClone (root_ that)).

(** [operator ==] on two maps. *)
Fixpoint Equal_loop (fuel : nat) (i j : Iterator) : bool :=
  match i, j with
  | mkNode ei _ _ _ :: _, mkNode ej _ _ _ :: _ =>
      if neq (key_ ei) (key_ ej) || neq (data_ ei) (data_ ej) then false
      else match fuel with
           | O => false
           | S fuel' => Equal_loop fuel' (Increment i) (Increment j)
           end
  | [], [] => true
  | _, _ => false
  end.

Definition Equal (map1 map2 : Map_ADT) : bool :=
  let i := Begin map1 in
  let j := Begin map2 in
  Equal_loop (Remaining i) i j.


(** ** Map objects in memory

    [operator=] compares the addresses of its two operands, so it is
    modelled on a store of map objects indexed by address, with counters
    for the nodes allocated and freed so far. *)

Record Store : Type := mkStore {
  objects : list Map_ADT;
  allocated : Z;
  freed : Z
}.

Fixpoint Replace (l : list Map_ADT) (a : nat) (m : Map_ADT) : list Map_ADT :=
  match l, a with
  | [], _ => []
  | _ :: tl, O => m :: tl
  | hd :: tl, S a' => hd :: Replace tl a' m
  end.

(** [this->operator=(that)]: the store afterwards and the address of the
    returned reference.  Addresses outside the store are not objects and
    leave the store as it is. *)
Definition Assign (this that : nat) (s : Store) : Store * nat :=
  if negb (Nat.eqb this that) then
    match nth_error (objects s) this, nth_error (objects s) that with
    | Some mthis, Some mthat =>
        (mkStore (Replace (objects s) this (AssignFrom (Clear mthis) mthat))
                 (allocated s + NumNodes mthat)
                 (freed s + Clear_deleted mthis),
         this)
    | _, _ => (s, this)
    end
  else (s, this).

(** ** Observations used to state the properties *)

(** The nodes of a subtree in key order. *)
Fixpoint Inorder (n : Node) : list Node :=
  match n with
  | nullptr => []
  | mkNode _ l r _ => Inorder l ++ n :: Inorder r
  end.

(** The entries of a subtree in key order, each with its liveness. *)
Definition Item : Type := (Entry * bool)%type.

Fixpoint Items (n : Node) : list Item :=
  match n with
  | nullptr => []
  | mkNode e l r f => Items l ++ (e, Flags.IsAlive f) :: Items r
  end.

Definition item_of (n : Node) : list Item :=
  match n with
  | nullptr => []
  | mkNode e _ _ f => [(e, Flags.IsAlive f)]
  end.

Definition ItemsOf (ns : list Node) : list Item := flat_map item_of ns.

(** The live in-order (key, data) sequence. *)
Definition Live (l : list Item) : list Entry := map fst (filter snd l).
Definition LiveEntries (n : Node) : list Entry := Live (Items n).
(** The nodes an iterator has yet to visit, tombstones included, and the
    effect of skipping tombstones on such a sequence. *)
Definition Pending (i : Iterator) : list Node :=
  flat_map (fun n => n :: Inorder (rchild n)) i.

Fixpoint DropDead (ns : list Node) : list Node :=
  match ns with
  | [] => []
  | n :: rest => if IsDead n then DropDead rest else ns
  end.

(** The entries an iterator still has to yield, obtained by running it. *)
Fixpoint Drain (fuel : nat) (i : Iterator) : list Entry :=
  match i with
  | mkNode e _ _ _ :: _ =>
      match fuel with
      | O => []
      | S fuel' => e :: Drain fuel' (Increment i)
      end
  | _ => []
  end.

Definition Traverse (m : Map_ADT) : list Entry :=
  let i := Begin m in Drain (Remaining i) i.

(** Keys equivalent under the comparator: [!P(a,b) && !P(b,a)]. *)
Definition equiv_ (a b : K) : bool := negb (pred_ a b) && negb (pred_ b a).

Fixpoint AllKeys (f : K -> bool) (n : Node) : bool :=
  match n with
  | nullptr => true
  | mkNode e l r _ => f (key_ e) && AllKeys f l && AllKeys f r
  end.

(** Invariant 1: binary search tree order. *)
Fixpoint IsBST (n : Node) : bool :=
  match n with
  | nullptr => true
  | mkNode e l r _ =>
      AllKeys (fun k => pred_ k (key_ e)) l
      && AllKeys (fun k => pred_ (key_ e) k) r
      && IsBST l && IsBST r
  end.

(** Invariant 2: no node has a red right child while its left child is
    black. *)
Fixpoint LeftLeaning (n : Node) : bool :=
  match n with
  | nullptr => true
  | mkNode _ l r _ =>
      negb (RightChildIsRed n && negb (LeftChildIsRed n))
      && LeftLeaning l && LeftLeaning r
  end.

(** Invariant 3: a red left child has no red left child of its own. *)
Fixpoint NoRedRedLeft (n : Node) : bool :=
  match n with
  | nullptr => true
  | mkNode _ l r _ =>
      negb (LeftChildIsRed n && LeftChildIsRed l)
      && NoRedRedLeft l && NoRedRedLeft r
  end.

(** Invariant 4: the same number of black nodes on every path from the
    node to a null link; [BlackHeight] is that number when it exists. *)
Fixpoint BlackHeight (n : Node) : option Z :=
  match n with
  | nullptr => Some 0
  | mkNode _ l r f =>
      match BlackHeight l, BlackHeight r with
      | Some hl, Some hr =>
          if hl =? hr then Some (hl + Z.b2z (Flags.IsBlack f)) else None
      | _, _ => None
      end
  end.

Definition BlackBalanced (n : Node) : bool :=
  match BlackHeight n with Some _ => true | None => false end.

(** Invariant 5: the root, if present, is black. *)
Definition RootIsBlack (n : Node) : bool :=
  match n with nullptr => true | _ => IsBlack n end.

(** Every flag byte holds one of the four flag states. *)
Fixpoint FlagsOK (n : Node) : bool :=
  match n with
  | nullptr => true
  | mkNode _ l r f => (0 <=? f) && (f <? 4) && FlagsOK l && FlagsOK r
  end.

Definition Invariants (m : Map_ADT) : bool :=
  IsBST (root_ m) && LeftLeaning (root_ m) && NoRedRedLeft (root_ m)
  && BlackBalanced (root_ m) && RootIsBlack (root_ m).

(** The map states public operations produce, starting from a freshly
    constructed map, while every object involved holds the one comparator
    [P], as with any comparator class without state such as the default.
    [operator=] leaves [pred_] as it is, so assignment from an object
    constructed with another comparator leads outside this set: the
    objects with their own [pred_], and what they reach, are
    [Object.Reachable] below. *)
Inductive Reachable : Map_ADT -> Prop :=
| Reach_new : Reachable Map_ADT_new
| Reach_Get k m : Reachable m -> Reachable (fst (Get k m))
| Reach_Put k d m : Reachable m -> Reachable (Put k d m)
| Reach_Insert k d m : Reachable m -> Reachable (Insert k d m)
| Reach_Erase k m : Reachable m -> Reachable (Erase k m)
| Reach_Clear m : Reachable m -> Reachable (Clear m)
| Reach_Rehash m : Reachable m -> Reachable (Rehash m)
| Reach_Copy m : Reachable m -> Reachable (CopyConstruct m)
| Reach_Assign m that :
    Reachable m -> Reachable that -> Reachable (AssignFrom m that).

(** ** The tree as an ordered list *)

Definition item_key (it : Item) : K := key_ (fst it).

(** Strictly ascending under the comparator. *)
Fixpoint Ascending (l : list Item) : Prop :=
  match l with
  | [] => True
  | x :: rest =>
      Forall (fun y => pred_ (item_key x) (item_key y) = true) rest
      /\ Ascending rest
  end.

(** Keyed update of an ascending list: [fresh] goes where [k] belongs
    when no item has an equivalent key, otherwise that item is replaced
    by [upd] of it. *)
Fixpoint Upsert (k : K) (fresh : list Item) (upd : Item -> Item)
    (l : list Item) : list Item :=
  match l with
  | [] => fresh
  | x :: rest =>
      if pred_ k (item_key x) then fresh ++ l
      else if pred_ (item_key x) k then x :: Upsert k fresh upd rest
      else upd x :: rest
  end.

(** The list updates made by [RGet], [RInsert] and [Erase]. *)
Definition fresh_get (k : K) : list Item := [(mkEntry k D_default, true)].
Definition upd_get (x : Item) : Item := (fst x, true).
Definition fresh_ins (k : K) (d : D) : list Item := [(mkEntry k d, true)].
Definition upd_ins (d : D) (x : Item) : Item := (mkEntry (key_ (fst x)) d, true).
Definition upd_erase (x : Item) : Item := (fst x, false).

(** The item with a key equivalent to [k], dead or alive. *)
Fixpoint Find (k : K) (l : list Item) : option Item :=
  match l with
  | [] => None
  | x :: rest =>
      if pred_ k (item_key x) then None
      else if pred_ (item_key x) k then Find k rest
      else Some x
  end.

(** The descent of [Erase], [RGet] and [RInsert] without the repair tail:
    the node with a key equivalent to [k], and its update in place. *)
Fixpoint FoundAt (n : Node) (k : K) : option (Entry * Z) :=
  match n with
  | nullptr => None
  | mkNode e l r f =>
      if pred_ k (key_ e) then FoundAt l k
      else if pred_ (key_ e) k then FoundAt r k
      else Some (e, f)
  end.

Fixpoint UpdateAt (g : Entry -> Z -> Entry * Z) (n : Node) (k : K) : Node :=
  match n with
  | nullptr => nullptr
  | mkNode e l r f =>
      if pred_ k (key_ e) then mkNode e (UpdateAt g l k) r f
      else if pred_ (key_ e) k then mkNode e l (UpdateAt g r k) f
      else let '(e', f') := g e f in mkNode e' l r f'
  end.

(** The comparator contract: a strict weak ordering. *)
Class StrictWeakOrdering : Prop := {
  pred_irrefl : forall a, pred_ a a = false;
  pred_trans : forall a b c,
    pred_ a b = true -> pred_ b c = true -> pred_ a c = true;
  equiv_trans : forall a b c,
    equiv_ a b = true -> equiv_ b c = true -> equiv_ a c = true
}.

(** [operator !=] on keys and data decides inequality. *)
Class NotEqualDecides : Prop := {
  neq_key : forall a b : K, neq a b = false <-> a = b;
  neq_data : forall a b : D, neq a b = false <-> a = b
}.

(** The colour shape of a 2-3 left-leaning tree of black height [h]:
    a red node has two non-red children, a black node has a non-red
    right child, and both subtrees have the same black height. *)
Inductive LLRB : nat -> Node -> Prop :=
| LLRB_null : LLRB O nullptr
| LLRB_red e l r f h :
    Flags.IsRed f = true -> IsRed l = false -> IsRed r = false ->
    LLRB h l -> LLRB h r -> LLRB h (mkNode e l r f)
| LLRB_black e l r f h :
    Flags.IsRed f = false -> IsRed r = false ->
    LLRB h l -> LLRB h r -> LLRB (S h) (mkNode e l r f).

(** The shape [RGet] and [RInsert] hand to their caller: as [LLRB], but a
    red root may have a red left child, which the caller repairs. *)
Inductive AlmostLLRB : nat -> Node -> Prop :=
| Almost_red e l r f h :
    Flags.IsRed f = true -> IsRed r = false ->
    LLRB h l -> LLRB h r -> AlmostLLRB h (mkNode e l r f)
| Almost_black e l r f h :
    Flags.IsRed f = false -> IsRed r = false ->
    LLRB h l -> LLRB h r -> AlmostLLRB (S h) (mkNode e l r f).

(** The state of a live iterator between calls: its stack holds no null
    pointer and its top, if any, is not a tombstone. *)
Definition NoNull (i : Iterator) : Prop := Forall (fun n => n <> nullptr) i.

Definition TopAlive (i : Iterator) : Prop :=
  match i with [] => True | n :: _ => IsDead n = false end.

Definition Good (i : Iterator) : Prop := NoNull i /\ TopAlive i.

(** The body of the loop in [Rehash]. *)
Definition Rehash_step (newRoot : Node) (e : Entry) : Node :=
  SetBlack (RInsert newRoot (key_ e) (data_ e)).

Definition alive (e : Entry) : Item := (e, true).

(** A live entry with a key equivalent to [k] holds [v]. *)
Definition HasLive (m : Map_ADT) (k : K) (v : D) : Prop :=
  exists e, In e (LiveEntries (root_ m))
            /\ equiv_ k (key_ e) = true /\ data_ e = v.

(** What every public operation establishes, in the form the proofs
    use: ascending keys, the 2-3 left-leaning shape, a black root and
    flag bytes within the four flag states. *)
Definition Sound (m : Map_ADT) : Prop :=
  Ascending (Items (root_ m))
  /\ (exists h, LLRB h (root_ m))
  /\ IsRed (root_ m) = false
  /\ FlagsOK (root_ m) = true.

End MapADT.

Arguments Entry : clear implicits.
Arguments Node : clear implicits.
Arguments Map_ADT : clear implicits.
Arguments Iterator : clear implicits.
Arguments Store : clear implicits.
Arguments Item : clear implicits.
Arguments StrictWeakOrdering K {P}.
Arguments NotEqualDecides K D {NEK NED}.

(** ** Instances used in examples: integer keys under [LessThan<int>],
    string data. *)

Module IntString.

Local Open Scope string_scope.

#[export] Instance LessThan_int : Predicate Z := Z.ltb.
#[export] Instance string_default : DefaultConstructible string := EmptyString.
#[export] Instance int_neq : NotEqual Z := fun a b => negb (Z.eqb a b).
#[export] Instance string_neq : NotEqual string := fun a b => negb (String.eqb a b).

Definition M : Type := Map_ADT Z string.

Definition fresh : M := Map_ADT_new.

(** [Put] of the keys of a list, in order, each with the same data. *)
Definition PutAll (ks : list Z) (d : string) (m : M) : M :=
  fold_left (fun acc k => Put k d acc) ks m.

Definition upto (n : nat) : list Z := map Z.of_nat (seq 1 n).

Definition put_item (d : string) (k : Z) : Item Z string := (mkEntry k d, true).

(** Sample maps. *)
Definition one_to_four : M := PutAll (upto 4) "x" fresh.
Definition four_to_one : M := PutAll (rev (upto 4)) "x" fresh.
Definition seven : M := PutAll (upto 7) "x" fresh.
Definition tombstone_only : M := Erase 1 (Put 1 "a" fresh).
Definition lone_node : Node Z string := NewNode 1 "a" Flags.ZERO.
Definition black_pair : Node Z string :=
  mkNode (mkEntry 1 "a")
    (mkNode (mkEntry 0 "l") nullptr nullptr Flags.ZERO)
    (mkNode (mkEntry 2 "r") nullptr nullptr Flags.ZERO)
    Flags.ZERO.
Definition two_objects : Store Z string := mkStore [seven; tombstone_only] 9 1.

End IntString.

(** * Map objects and their comparators

    [class Map_ADT] has two data members, [root_] and [pred_]
    (map_adt.h:200-201).  The operations above are its member functions
    with the [pred_] of the object they run on as the parameter [P].  A
    map object pairs a tree with the comparator it was constructed with:
    the constructors set [pred_] ([pred_()], [pred_(p)],
    [pred_(tree.pred_)]) and no other member function assigns it. *)

Module Object.

Section Objects.

Context {K D : Type} {DC : DefaultConstructible D}.

(* The members below take the names [root_] and [pred_]; the root of a
   tree of the previous sections stays at hand under this name. *)
Local Abbreviation root_of := root_ (only parsing).

(** [Node * root_; PredicateType pred_;] *)
Record obj : Type := mkObj { root_ : Node K D; pred_ : Predicate K }.

(** The tree of an object, and the object with its tree replaced. *)
Definition tree (o : obj) : Map_ADT K D := mkMap (root_ o).
Definition with_tree (o : obj) (m : Map_ADT K D) : obj :=
  mkObj (root_of m) (pred_ o).

(** [Map_ADT() : root_(nullptr), pred_()] and
    [Map_ADT(P p) : root_(nullptr), pred_(p)]. *)
Definition New (p : Predicate K) : obj := mkObj nullptr p.

(** [Map_ADT(const Map_ADT& tree) : root_(nullptr), pred_(tree.pred_)
    { root_ = RClone(tree.root_); }] *)
Definition Copy (that : obj) : obj :=
  mkObj (RClone (root_ that)) (pred_ that).

(** [operator=]: [if (this != &that) { Clear(); this->root_ =
    RClone(that.root_); } return *this;].  [pred_] is not assigned.  On
    one and the same object the result is that object, as the guard has
    it. *)
Definition Assign (this that : obj) : obj :=
  with_tree this (AssignFrom (Clear (tree this)) (tree that)).

Definition Get (k : K) (o : obj) : obj * Location :=
  let '(m, location) := Get (P := pred_ o) k (tree o) in
  (with_tree o m, location).
Definition Put (k : K) (d : D) (o : obj) : obj :=
  with_tree o (Put (P := pred_ o) k d (tree o)).
Definition Insert (k : K) (d : D) (o : obj) : obj :=
  with_tree o (Insert (P := pred_ o) k d (tree o)).
Definition Erase (k : K) (o : obj) : obj :=
  with_tree o (Erase (P := pred_ o) k (tree o)).
Definition Clear (o : obj) : obj := with_tree o (Clear (tree o)).
Definition Rehash (o : obj) : obj :=
  with_tree o (Rehash (P := pred_ o) (tree o)).
Definition Retrieve (k : K) (d : D) (o : obj) : bool * D :=
  Retrieve (P := pred_ o) k d (tree o).

(** The five invariants of an object, the search-tree order being the one
    of its own [pred_]. *)
Definition Invariants (o : obj) : bool :=
  Invariants (P := pred_ o) (tree o).

(** The objects public operations can produce: constructed with a
    comparator that is a strict weak ordering, then any member function,
    with copies of and assignments from any other such object. *)
Inductive Reachable : obj -> Prop :=
| Made_New p : StrictWeakOrdering K (P := p) -> Reachable (New p)
| Made_Copy that : Reachable that -> Reachable (Copy that)
| Made_Assign this that :
    Reachable this -> Reachable that -> Reachable (Assign this that)
| Made_Get k o : Reachable o -> Reachable (fst (Get k o))
| Made_Put k d o : Reachable o -> Reachable (Put k d o)
| Made_Insert k d o : Reachable o -> Reachable (Insert k d o)
| Made_Erase k o : Reachable o -> Reachable (Erase k o)
| Made_Clear o : Reachable o -> Reachable (Clear o)
| Made_Rehash o : Reachable o -> Reachable (Rehash o).

(** The colour shape of a tree whose root is black, with flag bytes
    within the four flag states: the part of the invariants no comparator
    enters. *)
Definition Shaped (t : Node K D) : Prop :=
  (exists h, LLRB h t) /\ IsRed t = false /\ FlagsOK t = true.

End Objects.

Arguments obj : clear implicits.

End Object.

(** What a descent for [k] ends on, colour apart: the entry and whether
    it is dead. *)
Section Descent.

Context {K D : Type} {P : Predicate K}.

Definition Seen (t : Node K D) (k : K) : option (Entry K D * bool) :=
  option_map (fun ef => (fst ef, Flags.IsDead (snd ef))) (FoundAt t k).

End Descent.

(** Two objects of one map type whose comparators differ, and the
    assignment of one to the other. *)
Module CrossedComparators.
Import IntString.
Local Open Scope string_scope.

Definition GreaterThan_int : Predicate Z := Z.gtb.

Definition b : Object.obj Z string :=
  Object.Put 3 "c" (Object.Put 2 "b" (Object.Put 1 "a"
    (Object.New GreaterThan_int))).
Definition a : Object.obj Z string := Object.New LessThan_int.

(** [a = b;] *)
Definition crossed : Object.obj Z string := Object.Assign a b.

End CrossedComparators.

(** * Further parts of the header *)

From Stdlib Require Import Ascii.

Section MapADT_tools.

Context {K D : Type}.

(** ** Debug glyphs and positions *)

(** [BWMap]: the glyph of a flag byte. *)
Definition BWMap (flags_ : Z) : ascii :=
  if flags_ =? 0 then "B"%char        (* bits 00 black alive *)
  else if flags_ =? 1 then "b"%char   (* bits 01 black dead *)
  else if flags_ =? 2 then "R"%char   (* bits 10 red alive *)
  else if flags_ =? 3 then "r"%char   (* bits 11 red dead *)
  else "U"%char.                      (* unknown flags *)

(** The entry and liveness found by following a position. *)
Fixpoint ItemAt (n : Node K D) (loc : Location) : option (Item K D) :=
  match n with
  | nullptr => None
  | mkNode e l r f =>
      match loc with
      | [] => Some (e, Flags.IsAlive f)
      | GoLeft :: rest => ItemAt l rest
      | GoRight :: rest => ItemAt r rest
      end
  end.

(** ** [DumpBW]

    The characters [DumpBW] writes.  The queue of node pointers is a list
    (front first).  The placeholder [fillNode] is the root pointer itself,
    recognised by address; the real root leaves the queue before the main
    loop and no child pointer equals it, so a queue entry is modelled as
    [None] for the placeholder and [Some n] for a node.  [size_t] counters
    are unbounded. *)

Definition Slot : Type := option (Node K D).

Definition nullFill : ascii := "-"%char.
Definition newline : ascii := "010"%char.

(** [if (c != nullptr) { Que.Push(c); ++nextLayerSize; } else Que.Push(fillNode);] *)
Definition PushChild (c : Node K D) : Slot :=
  match c with nullptr => None | _ => Some c end.
Definition CountChild (c : Node K D) : nat :=
  match c with nullptr => O | _ => 1%nat end.

(** What one pass of the inner loop writes, pushes and counts. *)
Definition SlotGlyph (current : Slot) : ascii :=
  match current with
  | Some (mkNode _ _ _ f) => BWMap f
  | _ => nullFill
  end.
Definition SlotKids (current : Slot) : list Slot :=
  match current with
  | Some (mkNode _ l r _) => [PushChild l; PushChild r]
  | _ => [None; None]
  end.
Definition SlotCount (current : Slot) : nat :=
  match current with
  | Some (mkNode _ l r _) => (CountChild l + CountChild r)%nat
  | _ => O
  end.

(** [for (j = 0; j < k; ++j)]: [j] counts the passes still to go. *)
Fixpoint DumpBW_for (j : nat) (Que : list Slot) (os : list ascii)
    (nextLayerSize : nat) : list Slot * list ascii * nat :=
  match j, Que with
  | S j', current :: Que' =>
      DumpBW_for j' (Que' ++ SlotKids current) (os ++ [SlotGlyph current])
        (nextLayerSize + SlotCount current)
  | _, _ => (Que, os, nextLayerSize)
  end.

(** [while (currLayerSize > 0)].  [fuel] bounds the number of rounds;
    [DumpBW] passes the node count, and every round but the last reaches a
    level that holds a node, so the loop ends on its own test. *)
Fixpoint DumpBW_while (fuel : nat) (currLayerSize k : nat) (Que : list Slot)
    (os : list ascii) : list ascii :=
  match fuel with
  | O => os
  | S fuel' =>
      match currLayerSize with
      | O => os
      | _ =>
          let '(Que', os', nextLayerSize) :=
            DumpBW_for k Que (os ++ [" "%char]) 0 in
          DumpBW_while fuel' nextLayerSize (2 * k) Que' (os' ++ [newline])
      end
  end.

Definition DumpBW (m : Map_ADT K D) : list ascii :=
  match root_ m with
  | nullptr => []
  | mkNode _ l r f =>
      (* the body once for the real root *)
      let os := [" "%char; BWMap f; newline] in
      let Que := [PushChild l; PushChild r] in
      let nextLayerSize := (CountChild l + CountChild r)%nat in
      DumpBW_while (NodeCount (root_ m)) nextLayerSize 2 Que os
  end.

(** The positions of a complete binary tree level by level: level [i] of
    the tree under [root], with [None] where the tree has no node. *)
Definition Level (root : Node K D) (i : nat) : list Slot :=
  Nat.iter i (flat_map SlotKids) [PushChild root].

Definition Row (root : Node K D) (i : nat) : list ascii :=
  " "%char :: map SlotGlyph (Level root i) ++ [newline].

Definition Reals (q : list Slot) : nat :=
  length (filter (fun s => match s with Some _ => true | None => false end) q).

End MapADT_tools.

Arguments Slot : clear implicits.

(** ** Nodes in memory

    [RClone] allocates with [new] (through [NewNode]) and [RRelease] and
    [Clear] free with [delete].  To follow single nodes a pointer here
    carries the address it holds next to the node it points to, and the
    free store records which addresses are live.  [new] is taken to
    succeed and hands out an address that was never in use ([brk],
    counted up); [delete] of an address that is not live is counted as a
    fault. *)

Section Memory.

Context {K D : Type}.

Definition Addr : Type := nat.

Inductive Ptr : Type :=
| NULL : Ptr
| node_at (a : Addr) (value_ : Entry K D) (lchild_ rchild_ : Ptr) (flags_ : Z) : Ptr.

(** The tree behind a pointer, and the addresses of its nodes. *)
Fixpoint Pointee (p : Ptr) : Node K D :=
  match p with
  | NULL => nullptr
  | node_at _ e l r f => mkNode e (Pointee l) (Pointee r) f
  end.

Fixpoint Addrs (p : Ptr) : list Addr :=
  match p with
  | NULL => []
  | node_at a _ l r _ => a :: Addrs l ++ Addrs r
  end.

Record Heap : Type := mkHeap { brk : Addr; live : list Addr; faults : nat }.

Definition operator_new (h : Heap) : Addr * Heap :=
  (brk h, mkHeap (S (brk h)) (brk h :: live h) (faults h)).

Definition operator_delete (a : Addr) (h : Heap) : Heap :=
  if existsb (Nat.eqb a) (live h)
  then mkHeap (brk h) (filter (fun x => negb (Nat.eqb a x)) (live h)) (faults h)
  else mkHeap (brk h) (live h) (S (faults h)).

(** [RClone]: [NewNode] first, then the clone of the left and of the right
    subtree. *)
Fixpoint RClone_at (n : Ptr) (h : Heap) : Ptr * Heap :=
  match n with
  | NULL => (NULL, h)
  | node_at _ e l r f =>
      let '(a, h1) := operator_new h in
      let '(l', h2) := RClone_at l h1 in
      let '(r', h3) := RClone_at r h2 in
      (node_at a (mkEntry (key_ e) (data_ e)) l' r' f, h3)
  end.

(** [RRelease]: for each child that is not null, release its
    descendants, then [delete] it. *)
Fixpoint RRelease_at (n : Ptr) (h : Heap) : Heap :=
  match n with
  | NULL => h
  | node_at _ _ l r _ =>
      let h1 := match l with
                | NULL => h
                | node_at al _ _ _ _ => operator_delete al (RRelease_at l h)
                end in
      match r with
      | NULL => h1
      | node_at ar _ _ _ _ => operator_delete ar (RRelease_at r h1)
      end
  end.

(** [Clear]: [RRelease(root_); delete root_; root_ = 0;], where [delete]
    of a null pointer does nothing. *)
Definition Clear_at (root : Ptr) (h : Heap) : Heap :=
  let h1 := RRelease_at root h in
  match root with
  | NULL => h1
  | node_at a _ _ _ _ => operator_delete a h1
  end.

(** The map objects of a program, by the [root_] each holds, and the free
    store. *)
Record Memory : Type := mkMemory { roots : list Ptr; heap : Heap }.

Fixpoint SetRoot (l : list Ptr) (a : nat) (p : Ptr) : list Ptr :=
  match l, a with
  | [], _ => []
  | _ :: tl, O => p :: tl
  | hd :: tl, S a' => hd :: SetRoot tl a' p
  end.

(** [this->operator=(that)] on objects in memory. *)
Definition Assign_at (this that : nat) (s : Memory) : Memory * nat :=
  if negb (Nat.eqb this that) then
    match nth_error (roots s) this, nth_error (roots s) that with
    | Some rthis, Some rthat =>
        let h1 := Clear_at rthis (heap s) in
        let '(r', h2) := RClone_at rthat h1 in
        (mkMemory (SetRoot (roots s) this r') h2, this)
    | _, _ => (s, this)
    end
  else (s, this).

(** The nodes the objects hold, and a memory in order: no node is held
    twice, the live addresses are exactly the nodes held, and [new] has
    passed all of them. *)
Definition Owned (s : Memory) : list Addr := flat_map Addrs (roots s).

Definition Intact (s : Memory) : Prop :=
  NoDup (Owned s)
  /\ NoDup (live (heap s))
  /\ (forall x, In x (live (heap s)) <-> In x (Owned s))
  /\ (forall x, In x (live (heap s)) -> (x < brk (heap s))%nat).

End Memory.

Arguments Ptr : clear implicits.
Arguments Memory : clear implicits.

(** Two map objects in memory: one node, and a root with a red left
    child. *)
Module MemorySamples.

Local Open Scope string_scope.

Definition two_in_memory : Memory Z string :=
  mkMemory
    [node_at 0%nat (mkEntry 1 "a") NULL NULL Flags.ZERO;
     node_at 1%nat (mkEntry 2 "b")
       (node_at 2%nat (mkEntry 1 "z") NULL NULL Flags.RED) NULL Flags.ZERO]
    (mkHeap 3%nat [0%nat; 1%nat; 2%nat] 0%nat).

End MemorySamples.

(** Sample subtrees for the rotations. *)
Module IntStringSamples.

Local Open Scope string_scope.

Definition red_right : Node Z string :=
  mkNode (mkEntry 1 "a") nullptr
    (mkNode (mkEntry 2 "b") nullptr nullptr Flags.RED) Flags.ZERO.

Definition red_left : Node Z string :=
  mkNode (mkEntry 2 "b")
    (mkNode (mkEntry 1 "a") nullptr nullptr Flags.RED) nullptr Flags.ZERO.

End IntStringSamples.

(** * Properties *)

(** ** The flag byte *)

Module FlagFacts.
Import Flags.

Lemma IsRed_testbit f : IsRed f = Z.testbit f 1.
Proof.
  unfold IsRed, RED.
  destruct (Z.testbit f 1) eqn:E.
  - destruct (Z.land 2 f =? 0) eqn:E0; [|reflexivity].
    apply Z.eqb_eq in E0.
    assert (H : Z.testbit (Z.land 2 f) 1 = true)
      by (rewrite Z.land_spec, E; reflexivity).
    rewrite E0 in H. discriminate H.
  - assert (H : Z.land 2 f = 0).
    { apply Z.bits_inj'. intros n Hn. rewrite Z.land_spec, Z.bits_0.
      destruct (Z.eq_dec n 1) as [-> | Hne].
      - rewrite E. apply andb_false_r.
      - change 2 with (2 ^ 1). rewrite Z.pow2_bits_false by lia. reflexivity. }
    rewrite H. reflexivity.
Qed.

Lemma IsDead_testbit f : IsDead f = Z.testbit f 0.
Proof.
  unfold IsDead, DEAD.
  destruct (Z.testbit f 0) eqn:E.
  - destruct (Z.land 1 f =? 0) eqn:E0; [|reflexivity].
    apply Z.eqb_eq in E0.
    assert (H : Z.testbit (Z.land 1 f) 0 = true)
      by (rewrite Z.land_spec, E; reflexivity).
    rewrite E0 in H. discriminate H.
  - assert (H : Z.land 1 f = 0).
    { apply Z.bits_inj'. intros n Hn. rewrite Z.land_spec, Z.bits_0.
      destruct (Z.eq_dec n 0) as [-> | Hne].
      - rewrite E. apply andb_false_r.
      - change 1 with (2 ^ 0). rewrite Z.pow2_bits_false by lia. reflexivity. }
    rewrite H. reflexivity.
Qed.

Ltac bits :=
  unfold SetRed, SetBlack, SetDead, SetAlive, uint8, RED, DEAD;
  rewrite ?IsRed_testbit, ?IsDead_testbit;
  repeat (rewrite ?Z.land_spec, ?Z.lor_spec, ?Z.lnot_spec by lia);
  cbn; rewrite ?andb_true_r, ?orb_true_r, ?orb_false_r, ?andb_false_r;
  try reflexivity.

Lemma IsRed_SetRed f : IsRed (SetRed f) = true.
Proof. bits. Qed.
Lemma IsRed_SetBlack f : IsRed (SetBlack f) = false.
Proof. bits. Qed.
Lemma IsRed_SetDead f : IsRed (SetDead f) = IsRed f.
Proof. bits. Qed.
Lemma IsRed_SetAlive f : IsRed (SetAlive f) = IsRed f.
Proof. bits. Qed.
Lemma IsDead_SetRed f : IsDead (SetRed f) = IsDead f.
Proof. bits. Qed.
Lemma IsDead_SetBlack f : IsDead (SetBlack f) = IsDead f.
Proof. bits. Qed.
Lemma IsDead_SetDead f : IsDead (SetDead f) = true.
Proof. bits. Qed.
Lemma IsDead_SetAlive f : IsDead (SetAlive f) = false.
Proof. bits. Qed.

(** The four flag states are closed under the setters, and a setter that
    has nothing to change leaves the byte as it is. *)
Lemma four_cases f : four f -> f = 0 \/ f = 1 \/ f = 2 \/ f = 3.
Proof. unfold four. lia. Qed.

Ltac by_cases H :=
  destruct (four_cases _ H) as [-> | [-> | [-> | ->]]];
  try reflexivity; try discriminate; try (unfold four; cbn; lia).

Lemma four_SetRed f : four f -> four (SetRed f).
Proof. intros H. by_cases H. Qed.
Lemma four_SetBlack f : four f -> four (SetBlack f).
Proof. intros H. by_cases H. Qed.
Lemma four_SetDead f : four f -> four (SetDead f).
Proof. intros H. by_cases H. Qed.
Lemma four_SetAlive f : four f -> four (SetAlive f).
Proof. intros H. by_cases H. Qed.
Lemma four_DEFAULT : four DEFAULT.
Proof. unfold four, DEFAULT, RED. lia. Qed.

Lemma SetBlack_black f : four f -> IsRed f = false -> SetBlack f = f.
Proof. intros H. by_cases H. Qed.
Lemma SetAlive_alive f : four f -> IsDead f = false -> SetAlive f = f.
Proof. intros H. by_cases H. Qed.
Lemma SetAlive_SetDead f : four f -> IsDead f = false -> SetAlive (SetDead f) = f.
Proof. intros H. by_cases H. Qed.
Lemma SetAlive_SetDead_any f : four f -> SetAlive (SetDead f) = SetAlive f.
Proof. intros H. by_cases H. Qed.
Lemma SetDead_idem f : four f -> SetDead (SetDead f) = SetDead f.
Proof. intros H. by_cases H. Qed.

Lemma IsAlive_SetRed f : IsAlive (SetRed f) = IsAlive f.
Proof. unfold IsAlive. rewrite IsDead_SetRed. reflexivity. Qed.
Lemma IsAlive_SetBlack f : IsAlive (SetBlack f) = IsAlive f.
Proof. unfold IsAlive. rewrite IsDead_SetBlack. reflexivity. Qed.
Lemma IsAlive_SetAlive f : IsAlive (SetAlive f) = true.
Proof. unfold IsAlive. rewrite IsDead_SetAlive. reflexivity. Qed.
Lemma IsAlive_SetDead f : IsAlive (SetDead f) = false.
Proof. unfold IsAlive. rewrite IsDead_SetDead. reflexivity. Qed.

End FlagFacts.

Arguments Flags.IsRed : simpl never.
Arguments Flags.IsDead : simpl never.
Arguments Flags.IsAlive : simpl never.
Arguments Flags.SetRed : simpl never.
Arguments Flags.SetBlack : simpl never.
Arguments Flags.SetDead : simpl never.
Arguments Flags.SetAlive : simpl never.

(** ** Colours: the repair tail and the shape it maintains *)

Section ColourFacts.

Context {K D : Type} {P : Predicate K} {DC : DefaultConstructible D}.
Implicit Types (n t l r : Node K D) (e : Entry K D) (k : K) (d : D) (f : Z).

Lemma IsRed_null : IsRed (@nullptr K D) = false.
Proof. reflexivity. Qed.

Lemma IsRed_mk e l r f : IsRed (mkNode e l r f) = Flags.IsRed f.
Proof. reflexivity. Qed.

Lemma LeftChildIsRed_eq n : LeftChildIsRed n = IsRed (lchild n).
Proof. unfold LeftChildIsRed. destruct (lchild n); reflexivity. Qed.

Lemma RightChildIsRed_eq n : RightChildIsRed n = IsRed (rchild n).
Proof. unfold RightChildIsRed. destruct (rchild n); reflexivity. Qed.

Lemma IsRed_SetBlack_node n : IsRed (SetBlack n) = false.
Proof. destruct n; [reflexivity|]. apply FlagFacts.IsRed_SetBlack. Qed.

(** When the repair tail does nothing, and what it does otherwise. *)

Lemma Repair1_skip n :
  IsRed (rchild n) && negb (IsRed (lchild n)) = false -> Repair1 n = n.
Proof.
  intros H. unfold Repair1.
  rewrite RightChildIsRed_eq, LeftChildIsRed_eq, H. reflexivity.
Qed.

Lemma Repair2_skip n :
  IsRed (lchild n) && IsRed (lchild (lchild n)) = false -> Repair2 n = n.
Proof.
  intros H. unfold Repair2.
  rewrite !LeftChildIsRed_eq, H. reflexivity.
Qed.

Lemma Repair3_skip n :
  IsRed (lchild n) && IsRed (rchild n) = false -> Repair3 n = n.
Proof.
  intros H. unfold Repair3.
  rewrite RightChildIsRed_eq, LeftChildIsRed_eq, H. reflexivity.
Qed.

Lemma Repair_skip n :
  IsRed (rchild n) = false ->
  IsRed (lchild n) && IsRed (lchild (lchild n)) = false ->
  Repair n = n.
Proof.
  intros Hr Hl. unfold Repair.
  rewrite Repair1_skip by (rewrite Hr; reflexivity).
  rewrite Repair2_skip by assumption.
  apply Repair3_skip. rewrite Hr. apply andb_false_r.
Qed.

Lemma Repair1_rotate e l pe pl pr pf f :
  Flags.IsRed pf = true -> IsRed l = false ->
  Repair1 (mkNode e l (mkNode pe pl pr pf) f)
  = mkNode pe (mkNode e l pl (Flags.SetRed f)) pr
      (if Flags.IsRed f then Flags.SetRed pf else Flags.SetBlack pf).
Proof.
  intros Hp Hl. unfold Repair1.
  rewrite RightChildIsRed_eq, LeftChildIsRed_eq. simpl.
  rewrite IsRed_mk, Hp, Hl. reflexivity.
Qed.

Lemma Repair2_rotate e pe pl pr pf r f :
  Flags.IsRed pf = true -> IsRed pl = true ->
  Repair2 (mkNode e (mkNode pe pl pr pf) r f)
  = mkNode pe pl (mkNode e pr r (Flags.SetRed f))
      (if Flags.IsRed f then Flags.SetRed pf else Flags.SetBlack pf).
Proof.
  intros Hp Hl. unfold Repair2.
  rewrite !LeftChildIsRed_eq. simpl.
  rewrite IsRed_mk, Hp, Hl. reflexivity.
Qed.

Lemma Repair3_flip e l r f :
  IsRed l = true -> IsRed r = true ->
  Repair3 (mkNode e l r f) = mkNode e (SetBlack l) (SetBlack r) (Flags.SetRed f).
Proof.
  intros Hl Hr. unfold Repair3.
  rewrite RightChildIsRed_eq, LeftChildIsRed_eq. simpl.
  rewrite Hl, Hr. reflexivity.
Qed.

(** The repair tail rotates only about a red child, so it never writes a
    diagnostic: [RGet] and [RInsert] leave [std::cerr] alone. *)
Lemma Repair_is_silent n : Repair_cerr n = [].
Proof.
  unfold Repair_cerr.
  assert (HL : forall t, RightChildIsRed t = true -> snd (RotateLeft t) = []).
  { intros [|e l [|pe pl pr pf] f]; try reflexivity.
    rewrite RightChildIsRed_eq. simpl. rewrite IsRed_mk. intros ->. reflexivity. }
  assert (HR : forall t, LeftChildIsRed t = true -> snd (RotateRight t) = []).
  { intros [|e [|pe pl pr pf] r f]; try reflexivity.
    rewrite LeftChildIsRed_eq. simpl. rewrite IsRed_mk. intros ->. reflexivity. }
  destruct (RightChildIsRed n) eqn:E1; simpl.
  - destruct (negb (LeftChildIsRed n)); [rewrite (HL n E1)|]; simpl;
      destruct (LeftChildIsRed (Repair1 n)) eqn:E2; simpl; auto;
      destruct (LeftChildIsRed (lchild (Repair1 n))); auto.
  - destruct (LeftChildIsRed (Repair1 n)) eqn:E2; simpl; auto.
    destruct (LeftChildIsRed (lchild (Repair1 n))); auto.
Qed.

(** Shape facts. *)

Lemma LLRB_red_children h t :
  LLRB h t -> IsRed t = true ->
  IsRed (lchild t) = false /\ IsRed (rchild t) = false.
Proof.
  intros H Hred. destruct H; simpl in *.
  - discriminate.
  - auto.
  - rewrite IsRed_mk in Hred. congruence.
Qed.

Lemma LLRB_right_black h t : LLRB h t -> IsRed (rchild t) = false.
Proof. intros H. destruct H; simpl; auto. Qed.

Lemma LLRB_no_red_red h t :
  LLRB h t -> IsRed (lchild t) && IsRed (lchild (lchild t)) = false.
Proof.
  intros H. destruct H as [|e l r f h Hf Hl Hr Ll Lr|e l r f h Hf Hr Ll Lr]; simpl.
  - reflexivity.
  - rewrite Hl. reflexivity.
  - destruct (IsRed l) eqn:E; [|reflexivity].
    destruct (LLRB_red_children _ _ Ll E) as [-> _]. reflexivity.
Qed.

Lemma LLRB_red_left h t : LLRB h t -> IsRed t && IsRed (lchild t) = false.
Proof.
  intros H. destruct (IsRed t) eqn:E; [|reflexivity].
  destruct (LLRB_red_children _ _ H E) as [-> _]. reflexivity.
Qed.

Lemma LLRB_Repair_id h t : LLRB h t -> Repair t = t.
Proof.
  intros H. apply Repair_skip.
  - eapply LLRB_right_black; eauto.
  - eapply LLRB_no_red_red; eauto.
Qed.

Lemma LLRB_Almost h e l r f : LLRB h (mkNode e l r f) -> AlmostLLRB h (mkNode e l r f).
Proof.
  intros H. inversion H; subst.
  - apply Almost_red; assumption.
  - apply Almost_black; assumption.
Qed.

Lemma LLRB_SetBlack_red h t :
  LLRB h t -> IsRed t = true -> LLRB (S h) (SetBlack t).
Proof.
  intros H Hred. destruct H; simpl in *.
  - discriminate.
  - apply LLRB_black; auto. apply FlagFacts.IsRed_SetBlack.
  - rewrite IsRed_mk in Hred. congruence.
Qed.

Lemma LLRB_flags h e l r f f' :
  Flags.IsRed f' = Flags.IsRed f ->
  LLRB h (mkNode e l r f) -> LLRB h (mkNode e l r f').
Proof.
  intros E H. inversion H; subst.
  - apply LLRB_red; auto. congruence.
  - apply LLRB_black; auto. congruence.
Qed.

(** Repair after the recursive call went left, below a black node. *)
Lemma Repair_left_black h e l' r f :
  Flags.IsRed f = false -> AlmostLLRB h l' -> LLRB h r -> IsRed r = false ->
  LLRB (S h) (Repair (mkNode e l' r f)).
Proof.
  intros Hf Hl' Lr Hr.
  destruct Hl' as [le ll lr lf h Hlf Hlr Lll Llr | le ll lr lf h Hlf Hlr Lll Llr].
  - destruct (IsRed ll) eqn:Ell.
    + unfold Repair.
      rewrite Repair1_skip by (simpl; rewrite Hr; reflexivity).
      rewrite Repair2_rotate by assumption.
      rewrite Hf.
      rewrite Repair3_flip
        by (auto; rewrite IsRed_mk; apply FlagFacts.IsRed_SetRed).
      apply LLRB_red.
      * apply FlagFacts.IsRed_SetRed.
      * apply IsRed_SetBlack_node.
      * apply IsRed_SetBlack_node.
      * apply LLRB_SetBlack_red; assumption.
      * simpl. apply LLRB_black; auto. apply FlagFacts.IsRed_SetBlack.
    + rewrite Repair_skip.
      * apply LLRB_black; auto. apply LLRB_red; auto.
      * assumption.
      * simpl. rewrite Ell. apply andb_false_r.
  - rewrite Repair_skip.
    + apply LLRB_black; auto. apply LLRB_black; auto.
    + assumption.
    + simpl. rewrite IsRed_mk, Hlf. reflexivity.
Qed.

(** Repair after the recursive call went right, below a black node. *)
Lemma Repair_right_black h e l r' f :
  Flags.IsRed f = false -> LLRB h l -> LLRB h r' ->
  LLRB (S h) (Repair (mkNode e l r' f)).
Proof.
  intros Hf Ll Lr'.
  destruct (IsRed r') eqn:Er'.
  - destruct (LLRB_red_children _ _ Lr' Er') as [Hpl Hpr].
    destruct Lr' as [|pe pl pr pf h Hpf _ _ Lpl Lpr|pe pl pr pf h Hpf _ Lpl Lpr];
      try discriminate; [|rewrite IsRed_mk in Er'; congruence].
    simpl in Hpl, Hpr.
    destruct (IsRed l) eqn:El.
    + unfold Repair.
      rewrite Repair1_skip by (simpl; rewrite El; apply andb_false_r).
      rewrite Repair2_skip by (simpl; eapply LLRB_red_left; eauto).
      rewrite Repair3_flip by auto.
      apply LLRB_red.
      * apply FlagFacts.IsRed_SetRed.
      * apply IsRed_SetBlack_node.
      * apply IsRed_SetBlack_node.
      * apply LLRB_SetBlack_red; assumption.
      * simpl. apply LLRB_black; auto. apply FlagFacts.IsRed_SetBlack.
    + unfold Repair.
      rewrite Repair1_rotate by assumption. rewrite Hf.
      rewrite Repair2_skip by (simpl; rewrite El; apply andb_false_r).
      rewrite Repair3_skip by (simpl; rewrite Hpr; apply andb_false_r).
      apply LLRB_black; auto.
      * apply FlagFacts.IsRed_SetBlack.
      * apply LLRB_red; auto. apply FlagFacts.IsRed_SetRed.
  - rewrite Repair_skip.
    + apply LLRB_black; auto.
    + assumption.
    + simpl. eapply LLRB_red_left; eauto.
Qed.

(** Repair below a red node: only a left rotation can happen, and the
    result may keep a red left child under the red root. *)
Lemma Repair_left_red h e l' r f :
  Flags.IsRed f = true -> LLRB h l' -> LLRB h r -> IsRed r = false ->
  AlmostLLRB h (Repair (mkNode e l' r f)).
Proof.
  intros Hf Ll' Lr Hr.
  rewrite Repair_skip.
  - apply Almost_red; auto.
  - assumption.
  - simpl. eapply LLRB_red_left; eauto.
Qed.

Lemma Repair_right_red h e l r' f :
  Flags.IsRed f = true -> LLRB h l -> IsRed l = false -> LLRB h r' ->
  AlmostLLRB h (Repair (mkNode e l r' f)).
Proof.
  intros Hf Ll Hl Lr'.
  destruct (IsRed r') eqn:Er'.
  - destruct (LLRB_red_children _ _ Lr' Er') as [Hpl Hpr].
    destruct Lr' as [|pe pl pr pf h Hpf _ _ Lpl Lpr|pe pl pr pf h Hpf _ Lpl Lpr];
      try discriminate; [|rewrite IsRed_mk in Er'; congruence].
    simpl in Hpl, Hpr.
    unfold Repair.
    rewrite Repair1_rotate by assumption. rewrite Hf.
    rewrite Repair2_skip by (simpl; rewrite Hl; apply andb_false_r).
    rewrite Repair3_skip by (simpl; rewrite Hpr; apply andb_false_r).
    apply Almost_red; auto.
    + apply FlagFacts.IsRed_SetRed.
    + apply LLRB_red; auto. apply FlagFacts.IsRed_SetRed.
  - rewrite Repair_skip.
    + apply Almost_red; auto.
    + assumption.
    + simpl. rewrite Hl. reflexivity.
Qed.

(** [RGet] keeps the black height; below a non-red root it returns a
    proper shape, below a red root an almost proper one. *)
Lemma RGet_LLRB k h t :
  LLRB h t ->
  AlmostLLRB h (fst (RGet t k))
  /\ (IsRed t = false -> LLRB h (fst (RGet t k))).
Proof.
  induction 1 as [|e l r f h Hf Hl Hr Ll IHl Lr IHr|e l r f h Hf Hr Ll IHl Lr IHr].
  - simpl. split; [apply Almost_red | intros _; apply LLRB_red];
      auto using LLRB_null.
  - split; [|rewrite IsRed_mk; congruence].
    simpl.
    destruct (pred_ k (key_ e)); [|destruct (pred_ (key_ e) k)].
    + destruct (RGet l k) as [l' loc]. simpl in *.
      apply Repair_left_red; auto. apply IHl; assumption.
    + destruct (RGet r k) as [r' loc]. simpl in *.
      apply Repair_right_red; auto. apply IHr; assumption.
    + simpl. rewrite Repair_skip.
      * apply Almost_red; auto. rewrite FlagFacts.IsRed_SetAlive; assumption.
      * assumption.
      * simpl. rewrite Hl. reflexivity.
  - assert (G : LLRB (S h) (fst (RGet (mkNode e l r f) k))).
    { simpl.
      destruct (pred_ k (key_ e)); [|destruct (pred_ (key_ e) k)].
      + destruct (RGet l k) as [l' loc]. simpl in *.
        apply Repair_left_black; auto. apply IHl.
      + destruct (RGet r k) as [r' loc]. simpl in *.
        apply Repair_right_black; auto. apply IHr; assumption.
      + simpl. rewrite Repair_skip.
        * apply LLRB_black; auto. rewrite FlagFacts.IsRed_SetAlive; assumption.
        * assumption.
        * simpl. eapply LLRB_red_left; eauto. }
    split; [|intros _; exact G].
    destruct (fst (RGet (mkNode e l r f) k)) eqn:E.
    + inversion G.
    + apply LLRB_Almost; assumption.
Qed.

End ColourFacts.

(** ** The comparator and ascending lists *)

Section OrderFacts.

Context {K D : Type} {P : Predicate K} {DC : DefaultConstructible D}.
Context {SWO : StrictWeakOrdering K}.
Implicit Types (n t l r : Node K D) (e : Entry K D) (k : K) (d : D) (f : Z).
Implicit Types (x y : Item K D) (xs ys : list (Item K D)).

Lemma pred_asym a b : pred_ a b = true -> pred_ b a = false.
Proof.
  intros H. destruct (pred_ b a) eqn:E; [|reflexivity].
  rewrite <- (pred_irrefl a). symmetry. eapply pred_trans; eauto.
Qed.

Lemma equiv_sym a b : equiv_ a b = equiv_ b a.
Proof. unfold equiv_. apply andb_comm. Qed.

Lemma equiv_intro a b : pred_ a b = false -> pred_ b a = false -> equiv_ a b = true.
Proof. unfold equiv_. intros -> ->. reflexivity. Qed.

(** A key equivalent to a smaller key is smaller. *)
Lemma equiv_pred k a b :
  pred_ k a = false -> pred_ a k = false -> pred_ a b = true ->
  pred_ k b = true.
Proof.
  intros H1 H2 Hab.
  destruct (pred_ k b) eqn:E; [reflexivity|].
  destruct (pred_ b k) eqn:E'.
  - rewrite (pred_trans _ _ _ Hab E') in H2. discriminate.
  - assert (Hq : equiv_ a b = true).
    { apply (equiv_trans a k b); [rewrite equiv_sym|]; apply equiv_intro; auto. }
    unfold equiv_ in Hq. rewrite Hab in Hq. discriminate.
Qed.

Lemma pred_equiv k a b :
  pred_ k a = false -> pred_ a k = false -> pred_ b a = true ->
  pred_ b k = true.
Proof.
  intros H1 H2 Hba.
  destruct (pred_ b k) eqn:E; [reflexivity|].
  destruct (pred_ k b) eqn:E'.
  - rewrite (pred_trans _ _ _ E' Hba) in H1. discriminate.
  - assert (Hq : equiv_ b a = true).
    { apply (equiv_trans b k a); apply equiv_intro; auto. }
    unfold equiv_ in Hq. rewrite Hba in Hq. discriminate.
Qed.

(** *** Ascending lists *)

Lemma Ascending_app xs ys :
  Ascending (xs ++ ys) <->
  Ascending xs /\ Ascending ys
  /\ Forall (fun x => Forall (fun y => pred_ (item_key x) (item_key y) = true) ys) xs.
Proof.
  induction xs as [|a xs IH]; simpl.
  - intuition.
  - rewrite Forall_app, IH. split.
    + intros [[H1 H2] [H3 [H4 H5]]]. repeat split; auto.
    + intros [[H1 H2] [H3 H4]]. inversion H4; subst. repeat split; auto.
Qed.

Lemma Ascending_mid xs x ys :
  Ascending (xs ++ x :: ys) ->
  Ascending xs /\ Ascending ys
  /\ Forall (fun a => pred_ (item_key a) (item_key x) = true) xs
  /\ Forall (fun b => pred_ (item_key x) (item_key b) = true) ys.
Proof.
  rewrite Ascending_app. simpl. intros [H1 [[H2 H3] H4]].
  repeat split; auto.
  eapply Forall_impl; [|exact H4]. intros a Ha. inversion Ha; auto.
Qed.

Lemma Ascending_join xs x ys :
  Ascending xs -> Ascending ys ->
  Forall (fun a => pred_ (item_key a) (item_key x) = true) xs ->
  Forall (fun b => pred_ (item_key x) (item_key b) = true) ys ->
  Ascending (xs ++ x :: ys).
Proof.
  intros H1 H2 H3 H4. rewrite Ascending_app. simpl.
  split; [assumption|]. split; [split; assumption|].
  eapply Forall_impl; [|exact H3]. intros a Ha. constructor; [assumption|].
  eapply Forall_impl; [|exact H4]. intros b Hb. exact (pred_trans _ _ _ Ha Hb).
Qed.

(** *** Keyed update and search distribute over the in-order split *)

Lemma Upsert_mid k fresh upd xs x ys :
  Ascending (xs ++ x :: ys) ->
  Upsert k fresh upd (xs ++ x :: ys) =
    if pred_ k (item_key x) then Upsert k fresh upd xs ++ x :: ys
    else if pred_ (item_key x) k then xs ++ x :: Upsert k fresh upd ys
    else xs ++ upd x :: ys.
Proof.
  induction xs as [|a xs IH]; intros Hs.
  - simpl. destruct (pred_ k (item_key x)); reflexivity.
  - simpl in Hs. destruct Hs as [Ha Hs]. specialize (IH Hs).
    assert (Hax : pred_ (item_key a) (item_key x) = true).
    { rewrite Forall_app in Ha. destruct Ha as [_ Ha]. inversion Ha; auto. }
    simpl.
    destruct (pred_ k (item_key a)) eqn:E1.
    + rewrite (pred_trans _ _ _ E1 Hax). rewrite <- app_assoc. reflexivity.
    + destruct (pred_ (item_key a) k) eqn:E2.
      * rewrite IH.
        destruct (pred_ k (item_key x)); [reflexivity|].
        destruct (pred_ (item_key x) k); reflexivity.
      * rewrite (equiv_pred _ _ _ E1 E2 Hax). reflexivity.
Qed.

Lemma Find_mid k xs x ys :
  Ascending (xs ++ x :: ys) ->
  Find k (xs ++ x :: ys) =
    if pred_ k (item_key x) then Find k xs
    else if pred_ (item_key x) k then Find k ys
    else Some x.
Proof.
  induction xs as [|a xs IH]; intros Hs.
  - simpl. destruct (pred_ k (item_key x)); reflexivity.
  - simpl in Hs. destruct Hs as [Ha Hs]. specialize (IH Hs).
    assert (Hax : pred_ (item_key a) (item_key x) = true).
    { rewrite Forall_app in Ha. destruct Ha as [_ Ha]. inversion Ha; auto. }
    simpl.
    destruct (pred_ k (item_key a)) eqn:E1.
    + rewrite (pred_trans _ _ _ E1 Hax). reflexivity.
    + destruct (pred_ (item_key a) k) eqn:E2.
      * exact IH.
      * rewrite (equiv_pred _ _ _ E1 E2 Hax). reflexivity.
Qed.

Lemma Upsert_last k fresh upd xs :
  Forall (fun a => pred_ (item_key a) k = true) xs ->
  Upsert k fresh upd xs = xs ++ fresh.
Proof.
  induction 1 as [|a xs Ha _ IH]; simpl.
  - reflexivity.
  - rewrite (pred_asym _ _ Ha), Ha, IH. reflexivity.
Qed.

(** Keyed update keeps the list ascending. *)
Lemma Upsert_bound (Q : K -> bool) k fresh upd xs :
  Forall (fun a => Q (item_key a) = true) fresh ->
  (forall a, item_key (upd a) = item_key a) ->
  Forall (fun a => Q (item_key a) = true) xs ->
  Forall (fun a => Q (item_key a) = true) (Upsert k fresh upd xs).
Proof.
  intros Hf Hu. induction 1 as [|a xs Ha Hxs IH]; simpl.
  - assumption.
  - destruct (pred_ k (item_key a)); [|destruct (pred_ (item_key a) k)].
    + rewrite Forall_app. split; auto.
    + constructor; auto.
    + constructor; auto. rewrite Hu. assumption.
Qed.

Lemma Upsert_Ascending k fresh upd xs :
  (fresh = [] \/ exists x, fresh = [x] /\ item_key x = k) ->
  (forall a, item_key (upd a) = item_key a) ->
  Ascending xs -> Ascending (Upsert k fresh upd xs).
Proof.
  intros Hf Hu. induction xs as [|a xs IH]; intros Hs.
  - simpl. destruct Hf as [->|[x [-> _]]]; simpl; auto.
  - simpl in Hs. destruct Hs as [Ha Hs]. simpl.
    destruct (pred_ k (item_key a)) eqn:E1; [|destruct (pred_ (item_key a) k) eqn:E2].
    + destruct Hf as [->|[x [-> Hx]]]; simpl; [auto|].
      split; [|auto]. constructor; [rewrite Hx; assumption|].
      eapply Forall_impl; [|exact Ha]. intros b Hb. rewrite Hx.
      exact (pred_trans _ _ _ E1 Hb).
    + simpl. split; [|auto].
      apply (Upsert_bound (fun z => pred_ (item_key a) z)); auto.
      destruct Hf as [->|[x [-> Hx]]]; constructor; [rewrite Hx; assumption|constructor].
    + simpl. rewrite Hu. auto.
Qed.

End OrderFacts.

(** ** The tree as an ascending list *)

Section ItemsFacts.

Context {K D : Type} {P : Predicate K} {DC : DefaultConstructible D}.
Implicit Types (n t l r : Node K D) (e : Entry K D) (k : K) (d : D) (f : Z).

Lemma Items_SetBlack n : Items (SetBlack n) = Items n.
Proof. destruct n; simpl; [|rewrite FlagFacts.IsAlive_SetBlack]; reflexivity. Qed.

Lemma Items_RotateLeft n : Items (fst (RotateLeft n)) = Items n.
Proof.
  destruct n as [|e l [|pe pl pr pf] f]; try reflexivity.
  simpl. destruct (Flags.IsRed pf); [|reflexivity].
  simpl. rewrite FlagFacts.IsAlive_SetRed.
  destruct (Flags.IsRed f);
    rewrite ?FlagFacts.IsAlive_SetRed, ?FlagFacts.IsAlive_SetBlack;
    rewrite <- app_assoc; reflexivity.
Qed.

Lemma Items_RotateRight n : Items (fst (RotateRight n)) = Items n.
Proof.
  destruct n as [|e [|pe pl pr pf] r f]; try reflexivity.
  simpl. destruct (Flags.IsRed pf); [|reflexivity].
  simpl. rewrite FlagFacts.IsAlive_SetRed.
  destruct (Flags.IsRed f);
    rewrite ?FlagFacts.IsAlive_SetRed, ?FlagFacts.IsAlive_SetBlack;
    rewrite <- app_assoc; reflexivity.
Qed.

Lemma Items_FlipColors n : Items (FlipColors n) = Items n.
Proof.
  destruct n; simpl; [reflexivity|].
  rewrite !Items_SetBlack, FlagFacts.IsAlive_SetRed. reflexivity.
Qed.

Lemma Items_Repair n : Items (Repair n) = Items n.
Proof.
  unfold Repair, Repair3, Repair2, Repair1.
  repeat match goal with
         | |- context [if ?b then _ else _] => destruct b
         end;
    rewrite ?Items_FlipColors, ?Items_RotateRight, ?Items_RotateLeft;
    reflexivity.
Qed.

Context {SWO : StrictWeakOrdering K}.

Lemma Items_RGet k t :
  Ascending (Items t) ->
  Items (fst (RGet t k)) = Upsert k (fresh_get k) upd_get (Items t).
Proof.
  induction t as [|e l IHl r IHr f]; intros Hs.
  - reflexivity.
  - simpl in Hs. destruct (Ascending_mid _ _ _ Hs) as [Hl [Hr _]].
    simpl Items at 2. rewrite (Upsert_mid _ _ _ _ _ _ Hs).
    simpl RGet. unfold item_key at 1 2. simpl fst.
    destruct (pred_ k (key_ e)); [|destruct (pred_ (key_ e) k)].
    + specialize (IHl Hl). destruct (RGet l k) as [l' loc]. simpl in *.
      rewrite Items_Repair. simpl. rewrite IHl. reflexivity.
    + specialize (IHr Hr). destruct (RGet r k) as [r' loc]. simpl in *.
      rewrite Items_Repair. simpl. rewrite IHr. reflexivity.
    + simpl. rewrite Items_Repair. simpl.
      rewrite FlagFacts.IsAlive_SetAlive. reflexivity.
Qed.

Lemma Items_RInsert k d t :
  Ascending (Items t) ->
  Items (RInsert t k d) = Upsert k (fresh_ins k d) (upd_ins d) (Items t).
Proof.
  induction t as [|e l IHl r IHr f]; intros Hs.
  - reflexivity.
  - simpl in Hs. destruct (Ascending_mid _ _ _ Hs) as [Hl [Hr _]].
    simpl Items at 2. rewrite (Upsert_mid _ _ _ _ _ _ Hs).
    simpl RInsert. unfold item_key at 1 2. simpl fst.
    rewrite Items_Repair.
    destruct (pred_ k (key_ e)); [|destruct (pred_ (key_ e) k)]; simpl.
    + rewrite IHl by assumption. reflexivity.
    + rewrite IHr by assumption. reflexivity.
    + rewrite FlagFacts.IsAlive_SetAlive. reflexivity.
Qed.

Lemma Items_Erase k t :
  Ascending (Items t) ->
  Items (Erase_loop t k) = Upsert k [] upd_erase (Items t).
Proof.
  induction t as [|e l IHl r IHr f]; intros Hs.
  - reflexivity.
  - simpl in Hs. destruct (Ascending_mid _ _ _ Hs) as [Hl [Hr _]].
    simpl Items at 2. rewrite (Upsert_mid _ _ _ _ _ _ Hs).
    simpl Erase_loop. unfold item_key at 1 2. simpl fst.
    destruct (pred_ k (key_ e)); [|destruct (pred_ (key_ e) k)]; simpl.
    + rewrite IHl by assumption. reflexivity.
    + rewrite IHr by assumption. reflexivity.
    + rewrite FlagFacts.IsAlive_SetDead. reflexivity.
Qed.

Lemma FoundAt_Find k t :
  Ascending (Items t) ->
  Find k (Items t)
  = option_map (fun ef => (fst ef, Flags.IsAlive (snd ef))) (FoundAt t k).
Proof.
  induction t as [|e l IHl r IHr f]; intros Hs.
  - reflexivity.
  - simpl in Hs. destruct (Ascending_mid _ _ _ Hs) as [Hl [Hr _]].
    simpl Items. rewrite (Find_mid _ _ _ _ Hs).
    simpl FoundAt. unfold item_key at 1 2. simpl fst.
    destruct (pred_ k (key_ e)); [|destruct (pred_ (key_ e) k)]; auto.
Qed.

End ItemsFacts.

(** ** Assignment through the reference returned by [Get] *)

Section AssignFacts.

Context {K D : Type} {P : Predicate K} {DC : DefaultConstructible D}.
Implicit Types (n t l r : Node K D) (e : Entry K D) (k : K) (d : D) (f : Z).
Implicit Types (loc : Location).

(** Assignment through a position changes data only. *)

Lemma flags_AssignData n loc d : flags (AssignData n loc d) = flags n.
Proof. destruct n; [reflexivity|]. destruct loc as [|[|] ?]; reflexivity. Qed.

Lemma IsRed_AssignData n loc d : IsRed (AssignData n loc d) = IsRed n.
Proof. unfold IsRed. rewrite flags_AssignData. reflexivity. Qed.

Lemma AssignData_SetBlack n loc d :
  AssignData (SetBlack n) loc d = SetBlack (AssignData n loc d).
Proof. destruct n; [reflexivity|]. destruct loc as [|[|] ?]; reflexivity. Qed.

Lemma LeftChildIsRed_AssignData n loc d :
  LeftChildIsRed (AssignData n loc d) = LeftChildIsRed n.
Proof.
  rewrite !LeftChildIsRed_eq. destruct n; [reflexivity|].
  destruct loc as [|[|] ?]; simpl; rewrite ?IsRed_AssignData; reflexivity.
Qed.

Lemma RightChildIsRed_AssignData n loc d :
  RightChildIsRed (AssignData n loc d) = RightChildIsRed n.
Proof.
  rewrite !RightChildIsRed_eq. destruct n; [reflexivity|].
  destruct loc as [|[|] ?]; simpl; rewrite ?IsRed_AssignData; reflexivity.
Qed.

Lemma LeftLeftIsRed_AssignData n loc d :
  LeftChildIsRed (lchild (AssignData n loc d)) = LeftChildIsRed (lchild n).
Proof.
  destruct n; [reflexivity|].
  destruct loc as [|[|] ?]; simpl; rewrite ?LeftChildIsRed_AssignData; reflexivity.
Qed.

Lemma AssignData_RotateLeft n loc d :
  AssignData (fst (RotateLeft n)) (RotateLeft_loc n loc) d
  = fst (RotateLeft (AssignData n loc d)).
Proof.
  destruct n as [|e l [|pe pl pr pf] f].
  - reflexivity.
  - destruct loc as [|[|] ?]; reflexivity.
  - simpl. destruct (Flags.IsRed pf) eqn:E; simpl.
    + destruct loc as [|[|] [|[|] ?]]; simpl; rewrite ?E; reflexivity.
    + destruct loc as [|[|] [|[|] ?]]; simpl; rewrite ?E; reflexivity.
Qed.

Lemma AssignData_RotateRight n loc d :
  AssignData (fst (RotateRight n)) (RotateRight_loc n loc) d
  = fst (RotateRight (AssignData n loc d)).
Proof.
  destruct n as [|e [|pe pl pr pf] r f].
  - reflexivity.
  - destruct loc as [|[|] ?]; reflexivity.
  - simpl. destruct (Flags.IsRed pf) eqn:E; simpl.
    + destruct loc as [|[|] [|[|] ?]]; simpl; rewrite ?E; reflexivity.
    + destruct loc as [|[|] [|[|] ?]]; simpl; rewrite ?E; reflexivity.
Qed.

Lemma AssignData_FlipColors n loc d :
  AssignData (FlipColors n) loc d = FlipColors (AssignData n loc d).
Proof.
  destruct n; [reflexivity|].
  destruct loc as [|[|] ?]; simpl; rewrite ?AssignData_SetBlack; reflexivity.
Qed.

Lemma AssignData_Repair1 n loc d :
  AssignData (Repair1 n) (Repair1_loc n loc) d = Repair1 (AssignData n loc d).
Proof.
  unfold Repair1, Repair1_loc.
  rewrite RightChildIsRed_AssignData, LeftChildIsRed_AssignData.
  destruct (RightChildIsRed n && negb (LeftChildIsRed n)); [|reflexivity].
  apply AssignData_RotateLeft.
Qed.

Lemma AssignData_Repair2 n loc d :
  AssignData (Repair2 n) (Repair2_loc n loc) d = Repair2 (AssignData n loc d).
Proof.
  unfold Repair2, Repair2_loc.
  rewrite LeftLeftIsRed_AssignData, LeftChildIsRed_AssignData.
  destruct (LeftChildIsRed n && LeftChildIsRed (lchild n)); [|reflexivity].
  apply AssignData_RotateRight.
Qed.

Lemma AssignData_Repair3 n loc d :
  AssignData (Repair3 n) loc d = Repair3 (AssignData n loc d).
Proof.
  unfold Repair3.
  rewrite RightChildIsRed_AssignData, LeftChildIsRed_AssignData.
  destruct (LeftChildIsRed n && RightChildIsRed n); [|reflexivity].
  apply AssignData_FlipColors.
Qed.

Lemma AssignData_Repair n loc d :
  AssignData (Repair n) (Repair_loc n loc) d = Repair (AssignData n loc d).
Proof.
  unfold Repair, Repair_loc.
  rewrite AssignData_Repair3, AssignData_Repair2, AssignData_Repair1.
  reflexivity.
Qed.

(** [RInsert] is [RGet] followed by assignment through the location. *)
Lemma RInsert_RGet k d t :
  RInsert t k d = AssignData (fst (RGet t k)) (snd (RGet t k)) d.
Proof.
  induction t as [|e l IHl r IHr f].
  - reflexivity.
  - simpl.
    destruct (pred_ k (key_ e)); [|destruct (pred_ (key_ e) k)].
    + destruct (RGet l k) as [l' loc]. simpl in *.
      rewrite AssignData_Repair. simpl. rewrite IHl. reflexivity.
    + destruct (RGet r k) as [r' loc]. simpl in *.
      rewrite AssignData_Repair. simpl. rewrite IHr. reflexivity.
    + simpl. rewrite AssignData_Repair. reflexivity.
Qed.

Lemma Put_RInsert k d (m : Map_ADT K D) :
  Put k d m = mkMap (SetBlack (RInsert (root_ m) k d)).
Proof.
  unfold Put, Get. rewrite RInsert_RGet.
  destruct (RGet (root_ m) k) as [root loc]. simpl.
  rewrite AssignData_SetBlack. reflexivity.
Qed.

Lemma LLRB_AssignData h n : forall loc d, LLRB h n -> LLRB h (AssignData n loc d).
Proof.
  intros loc d H. revert loc.
  induction H as [|e l r f h Hf Hl Hr Ll IHl Lr IHr|e l r f h Hf Hr Ll IHl Lr IHr];
    intros loc.
  - apply LLRB_null.
  - destruct loc as [|[|] ?]; simpl; apply LLRB_red;
      rewrite ?IsRed_AssignData; auto.
  - destruct loc as [|[|] ?]; simpl; apply LLRB_black;
      rewrite ?IsRed_AssignData; auto.
Qed.

Lemma FlagsOK_AssignData n : forall loc d, FlagsOK (AssignData n loc d) = FlagsOK n.
Proof.
  induction n as [|e l IHl r IHr f]; intros loc d; [reflexivity|].
  destruct loc as [|[|] ?]; simpl; rewrite ?IHl, ?IHr; reflexivity.
Qed.

Lemma RInsert_LLRB k d h t :
  LLRB h t ->
  AlmostLLRB h (RInsert t k d)
  /\ (IsRed t = false -> LLRB h (RInsert t k d)).
Proof.
  intros H. rewrite RInsert_RGet.
  destruct (RGet_LLRB k h t H) as [Ha Hb]. split.
  - destruct Ha as [e l r f h Hf Hr Ll Lr|e l r f h Hf Hr Ll Lr];
      destruct (snd (RGet t k)) as [|[|] ?]; simpl;
      [apply Almost_red|apply Almost_red|apply Almost_red
      |apply Almost_black|apply Almost_black|apply Almost_black];
      rewrite ?IsRed_AssignData; auto using LLRB_AssignData.
  - intros Hb'. apply LLRB_AssignData. auto.
Qed.

Lemma RClone_id n : RClone n = n.
Proof.
  induction n as [|[k d] l IHl r IHr f]; simpl; [reflexivity|].
  rewrite IHl, IHr. reflexivity.
Qed.

(** *** Flag bytes stay within the four flag states *)

Lemma FlagsOK_mk e l r f :
  FlagsOK (mkNode e l r f) = true <->
  Flags.four f /\ FlagsOK l = true /\ FlagsOK r = true.
Proof.
  simpl. unfold Flags.four.
  rewrite !andb_true_iff, Z.leb_le, Z.ltb_lt. tauto.
Qed.

Lemma FlagsOK_SetBlack n : FlagsOK n = true -> FlagsOK (SetBlack n) = true.
Proof.
  destruct n; [auto|]. simpl SetBlack. rewrite !FlagsOK_mk.
  intros [H1 H2]. auto using FlagFacts.four_SetBlack.
Qed.

Lemma four_recolour f pf :
  Flags.four pf ->
  Flags.four (if Flags.IsRed f then Flags.SetRed pf else Flags.SetBlack pf).
Proof.
  destruct (Flags.IsRed f);
    auto using FlagFacts.four_SetRed, FlagFacts.four_SetBlack.
Qed.

Lemma FlagsOK_RotateLeft n : FlagsOK n = true -> FlagsOK (fst (RotateLeft n)) = true.
Proof.
  destruct n as [|e l [|pe pl pr pf] f]; auto.
  simpl RotateLeft. destruct (Flags.IsRed pf); simpl fst; auto.
  rewrite !FlagsOK_mk. intros [H1 [H2 [H3 [H4 H5]]]].
  auto 10 using FlagFacts.four_SetRed, four_recolour.
Qed.

Lemma FlagsOK_RotateRight n : FlagsOK n = true -> FlagsOK (fst (RotateRight n)) = true.
Proof.
  destruct n as [|e [|pe pl pr pf] r f]; auto.
  simpl RotateRight. destruct (Flags.IsRed pf); simpl fst; auto.
  rewrite !FlagsOK_mk. intros [H1 [[H3 [H4 H5]] H2]].
  auto 10 using FlagFacts.four_SetRed, four_recolour.
Qed.

Lemma FlagsOK_FlipColors n : FlagsOK n = true -> FlagsOK (FlipColors n) = true.
Proof.
  destruct n; auto. simpl FlipColors. rewrite !FlagsOK_mk.
  intros [H1 [H2 H3]].
  auto using FlagFacts.four_SetRed, FlagsOK_SetBlack.
Qed.

Lemma FlagsOK_Repair n : FlagsOK n = true -> FlagsOK (Repair n) = true.
Proof.
  intros H. unfold Repair, Repair3, Repair2, Repair1.
  repeat match goal with
         | |- context [if ?b then _ else _] => destruct b
         end;
    auto using FlagsOK_FlipColors, FlagsOK_RotateRight, FlagsOK_RotateLeft.
Qed.

Lemma FlagsOK_RGet k t : FlagsOK t = true -> FlagsOK (fst (RGet t k)) = true.
Proof.
  induction t as [|e l IHl r IHr f]; intros H.
  - reflexivity.
  - apply FlagsOK_mk in H. destruct H as [H1 [H2 H3]]. simpl.
    destruct (pred_ k (key_ e)); [|destruct (pred_ (key_ e) k)].
    + specialize (IHl H2). destruct (RGet l k) as [l' loc]. simpl in *.
      apply FlagsOK_Repair, FlagsOK_mk. auto.
    + specialize (IHr H3). destruct (RGet r k) as [r' loc]. simpl in *.
      apply FlagsOK_Repair, FlagsOK_mk. auto.
    + simpl. apply FlagsOK_Repair, FlagsOK_mk.
      auto using FlagFacts.four_SetAlive.
Qed.

Lemma FlagsOK_RInsert k d t : FlagsOK t = true -> FlagsOK (RInsert t k d) = true.
Proof.
  intros H. rewrite RInsert_RGet, FlagsOK_AssignData. apply FlagsOK_RGet, H.
Qed.

Lemma FlagsOK_Erase k t : FlagsOK t = true -> FlagsOK (Erase_loop t k) = true.
Proof.
  induction t as [|e l IHl r IHr f]; intros H; [reflexivity|].
  apply FlagsOK_mk in H. destruct H as [H1 [H2 H3]]. simpl.
  destruct (pred_ k (key_ e)); [|destruct (pred_ (key_ e) k)];
    apply FlagsOK_mk; auto using FlagFacts.four_SetDead.
Qed.

Lemma IsRed_Erase k t : IsRed (Erase_loop t k) = IsRed t.
Proof.
  destruct t as [|e l r f]; [reflexivity|]. simpl.
  destruct (pred_ k (key_ e)); [|destruct (pred_ (key_ e) k)]; try reflexivity.
  rewrite !IsRed_mk. apply FlagFacts.IsRed_SetDead.
Qed.

Lemma LLRB_Erase k h t : LLRB h t -> LLRB h (Erase_loop t k).
Proof.
  induction 1 as [|e l r f h Hf Hl Hr Ll IHl Lr IHr|e l r f h Hf Hr Ll IHl Lr IHr].
  - apply LLRB_null.
  - simpl. destruct (pred_ k (key_ e)); [|destruct (pred_ (key_ e) k)];
      apply LLRB_red; rewrite ?IsRed_Erase, ?FlagFacts.IsRed_SetDead; auto.
  - simpl. destruct (pred_ k (key_ e)); [|destruct (pred_ (key_ e) k)];
      apply LLRB_black; rewrite ?IsRed_Erase, ?FlagFacts.IsRed_SetDead; auto.
Qed.

Lemma Almost_SetBlack h t : AlmostLLRB h t -> exists h', LLRB h' (SetBlack t).
Proof.
  intros [e l r f h' Hf Hr Ll Lr|e l r f h' Hf Hr Ll Lr]; exists (S h'); simpl;
    apply LLRB_black; auto using FlagFacts.IsRed_SetBlack.
Qed.

End AssignFacts.

(** ** The in-order iterator *)

Section IteratorFacts.

Context {K D : Type}.
Implicit Types (n t l r : Node K D) (e : Entry K D) (f : Z).
Implicit Types (i j : Iterator K D) (ns : list (Node K D)).

Lemma Items_Inorder n : Items n = ItemsOf (Inorder n).
Proof.
  unfold ItemsOf. induction n as [|e l IHl r IHr f]; simpl; [reflexivity|].
  rewrite flat_map_app. simpl. rewrite IHl, IHr. reflexivity.
Qed.

Lemma NodeCount_Inorder n : NodeCount n = length (Inorder n).
Proof.
  induction n as [|e l IHl r IHr f]; simpl; [reflexivity|].
  rewrite length_app. simpl. lia.
Qed.

Lemma Remaining_Pending i : Remaining i = length (Pending i).
Proof.
  induction i as [|n i IH]; simpl; [reflexivity|].
  rewrite length_app, NodeCount_Inorder, IH. reflexivity.
Qed.

Lemma Pending_PushLeftChain n : forall i,
  Pending (PushLeftChain n i) = Inorder n ++ Pending i.
Proof.
  induction n as [|e l IHl r IHr f]; intros i; simpl; [reflexivity|].
  rewrite IHl. simpl. rewrite <- app_assoc. reflexivity.
Qed.

Lemma Pending_sIncrement i : Pending (sIncrement i) = tl (Pending i).
Proof. destruct i as [|n i]; simpl; [reflexivity|]. apply Pending_PushLeftChain. Qed.

Lemma NoNull_PushLeftChain n : forall i, NoNull i -> NoNull (PushLeftChain n i).
Proof.
  induction n as [|e l IHl r IHr f]; intros i H; simpl; [assumption|].
  apply IHl. constructor; [discriminate|assumption].
Qed.

Lemma NoNull_sIncrement i : NoNull i -> NoNull (sIncrement i).
Proof.
  destruct i as [|n i]; simpl; [auto|]. intros H. inversion H; subst.
  apply NoNull_PushLeftChain. assumption.
Qed.

Lemma NoNull_SkipDead fuel : forall i, NoNull i -> NoNull (SkipDead fuel i).
Proof.
  induction fuel as [|fuel IH]; intros [|n i] H; simpl; auto.
  - destruct (IsDead n); assumption.
  - destruct (IsDead n); [|assumption]. apply IH. exact (NoNull_sIncrement _ H).
Qed.

Lemma SkipDead_spec fuel : forall i,
  (length (Pending i) <= fuel)%nat ->
  Pending (SkipDead fuel i) = DropDead (Pending i) /\ TopAlive (SkipDead fuel i).
Proof.
  induction fuel as [|fuel IH]; intros [|n i] Hlen; simpl in *; auto.
  - lia.
  - destruct (IsDead n) eqn:E; [|simpl; rewrite E; auto].
    rewrite <- Pending_PushLeftChain.
    apply (IH (PushLeftChain (rchild n) i)).
    rewrite Pending_PushLeftChain. lia.
Qed.

Lemma Live_DropDead ns : Live (ItemsOf (DropDead ns)) = Live (ItemsOf ns).
Proof.
  induction ns as [|n ns IH]; simpl; [reflexivity|].
  destruct (IsDead n) eqn:E; [|reflexivity].
  rewrite IH. destruct n as [|e l r f]; [reflexivity|].
  unfold Live. simpl. unfold IsDead in E. simpl in E.
  unfold Flags.IsAlive. rewrite E. reflexivity.
Qed.

Lemma length_DropDead ns : (length (DropDead ns) <= length ns)%nat.
Proof.
  induction ns as [|n ns IH]; simpl; [lia|].
  destruct (IsDead n); simpl; lia.
Qed.

Lemma Good_Init n : Good (Init n).
Proof.
  unfold Init. split.
  - apply NoNull_SkipDead, NoNull_PushLeftChain. constructor.
  - apply SkipDead_spec. rewrite Remaining_Pending. lia.
Qed.

Lemma Live_Init n : Live (ItemsOf (Pending (Init n))) = LiveEntries n.
Proof.
  unfold Init, LiveEntries.
  destruct (SkipDead_spec (Remaining (sInit n)) (sInit n)) as [-> _].
  - rewrite Remaining_Pending. lia.
  - rewrite Live_DropDead. unfold sInit. rewrite Pending_PushLeftChain.
    simpl. rewrite app_nil_r, Items_Inorder. reflexivity.
Qed.

(** One step of any loop over a live iterator. *)
Lemma Good_step i :
  Good i ->
  (i = [] /\ Live (ItemsOf (Pending i)) = [])
  \/ (exists e l r f rest,
        i = mkNode e l r f :: rest
        /\ Live (ItemsOf (Pending i)) = e :: Live (ItemsOf (Pending (Increment i)))
        /\ Good (Increment i)
        /\ (Remaining (Increment i) < Remaining i)%nat).
Proof.
  intros [Hn Ht]. destruct i as [|n rest]; [left; auto|right].
  inversion Hn as [|? ? Hne Hrest]; subst.
  destruct n as [|e l r f]; [congruence|].
  exists e, l, r, f, rest. split; [reflexivity|].
  unfold Increment.
  destruct (SkipDead_spec (Remaining (sIncrement (mkNode e l r f :: rest)))
              (sIncrement (mkNode e l r f :: rest))) as [Hp Ha].
  { rewrite Remaining_Pending. lia. }
  split; [|split].
  - rewrite Hp, Live_DropDead, Pending_sIncrement.
    simpl in Ht. unfold IsDead in Ht. simpl in Ht.
    simpl. unfold Live. simpl. unfold Flags.IsAlive. rewrite Ht. reflexivity.
  - split; [|exact Ha].
    apply NoNull_SkipDead, NoNull_sIncrement, Hn.
  - rewrite (Remaining_Pending (SkipDead _ _)), Hp.
    rewrite (Remaining_Pending (_ :: _)).
    pose proof (length_DropDead (Pending (sIncrement (mkNode e l r f :: rest)))) as Hd.
    rewrite Pending_sIncrement in Hd |- *. simpl in Hd |- *. lia.
Qed.

Lemma Drain_spec fuel : forall i,
  Good i -> (Remaining i <= fuel)%nat ->
  Drain fuel i = Live (ItemsOf (Pending i)).
Proof.
  induction fuel as [|fuel IH]; intros i Hg Hlen;
    destruct (Good_step i Hg) as [[-> ->]|(e & l & r & f & rest & -> & -> & Hg' & Hlt)];
    try reflexivity.
  - simpl in Hlen. lia.
  - change (e :: Drain fuel (Increment (mkNode e l r f :: rest))
            = e :: Live (ItemsOf (Pending (Increment (mkNode e l r f :: rest))))).
    rewrite IH; [reflexivity|assumption|lia].
Qed.

Lemma Traverse_LiveEntries (m : Map_ADT K D) : Traverse m = LiveEntries (root_ m).
Proof.
  unfold Traverse, Begin. rewrite Drain_spec.
  - apply Live_Init.
  - apply Good_Init.
  - lia.
Qed.

Context {P : Predicate K} {DC : DefaultConstructible D}.

Lemma Rehash_loop_spec fuel : forall i newRoot,
  Good i -> (Remaining i <= fuel)%nat ->
  Rehash_loop fuel i newRoot
  = fold_left Rehash_step (Live (ItemsOf (Pending i))) newRoot.
Proof.
  induction fuel as [|fuel IH]; intros i newRoot Hg Hlen;
    destruct (Good_step i Hg) as [[-> ->]|(e & l & r & f & rest & -> & -> & Hg' & Hlt)];
    try reflexivity.
  - simpl in Hlen. lia.
  - simpl fold_left. rewrite <- IH; [reflexivity|assumption|lia].
Qed.

Lemma Rehash_fold (m : Map_ADT K D) :
  root_ (Rehash m) = fold_left Rehash_step (LiveEntries (root_ m)) nullptr.
Proof.
  unfold Rehash, Begin. simpl. rewrite Rehash_loop_spec.
  - rewrite Live_Init. reflexivity.
  - apply Good_Init.
  - lia.
Qed.

Context {NEK : NotEqual K} {NED : NotEqual D} {NEQ : NotEqualDecides K D}.

Lemma Equal_loop_spec fuel : forall i j,
  Good i -> Good j -> (Remaining i <= fuel)%nat ->
  Equal_loop fuel i j = true
  <-> Live (ItemsOf (Pending i)) = Live (ItemsOf (Pending j)).
Proof.
  induction fuel as [|fuel IH]; intros i j Hi Hj Hlen;
    destruct (Good_step i Hi) as [[-> ->]|(e & l & r & f & rest & -> & -> & Hi' & Hlti)];
    destruct (Good_step j Hj) as [[-> ->]|(e' & l' & r' & f' & rest' & -> & -> & Hj' & Hltj)];
    simpl Equal_loop;
    try (split; [reflexivity | reflexivity]);
    try (split; [discriminate | discriminate]);
    try (simpl in Hlen; lia).
  destruct (neq (key_ e) (key_ e')) eqn:Ek; simpl orb.
  - split; [discriminate|]. intros [= H _].
    rewrite H in Ek. destruct (proj2 (neq_key (key_ e') (key_ e')) eq_refl).
    congruence.
  - destruct (neq (data_ e) (data_ e')) eqn:Ed.
    + split; [discriminate|]. intros [= H _].
      rewrite H in Ed. destruct (proj2 (neq_data (data_ e') (data_ e')) eq_refl).
      congruence.
    + apply neq_key in Ek. apply neq_data in Ed.
      assert (e = e') as <- by (destruct e, e'; simpl in *; congruence).
      rewrite IH; [|assumption|assumption|lia].
      split; [intros ->; reflexivity|intros [= H]; exact H].
Qed.

Lemma Equal_spec (m1 m2 : Map_ADT K D) :
  Equal m1 m2 = true <-> LiveEntries (root_ m1) = LiveEntries (root_ m2).
Proof.
  unfold Equal, Begin. rewrite Equal_loop_spec.
  - rewrite !Live_Init. reflexivity.
  - apply Good_Init.
  - apply Good_Init.
  - lia.
Qed.

End IteratorFacts.

(** ** What the public operations maintain *)

Section SoundFacts.

Context {K D : Type} {P : Predicate K} {DC : DefaultConstructible D}.
Context {SWO : StrictWeakOrdering K}.
Implicit Types (n t l r : Node K D) (e : Entry K D) (k : K) (d : D) (f : Z).
Implicit Types (m : Map_ADT K D).

Lemma item_key_upd_get (a : Item K D) : item_key (upd_get a) = item_key a.
Proof. reflexivity. Qed.
Lemma item_key_upd_ins d (a : Item K D) : item_key (upd_ins d a) = item_key a.
Proof. reflexivity. Qed.
Lemma item_key_upd_erase (a : Item K D) : item_key (upd_erase a) = item_key a.
Proof. reflexivity. Qed.

Lemma Sound_new : Sound (@Map_ADT_new K D).
Proof.
  repeat split; simpl; auto. exists O. apply LLRB_null.
Qed.

Lemma Sound_Get k m : Sound m -> Sound (fst (Get k m)).
Proof.
  intros (Ha & [h Hh] & Hr & Hf). unfold Get.
  pose proof (Items_RGet k _ Ha) as HI.
  pose proof (RGet_LLRB k h _ Hh) as [HL _].
  pose proof (FlagsOK_RGet k _ Hf) as HF.
  destruct (RGet (root_ m) k) as [root loc]. simpl in *.
  split; [|split; [|split]]; simpl.
  - rewrite Items_SetBlack, HI. apply Upsert_Ascending; auto.
    right. eexists. split; reflexivity.
  - eapply Almost_SetBlack; eauto.
  - apply IsRed_SetBlack_node.
  - apply FlagsOK_SetBlack, HF.
Qed.

Lemma Sound_Rehash_step t e : Sound (mkMap t) -> Sound (mkMap (Rehash_step t e)).
Proof.
  intros (Ha & [h Hh] & Hr & Hf). unfold Rehash_step. simpl in *.
  split; [|split; [|split]]; simpl.
  - rewrite Items_SetBlack, Items_RInsert by assumption.
    apply Upsert_Ascending; auto.
    right. eexists. split; reflexivity.
  - destruct (RInsert_LLRB (key_ e) (data_ e) h t Hh) as [HL _].
    eapply Almost_SetBlack; eauto.
  - apply IsRed_SetBlack_node.
  - apply FlagsOK_SetBlack, FlagsOK_RInsert, Hf.
Qed.

Lemma Sound_Put k d m : Sound m -> Sound (Put k d m).
Proof.
  intros H. rewrite Put_RInsert. destruct m as [t].
  exact (Sound_Rehash_step t (mkEntry k d) H).
Qed.

Lemma Sound_Erase k m : Sound m -> Sound (Erase k m).
Proof.
  intros (Ha & [h Hh] & Hr & Hf). unfold Erase.
  split; [|split; [|split]]; simpl.
  - rewrite Items_Erase by assumption. apply Upsert_Ascending; auto.
  - exists h. apply LLRB_Erase, Hh.
  - rewrite IsRed_Erase. assumption.
  - apply FlagsOK_Erase, Hf.
Qed.

Lemma Sound_fold (es : list (Entry K D)) : forall t,
  Sound (mkMap t) -> Sound (mkMap (fold_left Rehash_step es t)).
Proof.
  induction es as [|e es IH]; intros t H; simpl; [assumption|].
  apply IH, Sound_Rehash_step, H.
Qed.

Lemma Sound_Rehash m : Sound (Rehash m).
Proof.
  assert (H : Rehash m = mkMap (root_ (Rehash m))) by reflexivity.
  rewrite H, Rehash_fold. apply Sound_fold, Sound_new.
Qed.

Lemma Sound_CopyConstruct m : Sound m -> Sound (CopyConstruct m).
Proof. unfold CopyConstruct. rewrite RClone_id. destruct m; auto. Qed.

Lemma Sound_AssignFrom m that : Sound that -> Sound (AssignFrom m that).
Proof. unfold AssignFrom. rewrite RClone_id. destruct that; auto. Qed.

Lemma Reachable_Sound m : Reachable m -> Sound m.
Proof.
  induction 1.
  - apply Sound_new.
  - apply Sound_Get; assumption.
  - apply Sound_Put; assumption.
  - apply Sound_Put; assumption.
  - apply Sound_Erase; assumption.
  - apply Sound_new.
  - apply Sound_Rehash.
  - apply Sound_CopyConstruct; assumption.
  - apply Sound_AssignFrom; assumption.
Qed.

(** *** From the proof form to the stated invariants *)

Lemma AllKeys_Items (Q : K -> bool) t :
  Forall (fun x => Q (item_key x) = true) (Items t) -> AllKeys Q t = true.
Proof.
  induction t as [|e l IHl r IHr f]; simpl; intros H; [reflexivity|].
  rewrite Forall_app in H. destruct H as [Hl Hr]. inversion Hr; subst.
  rewrite IHl, IHr by assumption.
  unfold item_key in *. simpl in *. rewrite H1. reflexivity.
Qed.

Lemma Ascending_IsBST t : Ascending (Items t) -> IsBST t = true.
Proof.
  induction t as [|e l IHl r IHr f]; simpl; intros H; [reflexivity|].
  destruct (Ascending_mid _ _ _ H) as (Hl & Hr & Hlt & Hgt).
  rewrite IHl, IHr by assumption.
  rewrite (AllKeys_Items (fun k => pred_ k (key_ e))) by exact Hlt.
  rewrite (AllKeys_Items (fun k => pred_ (key_ e) k)) by exact Hgt.
  reflexivity.
Qed.

Lemma LLRB_LeftLeaning h t : LLRB h t -> LeftLeaning t = true.
Proof.
  induction 1 as [|e l r f h Hf Hl Hr Ll IHl Lr IHr|e l r f h Hf Hr Ll IHl Lr IHr];
    simpl; [reflexivity| |];
    rewrite IHl, IHr, RightChildIsRed_eq; simpl; rewrite Hr; reflexivity.
Qed.

Lemma LLRB_NoRedRedLeft h t : LLRB h t -> NoRedRedLeft t = true.
Proof.
  induction 1 as [|e l r f h Hf Hl Hr Ll IHl Lr IHr|e l r f h Hf Hr Ll IHl Lr IHr];
    simpl; [reflexivity| |];
    rewrite IHl, IHr, !LeftChildIsRed_eq; simpl;
    rewrite (LLRB_red_left _ _ Ll); reflexivity.
Qed.

Lemma LLRB_BlackHeight h t : LLRB h t -> BlackHeight t = Some (Z.of_nat h).
Proof.
  induction 1 as [|e l r f h Hf Hl Hr Ll IHl Lr IHr|e l r f h Hf Hr Ll IHl Lr IHr];
    simpl; [reflexivity| |];
    rewrite IHl, IHr, Z.eqb_refl; unfold Flags.IsBlack; rewrite Hf; simpl;
    f_equal; lia.
Qed.

Lemma Sound_Invariants m : Sound m -> Invariants m = true.
Proof.
  intros (Ha & [h Hh] & Hr & Hf). unfold Invariants.
  rewrite (Ascending_IsBST _ Ha), (LLRB_LeftLeaning _ _ Hh),
    (LLRB_NoRedRedLeft _ _ Hh).
  unfold BlackBalanced. rewrite (LLRB_BlackHeight _ _ Hh).
  unfold RootIsBlack, IsBlack. rewrite Hr. destruct (root_ m); reflexivity.
Qed.

(** *** The balance bound *)

Lemma RHeight_mk e l r f :
  RHeight (mkNode e l r f)
  = if RHeight l <? RHeight r then 1 + RHeight r else 1 + RHeight l.
Proof. reflexivity. Qed.

Lemma RNumNodes_mk e l r f :
  RNumNodes (mkNode e l r f) = 1 + RNumNodes l + RNumNodes r.
Proof. reflexivity. Qed.

Lemma LLRB_height h t :
  LLRB h t ->
  RHeight t + 1 <= 2 * Z.of_nat h + Z.b2z (IsRed t)
  /\ 2 ^ Z.of_nat h <= RNumNodes t + 1.
Proof.
  induction 1 as [|e l r f h Hf Hl Hr Ll [IHl1 IHl2] Lr [IHr1 IHr2]
                  |e l r f h Hf Hr Ll [IHl1 IHl2] Lr [IHr1 IHr2]].
  - split; [reflexivity|]. cbn. lia.
  - rewrite IsRed_mk, Hf, RHeight_mk, RNumNodes_mk.
    rewrite Hl in IHl1. rewrite Hr in IHr1.
    change (Z.b2z true) with 1. change (Z.b2z false) with 0 in *.
    destruct (RHeight l <? RHeight r) eqn:E; split; lia.
  - rewrite IsRed_mk, Hf, RHeight_mk, RNumNodes_mk.
    rewrite Hr in IHr1.
    rewrite Nat2Z.inj_succ, Z.pow_succ_r by lia.
    change (Z.b2z false) with 0 in *.
    assert (Hb : Z.b2z (IsRed l) <= 1) by (destruct (IsRed l); cbn; lia).
    destruct (RHeight l <? RHeight r) eqn:E; split; lia.
Qed.

Lemma RNumNodes_nonneg t : 0 <= RNumNodes t.
Proof. induction t; [reflexivity|rewrite RNumNodes_mk; lia]. Qed.

Lemma Sound_height m :
  Sound m ->
  Height m <= 2 * Z.log2 (NumNodes m + 1)
  /\ 2 ^ Height m <= (NumNodes m + 1) ^ 2.
Proof.
  intros (Ha & [h Hh] & Hr & Hf). unfold Height, NumNodes.
  destruct (LLRB_height _ _ Hh) as [H1 H2]. rewrite Hr in H1.
  change (Z.b2z false) with 0 in H1.
  pose proof (RNumNodes_nonneg (root_ m)) as Hn.
  assert (Hlog : Z.of_nat h <= Z.log2 (RNumNodes (root_ m) + 1)).
  { apply Z.log2_le_pow2; lia. }
  split; [lia|].
  destruct (Z.lt_ge_cases (RHeight (root_ m)) 0) as [Hneg|Hpos].
  - rewrite Z.pow_neg_r by assumption. apply Z.pow_nonneg. lia.
  - apply Z.le_trans with (2 ^ (2 * Z.of_nat h)).
    + apply Z.pow_le_mono_r; lia.
    + rewrite Z.pow_mul_r by lia.
      replace (2 ^ 2) with 4 by reflexivity.
      replace (4 ^ Z.of_nat h) with ((2 ^ Z.of_nat h) ^ 2).
      * apply Z.pow_le_mono_l. split; [apply Z.pow_nonneg; lia|assumption].
      * rewrite <- Z.pow_mul_r by lia. rewrite Z.mul_comm, Z.pow_mul_r by lia.
        reflexivity.
Qed.

End SoundFacts.

(** ** Rehash *)

Section RehashFacts.

Context {K D : Type} {P : Predicate K} {DC : DefaultConstructible D}.
Context {SWO : StrictWeakOrdering K}.
Implicit Types (n t l r : Node K D) (e : Entry K D) (k : K) (d : D) (f : Z).
Implicit Types (m : Map_ADT K D) (xs : list (Item K D)).

Lemma map_alive_Live xs : map alive (Live xs) = filter snd xs.
Proof.
  unfold Live. induction xs as [|[e [|]] xs IH]; simpl; [reflexivity| |assumption].
  rewrite IH. reflexivity.
Qed.

Lemma Live_map_alive (es : list (Entry K D)) : Live (map alive es) = es.
Proof.
  unfold Live. induction es as [|e es IH]; simpl; [reflexivity|].
  rewrite IH. reflexivity.
Qed.

Lemma Live_app xs ys : Live (xs ++ ys) = Live xs ++ Live ys.
Proof. unfold Live. rewrite filter_app, map_app. reflexivity. Qed.

Lemma Live_In e xs : In e (Live xs) <-> In (e, true) xs.
Proof.
  unfold Live. rewrite in_map_iff. split.
  - intros [[e' b] [He Hin]]. apply filter_In in Hin. simpl in *.
    destruct Hin as [Hin Hb]. subst. assumption.
  - intros Hin. exists (e, true). split; [reflexivity|].
    apply filter_In. auto.
Qed.

Lemma Ascending_filter (p : Item K D -> bool) xs :
  Ascending xs -> Ascending (filter p xs).
Proof.
  induction xs as [|x xs IH]; simpl; [auto|]. intros [H1 H2].
  destruct (p x); simpl; auto. split; auto.
  apply Forall_forall. intros y Hy. apply filter_In in Hy.
  rewrite Forall_forall in H1. apply H1, Hy.
Qed.

Lemma RNumNodes_Items t : RNumNodes t = Z.of_nat (length (Items t)).
Proof.
  induction t as [|e l IHl r IHr f]; [reflexivity|].
  rewrite RNumNodes_mk, IHl, IHr. simpl Items. rewrite length_app. simpl length. lia.
Qed.

Lemma RSize_mk e l r f :
  RSize (mkNode e l r f) = Z.b2z (Flags.IsAlive f) + RSize l + RSize r.
Proof. reflexivity. Qed.

Lemma RSize_Items t : RSize t = Z.of_nat (length (Live (Items t))).
Proof.
  induction t as [|e l IHl r IHr f]; [reflexivity|].
  rewrite RSize_mk, IHl, IHr. simpl Items.
  change ((e, Flags.IsAlive f) :: Items r) with ([(e, Flags.IsAlive f)] ++ Items r).
  rewrite !Live_app, !length_app.
  destruct (Flags.IsAlive f); cbn [Live filter map snd fst length app Z.b2z]; lia.
Qed.

Lemma Items_fold (es : list (Entry K D)) : forall t,
  Sound (mkMap t) -> Ascending (Items t ++ map alive es) ->
  Items (fold_left Rehash_step es t) = Items t ++ map alive es.
Proof.
  induction es as [|e es IH]; intros t Hs Ha; simpl.
  - rewrite app_nil_r. reflexivity.
  - assert (Hstep : Items (Rehash_step t e) = Items t ++ [alive e]).
    { unfold Rehash_step. rewrite Items_SetBlack.
      rewrite Items_RInsert by apply Hs.
      rewrite Upsert_last; [destruct e; reflexivity|].
      simpl in Ha. apply Ascending_mid in Ha. apply Ha. }
    rewrite IH.
    + rewrite Hstep, <- app_assoc. reflexivity.
    + apply Sound_Rehash_step, Hs.
    + rewrite Hstep, <- app_assoc. exact Ha.
Qed.

(** [Rehash] keeps exactly the live items, in order. *)
Lemma Items_Rehash m :
  Sound m -> Items (root_ (Rehash m)) = filter snd (Items (root_ m)).
Proof.
  intros Hs. rewrite Rehash_fold, Items_fold.
  - simpl. apply map_alive_Live.
  - apply Sound_new.
  - simpl. unfold LiveEntries. rewrite map_alive_Live.
    apply Ascending_filter, Hs.
Qed.

Lemma filter_idem (p : Item K D -> bool) xs : filter p (filter p xs) = filter p xs.
Proof.
  induction xs as [|x xs IH]; simpl; [reflexivity|].
  destruct (p x) eqn:E; simpl; rewrite ?E, IH; reflexivity.
Qed.

Lemma Rehash_spec m :
  Sound m ->
  NumNodes (Rehash m) = Size (Rehash m)
  /\ NumNodes (Rehash m) = Size m
  /\ LiveEntries (root_ (Rehash m)) = LiveEntries (root_ m).
Proof.
  intros Hs. unfold NumNodes, Size, LiveEntries.
  rewrite !RSize_Items, RNumNodes_Items, Items_Rehash by assumption.
  unfold Live. rewrite filter_idem, !length_map. auto.
Qed.

(** With no live entry the rebuilt tree is empty. *)
Lemma Live_nil_Size m : Size m = 0 -> LiveEntries (root_ m) = [].
Proof.
  unfold Size, LiveEntries. rewrite RSize_Items.
  destruct (Live (Items (root_ m))); [reflexivity|simpl; lia].
Qed.

Lemma RRelease_count t :
  RRelease t + (match t with nullptr => 0 | _ => 1 end) = RNumNodes t.
Proof.
  induction t as [|e l IHl r IHr f]; [reflexivity|].
  rewrite RNumNodes_mk. cbn [RRelease].
  destruct l, r; rewrite ?RNumNodes_mk in *; cbn [RNumNodes] in *; lia.
Qed.

End RehashFacts.

(** ** Lookup and update in place *)

Section LookupFacts.

Context {K D : Type} {P : Predicate K} {DC : DefaultConstructible D}.
Implicit Types (n t l r : Node K D) (e : Entry K D) (k : K) (d : D) (f : Z).
Implicit Types (m : Map_ADT K D) (x : Item K D) (xs : list (Item K D)).

(** [Includes] reaches the node [FoundAt] names. *)
Lemma Includes_loop_FoundAt k n : forall stk,
  Includes_loop n k stk =
    match FoundAt n k with
    | Some (e, f) =>
        if Flags.IsAlive f
        then match Includes_loop n k stk with
             | mkNode e' _ _ _ :: _ => Includes_loop n k stk
             | _ => []
             end
        else []
    | None => []
    end
  /\ (forall e f, FoundAt n k = Some (e, f) -> Flags.IsAlive f = true ->
      exists l r rest, Includes_loop n k stk = mkNode e l r f :: rest).
Proof.
  induction n as [|e l IHl r IHr f]; intros stk; simpl.
  - split; [reflexivity|discriminate].
  - destruct (pred_ k (key_ e)); [apply IHl|].
    destruct (pred_ (key_ e) k); [apply IHr|].
    unfold IsAlive, IsDead, Flags.IsAlive. simpl.
    destruct (Flags.IsDead f) eqn:E; simpl; split; try reflexivity.
    + intros e' f' [= <- <-]. rewrite E. discriminate.
    + intros e' f' [= <- <-] _. eauto.
Qed.

Lemma Retrieve_FoundAt k d m :
  Retrieve k d m =
    match FoundAt (root_ m) k with
    | Some (e, f) => if Flags.IsAlive f then (true, data_ e) else (false, d)
    | None => (false, d)
    end.
Proof.
  unfold Retrieve, Includes.
  destruct (Includes_loop_FoundAt k (root_ m) []) as [H1 H2].
  destruct (FoundAt (root_ m) k) as [[e f]|].
  - destruct (Flags.IsAlive f) eqn:E.
    + destruct (H2 e f eq_refl E) as (l & r & rest & ->). reflexivity.
    + rewrite H1. reflexivity.
  - rewrite H1. reflexivity.
Qed.

Context {SWO : StrictWeakOrdering K}.

Lemma Retrieve_Find k d m :
  Sound m ->
  Retrieve k d m =
    match Find k (Items (root_ m)) with
    | Some (e, true) => (true, data_ e)
    | _ => (false, d)
    end.
Proof.
  intros Hs. rewrite Retrieve_FoundAt, FoundAt_Find by apply Hs.
  destruct (FoundAt (root_ m) k) as [[e f]|]; reflexivity.
Qed.

(** In an ascending list [Find] returns the one item with an equivalent
    key. *)
Lemma Find_Some xs : forall k x,
  Ascending xs ->
  (Find k xs = Some x <-> In x xs /\ equiv_ k (item_key x) = true).
Proof.
  induction xs as [|a xs IH]; intros k x Ha; simpl.
  - split; [discriminate|tauto].
  - destruct Ha as [Ha1 Ha2]. rewrite Forall_forall in Ha1.
    unfold equiv_.
    destruct (pred_ k (item_key a)) eqn:E1; [|destruct (pred_ (item_key a) k) eqn:E2].
    + split; [discriminate|]. intros [[<-|Hin] Hq].
      * rewrite E1 in Hq. discriminate.
      * rewrite (pred_trans _ _ _ E1 (Ha1 _ Hin)) in Hq. discriminate.
    + rewrite (IH k x Ha2). unfold equiv_. split.
      * intros [H1 H2]. auto.
      * intros [[<-|Hin] Hq]; [|auto].
        rewrite E2, andb_false_r in Hq. discriminate.
    + split.
      * intros [= <-]. rewrite E1, E2. auto.
      * intros [[<-|Hin] Hq]; [reflexivity|].
        rewrite (equiv_pred _ _ _ E1 E2 (Ha1 _ Hin)) in Hq. discriminate.
Qed.

(** What [Find] sees after a keyed update with a fresh item. *)
Lemma Find_Upsert k x0 upd xs :
  item_key x0 = k -> (forall a, item_key (upd a) = item_key a) ->
  exists x, Find k (Upsert k [x0] upd xs) = Some x
            /\ (x = x0 \/ exists a, x = upd a).
Proof.
  intros Hk Hu. induction xs as [|a xs IH]; simpl.
  - rewrite Hk, pred_irrefl. eauto.
  - destruct (pred_ k (item_key a)) eqn:E1; [|destruct (pred_ (item_key a) k) eqn:E2].
    + simpl. rewrite Hk, pred_irrefl. eauto.
    + simpl. rewrite E1, E2. exact IH.
    + simpl. rewrite Hu, E1, E2. eauto.
Qed.

(** *** Update in place *)

Lemma Erase_UpdateAt k t :
  Erase_loop t k = UpdateAt (fun e f => (e, Flags.SetDead f)) t k.
Proof.
  induction t as [|e l IHl r IHr f]; simpl; [reflexivity|].
  rewrite IHl, IHr. reflexivity.
Qed.

Lemma IsRed_UpdateAt g k t :
  (forall e f, Flags.IsRed (snd (g e f)) = Flags.IsRed f) ->
  IsRed (UpdateAt g t k) = IsRed t.
Proof.
  intros Hg. destruct t as [|e l r f]; [reflexivity|]. simpl.
  destruct (pred_ k (key_ e)); [|destruct (pred_ (key_ e) k)]; try reflexivity.
  specialize (Hg e f). destruct (g e f) as [e' f']. exact Hg.
Qed.

Lemma LLRB_UpdateAt g k h t :
  (forall e f, Flags.IsRed (snd (g e f)) = Flags.IsRed f) ->
  LLRB h t -> LLRB h (UpdateAt g t k).
Proof.
  intros Hg.
  induction 1 as [|e l r f h Hf Hl Hr Ll IHl Lr IHr|e l r f h Hf Hr Ll IHl Lr IHr].
  - apply LLRB_null.
  - simpl. destruct (pred_ k (key_ e)); [|destruct (pred_ (key_ e) k)].
    + apply LLRB_red; rewrite ?IsRed_UpdateAt; auto.
    + apply LLRB_red; rewrite ?IsRed_UpdateAt; auto.
    + specialize (Hg e f). destruct (g e f) as [e' f'].
      apply LLRB_red; auto. simpl in Hg. congruence.
  - simpl. destruct (pred_ k (key_ e)); [|destruct (pred_ (key_ e) k)].
    + apply LLRB_black; rewrite ?IsRed_UpdateAt; auto.
    + apply LLRB_black; rewrite ?IsRed_UpdateAt; auto.
    + specialize (Hg e f). destruct (g e f) as [e' f'].
      apply LLRB_black; auto. simpl in Hg. congruence.
Qed.

(** On a key that is present, in a tree of proper shape, [RInsert] makes
    no structural change. *)
Lemma RInsert_present k d h t :
  LLRB h t -> FoundAt t k <> None ->
  RInsert t k d
  = UpdateAt (fun e f => (mkEntry (key_ e) d, Flags.SetAlive f)) t k.
Proof.
  intros HL. induction HL as [|e l r f h Hf Hl Hr Ll IHl Lr IHr|e l r f h Hf Hr Ll IHl Lr IHr];
    intros Hfound.
  - simpl in Hfound. congruence.
  - simpl in *.
    destruct (pred_ k (key_ e)); [|destruct (pred_ (key_ e) k)].
    + rewrite IHl by assumption.
      apply (LLRB_Repair_id h). apply LLRB_red; auto.
      * rewrite IsRed_UpdateAt; [assumption|intros; apply FlagFacts.IsRed_SetAlive].
      * apply LLRB_UpdateAt; [intros; apply FlagFacts.IsRed_SetAlive|assumption].
    + rewrite IHr by assumption.
      apply (LLRB_Repair_id h). apply LLRB_red; auto.
      * rewrite IsRed_UpdateAt; [assumption|intros; apply FlagFacts.IsRed_SetAlive].
      * apply LLRB_UpdateAt; [intros; apply FlagFacts.IsRed_SetAlive|assumption].
    + apply (LLRB_Repair_id h). apply LLRB_red; auto.
      rewrite FlagFacts.IsRed_SetAlive. assumption.
  - simpl in *.
    destruct (pred_ k (key_ e)); [|destruct (pred_ (key_ e) k)].
    + rewrite IHl by assumption.
      apply (LLRB_Repair_id (S h)). apply LLRB_black; auto.
      apply LLRB_UpdateAt; [intros; apply FlagFacts.IsRed_SetAlive|assumption].
    + rewrite IHr by assumption.
      apply (LLRB_Repair_id (S h)). apply LLRB_black; auto.
      * rewrite IsRed_UpdateAt; [assumption|intros; apply FlagFacts.IsRed_SetAlive].
      * apply LLRB_UpdateAt; [intros; apply FlagFacts.IsRed_SetAlive|assumption].
    + apply (LLRB_Repair_id (S h)). apply LLRB_black; auto.
      rewrite FlagFacts.IsRed_SetAlive. assumption.
Qed.

Lemma FoundAt_UpdateAt g k t :
  (forall e f, key_ (fst (g e f)) = key_ e) ->
  FoundAt (UpdateAt g t k) k
  = option_map (fun ef => g (fst ef) (snd ef)) (FoundAt t k).
Proof.
  intros Hg. induction t as [|e l IHl r IHr f]; simpl; [reflexivity|].
  destruct (pred_ k (key_ e)) eqn:E1; [|destruct (pred_ (key_ e) k) eqn:E2].
  - simpl. rewrite E1. exact IHl.
  - simpl. rewrite E1, E2. exact IHr.
  - cbn [option_map fst snd].
    specialize (Hg e f). destruct (g e f) as [e' f'] eqn:Eg. simpl in *.
    rewrite Hg, E1, E2. reflexivity.
Qed.

Lemma UpdateAt_compose g1 g2 k t :
  (forall e f, key_ (fst (g1 e f)) = key_ e) ->
  UpdateAt g2 (UpdateAt g1 t k) k
  = UpdateAt (fun e f => g2 (fst (g1 e f)) (snd (g1 e f))) t k.
Proof.
  intros Hg. induction t as [|e l IHl r IHr f]; simpl; [reflexivity|].
  destruct (pred_ k (key_ e)) eqn:E1; [|destruct (pred_ (key_ e) k) eqn:E2].
  - simpl. rewrite E1, IHl. reflexivity.
  - simpl. rewrite E1, E2, IHr. reflexivity.
  - specialize (Hg e f). destruct (g1 e f) as [e' f'] eqn:Eg. simpl in *.
    rewrite Hg, E1, E2. reflexivity.
Qed.

Lemma UpdateAt_same g k t e f :
  FoundAt t k = Some (e, f) -> g e f = (e, f) -> UpdateAt g t k = t.
Proof.
  intros Hfound Hg. induction t as [|e0 l IHl r IHr f0]; simpl in *; [reflexivity|].
  destruct (pred_ k (key_ e0)); [|destruct (pred_ (key_ e0) k)].
  - rewrite IHl by assumption. reflexivity.
  - rewrite IHr by assumption. reflexivity.
  - injection Hfound as -> ->. rewrite Hg. reflexivity.
Qed.

Lemma FoundAt_four k t e f :
  FlagsOK t = true -> FoundAt t k = Some (e, f) -> Flags.four f.
Proof.
  induction t as [|e0 l IHl r IHr f0]; simpl FoundAt; [discriminate|].
  intros Hok. apply FlagsOK_mk in Hok. destruct Hok as (H1 & H2 & H3).
  destruct (pred_ k (key_ e0)); [|destruct (pred_ (key_ e0) k)]; auto.
  intros [= <- <-]. assumption.
Qed.

Lemma SetBlack_same t : IsRed t = false -> FlagsOK t = true -> SetBlack t = t.
Proof.
  destruct t as [|e l r f]; [reflexivity|]. rewrite IsRed_mk, FlagsOK_mk.
  intros Hr [Hf _]. simpl. rewrite FlagFacts.SetBlack_black; auto.
Qed.

Lemma RNumNodes_Erase k t : RNumNodes (Erase_loop t k) = RNumNodes t.
Proof.
  induction t as [|e l IHl r IHr f]; [reflexivity|]. simpl Erase_loop.
  destruct (pred_ k (key_ e)); [|destruct (pred_ (key_ e) k)];
    rewrite !RNumNodes_mk, ?IHl, ?IHr; reflexivity.
Qed.

(** After [Put(k,d)] the descent for [k] ends on a live node holding
    [d]. *)
Lemma FoundAt_Put k d m :
  Sound m ->
  exists e f, FoundAt (root_ (Put k d m)) k = Some (e, f)
              /\ data_ e = d /\ Flags.IsDead f = false.
Proof.
  intros Hs. pose proof (Sound_Put k d m Hs) as Hs'.
  pose proof (FoundAt_Find k (root_ (Put k d m)) (proj1 Hs')) as HF.
  rewrite Put_RInsert in HF |- *. simpl in HF |- *.
  rewrite Items_SetBlack, Items_RInsert in HF by apply Hs.
  destruct (Find_Upsert k (mkEntry k d, true) (upd_ins d) (Items (root_ m)))
    as (x & Hx & Hcase); [reflexivity|reflexivity|].
  pose proof (eq_trans (eq_sym Hx) HF) as HF'. clear HF Hx.
  destruct (FoundAt (SetBlack (RInsert (root_ m) k d)) k) as [[e f]|];
    [|discriminate].
  exists e, f. split; [reflexivity|].
  simpl in HF'. injection HF' as HF.
  assert (Hd : data_ (fst x) = d /\ snd x = true).
  { destruct Hcase as [->|[a ->]]; split; reflexivity. }
  rewrite HF in Hd. simpl in Hd. destruct Hd as [Hd1 Hd2]. split; [assumption|].
  unfold Flags.IsAlive in Hd2. destruct (Flags.IsDead f); [discriminate|reflexivity].
Qed.

(** [Put(k,d); Erase(k); Put(k,d)] ends in the state after the first
    [Put]. *)
Lemma Put_Erase_Put k d m :
  Sound m -> Put k d (Erase k (Put k d m)) = Put k d m.
Proof.
  intros Hs. pose proof (Sound_Put k d m Hs) as Hs1.
  destruct (FoundAt_Put k d m Hs) as (e & f & Hfound & Hd & Halive).
  destruct Hs1 as (Ha & [h Hh] & Hr & Hf).
  rewrite (Put_RInsert k d (Erase _ _)). unfold Erase. simpl.
  destruct (Put k d m) as [T]. simpl in *. f_equal.
  rewrite Erase_UpdateAt.
  rewrite (RInsert_present k d h).
  - rewrite UpdateAt_compose by reflexivity. simpl.
    rewrite (UpdateAt_same _ k T e f Hfound).
    + apply SetBlack_same; assumption.
    + rewrite FlagFacts.SetAlive_SetDead.
      * destruct e; simpl in *; subst; reflexivity.
      * eapply FoundAt_four; eauto.
      * assumption.
  - apply LLRB_UpdateAt; [intros; apply FlagFacts.IsRed_SetDead|assumption].
  - rewrite FoundAt_UpdateAt by reflexivity. rewrite Hfound. discriminate.
Qed.

Lemma Retrieve_Put k d d0 m : Sound m -> Retrieve k d0 (Put k d m) = (true, d).
Proof.
  intros Hs. destruct (FoundAt_Put k d m Hs) as (e & f & Hfound & Hd & Halive).
  rewrite Retrieve_FoundAt, Hfound. unfold Flags.IsAlive. rewrite Halive, Hd.
  reflexivity.
Qed.

Lemma Retrieve_Erase_Put k d d0 m :
  Sound m -> Retrieve k d0 (Erase k (Put k d m)) = (false, d0).
Proof.
  intros Hs. destruct (FoundAt_Put k d m Hs) as (e & f & Hfound & Hd & Halive).
  rewrite Retrieve_FoundAt. unfold Erase. simpl.
  rewrite Erase_UpdateAt, FoundAt_UpdateAt by reflexivity.
  rewrite Hfound. simpl. rewrite FlagFacts.IsAlive_SetDead. reflexivity.
Qed.

(** *** Ascending lists are determined by their elements *)

Lemma Ascending_ext xs : forall ys,
  Ascending xs -> Ascending ys ->
  (forall x, In x xs <-> In x ys) -> xs = ys.
Proof.
  induction xs as [|a xs IH]; intros [|b ys] Hx Hy Hin.
  - reflexivity.
  - destruct (proj2 (Hin b)); simpl; auto.
  - destruct (proj1 (Hin a)); simpl; auto.
  - destruct Hx as [Hx1 Hx2]. destruct Hy as [Hy1 Hy2].
    rewrite Forall_forall in Hx1, Hy1.
    assert (Hab : a = b).
    { destruct (proj1 (Hin a) (or_introl eq_refl)) as [Hb|Hb]; [auto|].
      destruct (proj2 (Hin b) (or_introl eq_refl)) as [Ha|Ha]; [auto|].
      pose proof (pred_asym _ _ (Hx1 _ Ha)) as Hc.
      rewrite (Hy1 _ Hb) in Hc. discriminate. }
    subst b. f_equal. apply IH; auto.
    intros x. split; intros Hi.
    + destruct (proj1 (Hin x) (or_intror Hi)) as [<-|]; [|assumption].
      pose proof (Hx1 _ Hi) as Hc. rewrite pred_irrefl in Hc. discriminate.
    + destruct (proj2 (Hin x) (or_intror Hi)) as [<-|]; [|assumption].
      pose proof (Hy1 _ Hi) as Hc. rewrite pred_irrefl in Hc. discriminate.
Qed.

Lemma LiveEntries_ext m1 m2 :
  Sound m1 -> Sound m2 ->
  (forall e, In e (LiveEntries (root_ m1)) <-> In e (LiveEntries (root_ m2))) ->
  LiveEntries (root_ m1) = LiveEntries (root_ m2).
Proof.
  intros H1 H2 Hin.
  rewrite <- (Live_map_alive (LiveEntries (root_ m1))).
  rewrite <- (Live_map_alive (LiveEntries (root_ m2))).
  f_equal. unfold LiveEntries. rewrite !map_alive_Live.
  apply Ascending_ext.
  - apply Ascending_filter, H1.
  - apply Ascending_filter, H2.
  - intros [e b]. rewrite !filter_In. simpl.
    destruct b; [|split; intros [_ Hb]; discriminate].
    unfold LiveEntries in Hin. specialize (Hin e). rewrite !Live_In in Hin.
    tauto.
Qed.

End LookupFacts.

(** ** Retrieve *)

Section RetrieveFacts.
Context {K D : Type} {P : Predicate K} {DC : DefaultConstructible D}.
Context {SWO : StrictWeakOrdering K}.
Implicit Types (m : Map_ADT K D) (xs : list (Item K D)).

Lemma Upsert_first k fresh upd xs :
  Forall (fun a => pred_ k (item_key a) = true) xs ->
  Upsert k fresh upd xs = fresh ++ xs.
Proof.
  destruct 1 as [|a xs Ha _]; simpl.
  - rewrite app_nil_r. reflexivity.
  - rewrite Ha. reflexivity.
Qed.

Lemma Items_Put k d m :
  Sound m ->
  Items (root_ (Put k d m)) = Upsert k (fresh_ins k d) (upd_ins d) (Items (root_ m)).
Proof.
  intros Hs. rewrite Put_RInsert. simpl.
  rewrite Items_SetBlack. apply Items_RInsert, Hs.
Qed.

Lemma Retrieve_HasLive k d m :
  Sound m ->
  (forall v, Retrieve k d m = (true, v) <-> HasLive m k v)
  /\ ((forall v, ~ HasLive m k v) <-> Retrieve k d m = (false, d)).
Proof.
  intros Hs. rewrite (Retrieve_Find k d m Hs).
  assert (Hfind : forall e, Find k (Items (root_ m)) = Some (e, true)
                            <-> In e (LiveEntries (root_ m))
                                /\ equiv_ k (key_ e) = true).
  { intros e. rewrite (Find_Some _ k (e, true) (proj1 Hs)).
    unfold LiveEntries. rewrite Live_In. reflexivity. }
  destruct (Find k (Items (root_ m))) as [[e [|]]|] eqn:E.
  - pose proof (proj1 (Hfind e) eq_refl) as [Hin Hq]. split.
    + intros v. split.
      * intros [= <-]. exists e. auto.
      * intros (e' & Hin' & Hq' & <-).
        pose proof (proj2 (Hfind e') (conj Hin' Hq')) as He. congruence.
    + split; [|discriminate].
      intros Hno. destruct (Hno (data_ e)). exists e. auto.
  - split.
    + intros v. split; [discriminate|].
      intros (e' & Hin' & Hq' & _).
      pose proof (proj2 (Hfind e') (conj Hin' Hq')) as He. discriminate.
    + split; [reflexivity|].
      intros _ v (e' & Hin' & Hq' & _).
      pose proof (proj2 (Hfind e') (conj Hin' Hq')) as He. discriminate.
  - split.
    + intros v. split; [discriminate|].
      intros (e' & Hin' & Hq' & _).
      pose proof (proj2 (Hfind e') (conj Hin' Hq')) as He. discriminate.
    + split; [reflexivity|].
      intros _ v (e' & Hin' & Hq' & _).
      pose proof (proj2 (Hfind e') (conj Hin' Hq')) as He. discriminate.
Qed.

End RetrieveFacts.

(** ** Integer keys *)

Module IntStringFacts.
Import IntString.

#[export] Instance LessThan_int_order : StrictWeakOrdering Z.
Proof.
  split; unfold equiv_, pred_, LessThan_int.
  - intros a. apply Z.ltb_irrefl.
  - intros a b c. rewrite !Z.ltb_lt. lia.
  - intros a b c. rewrite !andb_true_iff, !negb_true_iff, !Z.ltb_ge. lia.
Qed.

#[export] Instance int_string_neq : NotEqualDecides Z string.
Proof.
  split; unfold neq, int_neq, string_neq; intros a b;
    rewrite negb_false_iff.
  - apply Z.eqb_eq.
  - apply String.eqb_eq.
Qed.

Lemma Reachable_PutAll ks d : forall m : M, Reachable m -> Reachable (PutAll ks d m).
Proof.
  unfold PutAll. induction ks as [|k ks IH]; intros m H; simpl; [assumption|].
  apply IH. apply Reach_Put, H.
Qed.

Lemma upto_S n : upto (S n) = upto n ++ [Z.of_nat (S n)].
Proof. unfold upto. rewrite seq_S, map_app. reflexivity. Qed.

Lemma upto_bound n k : In k (upto n) -> 1 <= k <= Z.of_nat n.
Proof.
  unfold upto. rewrite in_map_iff. intros [x [<- Hx]].
  apply in_seq in Hx. lia.
Qed.

Lemma Items_ascending_puts d n :
  Items (root_ (PutAll (upto n) d fresh)) = map (put_item d) (upto n).
Proof.
  induction n as [|n IH]; [reflexivity|].
  rewrite upto_S. unfold PutAll in *. rewrite fold_left_app. simpl fold_left.
  rewrite Items_Put
    by (apply Reachable_Sound, (Reachable_PutAll (upto n) d fresh), Reach_new).
  rewrite IH, map_app. apply Upsert_last.
  apply Forall_forall. intros a Ha. apply in_map_iff in Ha.
  destruct Ha as [k [<- Hk]]. apply upto_bound in Hk.
  unfold item_key, pred_, LessThan_int. simpl. apply Z.ltb_lt. lia.
Qed.

Lemma Items_descending_puts d n : forall m : M,
  Reachable m ->
  Forall (fun a => Z.of_nat n < item_key a) (Items (root_ m)) ->
  Items (root_ (PutAll (rev (upto n)) d m))
  = map (put_item d) (upto n) ++ Items (root_ m).
Proof.
  induction n as [|n IH]; intros m Hr Hb; [reflexivity|].
  rewrite upto_S, rev_app_distr. unfold PutAll in *. simpl fold_left.
  rewrite IH.
  - rewrite Items_Put by apply Reachable_Sound, Hr.
    rewrite Upsert_first.
    + rewrite map_app, <- app_assoc. reflexivity.
    + eapply Forall_impl; [|exact Hb]. intros a Ha.
      unfold pred_, LessThan_int. apply Z.ltb_lt. exact Ha.
  - apply Reach_Put, Hr.
  - rewrite Items_Put by apply Reachable_Sound, Hr.
    rewrite Upsert_first.
    + constructor; [unfold item_key; simpl; lia|].
      eapply Forall_impl; [|exact Hb]. intros a Ha. simpl in Ha. lia.
    + eapply Forall_impl; [|exact Hb]. intros a Ha.
      unfold pred_, LessThan_int. apply Z.ltb_lt. exact Ha.
Qed.

Lemma length_upto n : length (upto n) = n.
Proof. unfold upto. rewrite length_map, length_seq. reflexivity. Qed.

Lemma NumNodes_ascending d n : NumNodes (PutAll (upto n) d fresh) = Z.of_nat n.
Proof.
  unfold NumNodes. rewrite RNumNodes_Items, Items_ascending_puts.
  rewrite length_map, length_upto. reflexivity.
Qed.

Lemma NumNodes_descending d n : NumNodes (PutAll (rev (upto n)) d fresh) = Z.of_nat n.
Proof.
  unfold NumNodes. rewrite RNumNodes_Items, Items_descending_puts.
  - rewrite length_app, length_map, length_upto. simpl. lia.
  - apply Reach_new.
  - constructor.
Qed.

End IntStringFacts.

(** ** Objects with their own comparator *)

Section ObjectFacts.

Context {K D : Type} {DC : DefaultConstructible D}.
Implicit Types (o this that : Object.obj K D).
Implicit Types (t : Node K D) (e : Entry K D) (k : K) (d : D).

Lemma Shaped_null : Object.Shaped (@nullptr K D).
Proof. repeat split. exists O. apply LLRB_null. Qed.

Lemma Shaped_Get (p : Predicate K) k t :
  Object.Shaped t -> Object.Shaped (root_ (fst (Get (P := p) k (mkMap t)))).
Proof.
  intros ([h Hh] & Hr & Hf). unfold Get. simpl.
  pose proof (RGet_LLRB (P := p) k h _ Hh) as [HL _].
  pose proof (FlagsOK_RGet (P := p) k _ Hf) as HF.
  destruct (RGet t k) as [rt loc]. simpl in *.
  split; [|split].
  - eapply Almost_SetBlack; eauto.
  - apply IsRed_SetBlack_node.
  - apply FlagsOK_SetBlack, HF.
Qed.

Lemma Shaped_step (p : Predicate K) t e :
  Object.Shaped t -> Object.Shaped (Rehash_step (P := p) t e).
Proof.
  intros ([h Hh] & Hr & Hf). unfold Rehash_step.
  split; [|split].
  - destruct (RInsert_LLRB (P := p) (key_ e) (data_ e) h t Hh) as [HL _].
    eapply Almost_SetBlack; eauto.
  - apply IsRed_SetBlack_node.
  - apply FlagsOK_SetBlack, FlagsOK_RInsert, Hf.
Qed.

Lemma Shaped_Put (p : Predicate K) k d t :
  Object.Shaped t -> Object.Shaped (root_ (Put (P := p) k d (mkMap t))).
Proof.
  intros H. rewrite Put_RInsert. exact (Shaped_step p t (mkEntry k d) H).
Qed.

Lemma Shaped_Erase (p : Predicate K) k t :
  Object.Shaped t -> Object.Shaped (Erase_loop (P := p) t k).
Proof.
  intros ([h Hh] & Hr & Hf). split; [|split].
  - exists h. apply LLRB_Erase, Hh.
  - rewrite IsRed_Erase. assumption.
  - apply FlagsOK_Erase, Hf.
Qed.

Lemma Shaped_fold (p : Predicate K) (es : list (Entry K D)) : forall t,
  Object.Shaped t -> Object.Shaped (fold_left (Rehash_step (P := p)) es t).
Proof.
  induction es as [|e es IH]; intros t H; simpl; [assumption|].
  apply IH, Shaped_step, H.
Qed.

Lemma Object_Reachable_Shaped o : Object.Reachable o -> Object.Shaped (Object.root_ o).
Proof.
  induction 1 as [p Hp|that H IH|this that H1 IH1 H2 IH2|k o H IH|k d o H IH
                 |k d o H IH|k o H IH|o H IH|o H IH].
  - apply Shaped_null.
  - simpl. rewrite RClone_id. exact IH.
  - simpl. rewrite RClone_id. exact IH2.
  - unfold Object.Get.
    pose proof (Shaped_Get (Object.pred_ o) k _ IH) as HS.
    unfold Object.tree.
    destruct (Get k (mkMap (Object.root_ o))) as [m loc]. exact HS.
  - exact (Shaped_Put (Object.pred_ o) k d _ IH).
  - exact (Shaped_Put (Object.pred_ o) k d _ IH).
  - exact (Shaped_Erase (Object.pred_ o) k _ IH).
  - apply Shaped_null.
  - unfold Object.Rehash, Object.with_tree. cbn [Object.root_].
    rewrite Rehash_fold. apply Shaped_fold, Shaped_null.
Qed.

Lemma Shaped_height t :
  Object.Shaped t ->
  RHeight t <= 2 * Z.log2 (RNumNodes t + 1)
  /\ 2 ^ RHeight t <= (RNumNodes t + 1) ^ 2.
Proof.
  intros ([h Hh] & Hr & Hf).
  destruct (LLRB_height _ _ Hh) as [H1 H2]. rewrite Hr in H1.
  change (Z.b2z false) with 0 in H1.
  pose proof (RNumNodes_nonneg t) as Hn.
  assert (Hlog : Z.of_nat h <= Z.log2 (RNumNodes t + 1)).
  { apply Z.log2_le_pow2; lia. }
  split; [lia|].
  destruct (Z.lt_ge_cases (RHeight t) 0) as [Hneg|Hpos].
  - rewrite Z.pow_neg_r by assumption. apply Z.pow_nonneg. lia.
  - apply Z.le_trans with (2 ^ (2 * Z.of_nat h)).
    + apply Z.pow_le_mono_r; lia.
    + rewrite Z.pow_mul_r by lia.
      replace (2 ^ 2) with 4 by reflexivity.
      replace (4 ^ Z.of_nat h) with ((2 ^ Z.of_nat h) ^ 2).
      * apply Z.pow_le_mono_l. split; [apply Z.pow_nonneg; lia|assumption].
      * rewrite <- Z.pow_mul_r by lia. rewrite Z.mul_comm, Z.pow_mul_r by lia.
        reflexivity.
Qed.

(** Whatever comparators were involved, an object public operations
    produce keeps the colour and balance invariants, a black root and the
    height bound; only the search-tree order depends on [pred_]. *)
Lemma Object_Reachable_balanced o :
  Object.Reachable o ->
  LeftLeaning (Object.root_ o) = true
  /\ NoRedRedLeft (Object.root_ o) = true
  /\ BlackBalanced (Object.root_ o) = true
  /\ RootIsBlack (Object.root_ o) = true
  /\ RHeight (Object.root_ o) <= 2 * Z.log2 (RNumNodes (Object.root_ o) + 1).
Proof.
  intros H. destruct (Object_Reachable_Shaped o H) as ([h Hh] & Hr & Hf).
  split; [exact (LLRB_LeftLeaning _ _ Hh)|].
  split; [exact (LLRB_NoRedRedLeft _ _ Hh)|].
  split; [unfold BlackBalanced; rewrite (LLRB_BlackHeight _ _ Hh); reflexivity|].
  split.
  - unfold RootIsBlack, IsBlack. rewrite Hr. destruct (Object.root_ o); reflexivity.
  - apply Shaped_height, Object_Reachable_Shaped, H.
Qed.

(** Assignment takes the tree of the source and keeps the comparator of
    the target; copy construction takes both from the source; assigning
    an object to itself changes nothing. *)
Lemma Object_Assign_members this that :
  Object.root_ (Object.Assign this that) = Object.root_ that
  /\ Object.pred_ (Object.Assign this that) = Object.pred_ this
  /\ Object.root_ (Object.Copy that) = Object.root_ that
  /\ Object.pred_ (Object.Copy that) = Object.pred_ that
  /\ Object.Assign this this = this.
Proof.
  unfold Object.Assign, Object.Copy, Object.with_tree, AssignFrom.
  cbn [Object.root_ Object.pred_ Object.tree root_]. rewrite !RClone_id.
  repeat split. destruct this; reflexivity.
Qed.

(** The states reached under one comparator are states of objects. *)
Lemma Reachable_Object (p : Predicate K) (m : Map_ADT K D) :
  StrictWeakOrdering K (P := p) ->
  Reachable (P := p) m -> Object.Reachable (Object.mkObj (root_ m) p).
Proof.
  intros Hp. induction 1 as [|k m H IH|k d m H IH|k d m H IH|k m H IH|m H IH
                            |m H IH|m H IH|m that H1 IH1 H2 IH2].
  - exact (Object.Made_New p Hp).
  - pose proof (Object.Made_Get k _ IH) as HG.
    unfold Object.Get, Object.tree in HG. cbn [Object.root_ Object.pred_] in HG.
    destruct m as [t]. cbn [root_] in *.
    destruct (Get k (mkMap t)) as [m' loc]. exact HG.
  - destruct m as [t]. exact (Object.Made_Put k d _ IH).
  - destruct m as [t]. exact (Object.Made_Insert k d _ IH).
  - destruct m as [t]. exact (Object.Made_Erase k _ IH).
  - exact (Object.Made_Clear _ IH).
  - destruct m as [t]. exact (Object.Made_Rehash _ IH).
  - exact (Object.Made_Copy _ IH).
  - exact (Object.Made_Assign _ _ IH1 IH2).
Qed.

End ObjectFacts.

(** *** Descents in trees that need not be ordered *)

Section SearchFacts.

Context {K D : Type} {P : Predicate K} {DC : DefaultConstructible D}.
Implicit Types (n t l r : Node K D) (e : Entry K D) (k : K) (d : D) (f : Z).

Lemma Seen_mk e l r f k :
  Seen (mkNode e l r f) k
  = if pred_ k (key_ e) then Seen l k
    else if pred_ (key_ e) k then Seen r k
    else Some (e, Flags.IsDead f).
Proof.
  unfold Seen. simpl.
  destruct (pred_ k (key_ e)); [|destruct (pred_ (key_ e) k)]; reflexivity.
Qed.

Lemma Seen_SetBlack t k : Seen (SetBlack t) k = Seen t k.
Proof.
  destruct t as [|e l r f]; [reflexivity|]. simpl SetBlack.
  rewrite !Seen_mk, FlagFacts.IsDead_SetBlack. reflexivity.
Qed.

Lemma Seen_FlipColors n k : Seen (FlipColors n) k = Seen n k.
Proof.
  destruct n as [|e l r f]; [reflexivity|]. simpl FlipColors.
  rewrite !Seen_mk, !Seen_SetBlack, FlagFacts.IsDead_SetRed. reflexivity.
Qed.

Lemma Seen_Repair3 n k : Seen (Repair3 n) k = Seen n k.
Proof.
  unfold Repair3. destruct (LeftChildIsRed n && RightChildIsRed n);
    [apply Seen_FlipColors|reflexivity].
Qed.

Lemma IsDead_recolour (c : bool) f :
  Flags.IsDead (if c then Flags.SetRed f else Flags.SetBlack f) = Flags.IsDead f.
Proof.
  destruct c; [apply FlagFacts.IsDead_SetRed|apply FlagFacts.IsDead_SetBlack].
Qed.

(** A rotation keeps the descent of a key that went towards the rotated
    child. *)
Lemma Seen_RotateRight e l r f k :
  pred_ k (key_ e) = true ->
  Seen (fst (RotateRight (mkNode e l r f))) k = Seen (mkNode e l r f) k.
Proof.
  intros Hk. destruct l as [|pe pl pr pf]; [reflexivity|]. simpl.
  destruct (Flags.IsRed pf); [|reflexivity]. simpl.
  rewrite !Seen_mk, Hk, IsDead_recolour.
  destruct (pred_ k (key_ pe)); [reflexivity|].
  destruct (pred_ (key_ pe) k); reflexivity.
Qed.

Lemma Seen_RotateLeft e l r f k :
  pred_ k (key_ e) = false -> pred_ (key_ e) k = true ->
  Seen (fst (RotateLeft (mkNode e l r f))) k = Seen (mkNode e l r f) k.
Proof.
  intros Hk Hk'. destruct r as [|pe pl pr pf]; [reflexivity|]. simpl.
  destruct (Flags.IsRed pf); [|reflexivity]. simpl.
  rewrite !Seen_mk, Hk, Hk', IsDead_recolour.
  destruct (pred_ k (key_ pe)); [reflexivity|].
  destruct (pred_ (key_ pe) k); reflexivity.
Qed.

(** The repair tail after a step to the left, and after a step to the
    right, below a node of a well-shaped tree. *)
Lemma Seen_Repair_left e l' r f k :
  pred_ k (key_ e) = true -> IsRed r = false ->
  Seen (Repair (mkNode e l' r f)) k = Seen l' k.
Proof.
  intros Hk Hr. unfold Repair. rewrite Seen_Repair3.
  assert (H1 : Repair1 (mkNode e l' r f) = mkNode e l' r f).
  { unfold Repair1. rewrite RightChildIsRed_eq. simpl. rewrite Hr. reflexivity. }
  rewrite H1. unfold Repair2.
  destruct (LeftChildIsRed (mkNode e l' r f)
            && LeftChildIsRed (lchild (mkNode e l' r f))).
  - rewrite Seen_RotateRight by exact Hk. rewrite Seen_mk, Hk. reflexivity.
  - rewrite Seen_mk, Hk. reflexivity.
Qed.

Lemma Seen_Repair_right h e l r' f k :
  pred_ k (key_ e) = false -> pred_ (key_ e) k = true -> LLRB h l ->
  Seen (Repair (mkNode e l r' f)) k = Seen r' k.
Proof.
  intros Hk Hk' Hl. unfold Repair. rewrite Seen_Repair3.
  assert (H2 : Repair2 (Repair1 (mkNode e l r' f)) = Repair1 (mkNode e l r' f)).
  { apply Repair2_skip.
    destruct (IsRed r' && negb (IsRed l)) eqn:E.
    - apply andb_true_iff in E. destruct E as [Er El].
      apply negb_true_iff in El.
      destruct r' as [|pe pl pr pf]; [discriminate Er|].
      rewrite IsRed_mk in Er. rewrite Repair1_rotate by assumption.
      cbn [lchild]. rewrite El. apply andb_false_r.
    - rewrite Repair1_skip by exact E. cbn [lchild].
      exact (LLRB_red_left _ _ Hl). }
  rewrite H2. unfold Repair1.
  destruct (RightChildIsRed (mkNode e l r' f)
            && negb (LeftChildIsRed (mkNode e l r' f))).
  - rewrite Seen_RotateLeft by assumption. rewrite Seen_mk, Hk, Hk'. reflexivity.
  - rewrite Seen_mk, Hk, Hk'. reflexivity.
Qed.

(** In a well-shaped tree, ordered or not, the descent for [k] after
    [RInsert(k,d)] ends on a live entry holding [d]: the rotations on the
    way up never move the node off the path its key takes. *)
Lemma Seen_RInsert k d h t :
  pred_ k k = false -> LLRB h t ->
  exists e, Seen (RInsert t k d) k = Some (e, false) /\ data_ e = d.
Proof.
  intros Hkk HL.
  induction HL as [|e l r f h Hf Hl Hr Ll IHl Lr IHr|e l r f h Hf Hr Ll IHl Lr IHr].
  - exists (mkEntry k d). simpl. unfold NewNode. rewrite Seen_mk. simpl.
    rewrite Hkk. split; reflexivity.
  - simpl.
    destruct (pred_ k (key_ e)) eqn:E1; [|destruct (pred_ (key_ e) k) eqn:E2].
    + rewrite Seen_Repair_left by assumption. exact IHl.
    + rewrite (Seen_Repair_right h) by assumption. exact IHr.
    + rewrite (LLRB_Repair_id h).
      * exists (mkEntry (key_ e) d). rewrite Seen_mk. simpl. rewrite E1, E2.
        rewrite FlagFacts.IsDead_SetAlive. split; reflexivity.
      * apply LLRB_red; auto. rewrite FlagFacts.IsRed_SetAlive. assumption.
  - simpl.
    destruct (pred_ k (key_ e)) eqn:E1; [|destruct (pred_ (key_ e) k) eqn:E2].
    + rewrite Seen_Repair_left by assumption. exact IHl.
    + rewrite (Seen_Repair_right h) by assumption. exact IHr.
    + rewrite (LLRB_Repair_id (S h)).
      * exists (mkEntry (key_ e) d). rewrite Seen_mk. simpl. rewrite E1, E2.
        rewrite FlagFacts.IsDead_SetAlive. split; reflexivity.
      * apply LLRB_black; auto. rewrite FlagFacts.IsRed_SetAlive. assumption.
Qed.

Implicit Types (m : Map_ADT K D).

Lemma FoundAt_Put_any k d m :
  pred_ k k = false -> Object.Shaped (root_ m) ->
  exists e f, FoundAt (root_ (Put k d m)) k = Some (e, f)
              /\ data_ e = d /\ Flags.IsDead f = false.
Proof.
  intros Hkk ([h Hh] & _ & _).
  destruct (Seen_RInsert k d h (root_ m) Hkk Hh) as (e & He & Hd).
  rewrite Put_RInsert. cbn [root_].
  rewrite <- (Seen_SetBlack (RInsert (root_ m) k d) k) in He.
  unfold Seen in He.
  destruct (FoundAt (SetBlack (RInsert (root_ m) k d)) k) as [[e' f']|];
    [|discriminate He].
  simpl in He. injection He as He Hf. subst e'.
  exists e, f'. auto.
Qed.

Lemma Shaped_Put_map k d m :
  Object.Shaped (root_ m) -> Object.Shaped (root_ (Put k d m)).
Proof. destruct m as [t]. apply Shaped_Put. Qed.

Lemma Put_Erase_Put_any k d m :
  pred_ k k = false -> Object.Shaped (root_ m) ->
  Put k d (Erase k (Put k d m)) = Put k d m.
Proof.
  intros Hkk Hs. pose proof (Shaped_Put_map k d m Hs) as Hs1.
  destruct (FoundAt_Put_any k d m Hkk Hs) as (e & f & Hfound & Hd & Halive).
  destruct Hs1 as ([h Hh] & Hr & Hf).
  rewrite (Put_RInsert k d (Erase _ _)). unfold Erase. simpl.
  destruct (Put k d m) as [T]. simpl in *. f_equal.
  rewrite Erase_UpdateAt.
  rewrite (RInsert_present k d h).
  - rewrite UpdateAt_compose by reflexivity. simpl.
    rewrite (UpdateAt_same _ k T e f Hfound).
    + apply SetBlack_same; assumption.
    + rewrite FlagFacts.SetAlive_SetDead.
      * destruct e; simpl in *; subst; reflexivity.
      * eapply FoundAt_four; eauto.
      * assumption.
  - apply LLRB_UpdateAt; [intros; apply FlagFacts.IsRed_SetDead|assumption].
  - rewrite FoundAt_UpdateAt by reflexivity. rewrite Hfound. discriminate.
Qed.

Lemma Retrieve_Put_any k d d0 m :
  pred_ k k = false -> Object.Shaped (root_ m) ->
  Retrieve k d0 (Put k d m) = (true, d).
Proof.
  intros Hkk Hs.
  destruct (FoundAt_Put_any k d m Hkk Hs) as (e & f & Hfound & Hd & Halive).
  rewrite Retrieve_FoundAt, Hfound. unfold Flags.IsAlive. rewrite Halive, Hd.
  reflexivity.
Qed.

Lemma Retrieve_Erase_Put_any k d d0 m :
  pred_ k k = false -> Object.Shaped (root_ m) ->
  Retrieve k d0 (Erase k (Put k d m)) = (false, d0).
Proof.
  intros Hkk Hs.
  destruct (FoundAt_Put_any k d m Hkk Hs) as (e & f & Hfound & Hd & Halive).
  rewrite Retrieve_FoundAt. unfold Erase. simpl.
  rewrite Erase_UpdateAt, FoundAt_UpdateAt by reflexivity.
  rewrite Hfound. simpl. rewrite FlagFacts.IsAlive_SetDead. reflexivity.
Qed.

End SearchFacts.

Section ObjectSearch.

Context {K D : Type} {DC : DefaultConstructible D}.
Implicit Types (o : Object.obj K D) (k : K) (v d : D).

Lemma Object_pred_order o :
  Object.Reachable o -> StrictWeakOrdering K (P := Object.pred_ o).
Proof.
  induction 1 as [p Hp|that H IH|this that H1 IH1 H2 IH2|k o H IH|k d o H IH
                 |k d o H IH|k o H IH|o H IH|o H IH]; try assumption.
  unfold Object.Get. destruct (Get k (Object.tree o)) as [m loc]. exact IH.
Qed.

Lemma Object_Put_Erase_Put o k v d :
  Object.Reachable o ->
  let o1 := Object.Put k v o in
  let o2 := Object.Erase k o1 in
  let o3 := Object.Put k v o2 in
  Object.Retrieve k d o3 = (true, v)
  /\ NumNodes (Object.tree o3) = NumNodes (Object.tree o2)
  /\ NumNodes (Object.tree o2) = NumNodes (Object.tree o1)
  /\ Object.Retrieve k d o2 = (false, d)
  /\ o3 = o1.
Proof.
  intros Hr o1 o2 o3.
  pose proof (Object_Reachable_Shaped o Hr) as Hs.
  pose proof (Object_pred_order o Hr) as Ho.
  pose proof (@pred_irrefl K (Object.pred_ o) Ho k) as Hkk.
  destruct o as [t p]. cbn [Object.root_ Object.pred_] in *.
  assert (H31 : o3 = o1).
  { unfold o3, o2, o1, Object.Put, Object.Erase, Object.with_tree, Object.tree.
    cbn [Object.root_ Object.pred_]. f_equal.
    change (root_ (@Put K D p DC k v
              {| root_ := root_ (@Erase K D p k
                 {| root_ := root_ (@Put K D p DC k v (mkMap t)) |}) |})
            = root_ (@Put K D p DC k v (mkMap t))).
    f_equal.
    pose proof (@Put_Erase_Put_any K D p DC k v (mkMap t) Hkk Hs) as HH.
    destruct (@Put K D p DC k v (mkMap t)) as [T1] eqn:E1.
    cbn [root_]. destruct (@Erase K D p k (mkMap T1)) as [T2] eqn:E2.
    cbn [root_]. exact HH. }
  assert (H21 : NumNodes (Object.tree o2) = NumNodes (Object.tree o1)).
  { unfold o2, o1, NumNodes, Object.Erase, Object.with_tree, Object.tree, Erase.
    cbn [Object.root_ Object.pred_ root_]. apply RNumNodes_Erase. }
  assert (HR1 : Object.Retrieve k d o1 = (true, v)).
  { unfold o1, Object.Retrieve, Object.Put, Object.with_tree, Object.tree.
    cbn [Object.root_ Object.pred_].
    pose proof (@Retrieve_Put_any K D p DC k v d (mkMap t) Hkk Hs) as HH.
    destruct (@Put K D p DC k v (mkMap t)) as [T1]. exact HH. }
  repeat split.
  - rewrite H31. exact HR1.
  - rewrite H31. symmetry. exact H21.
  - exact H21.
  - unfold o2, o1, Object.Retrieve, Object.Erase, Object.Put, Object.with_tree,
      Object.tree. cbn [Object.root_ Object.pred_].
    pose proof (@Retrieve_Erase_Put_any K D p DC k v d (mkMap t) Hkk Hs) as HH.
    destruct (@Put K D p DC k v (mkMap t)) as [T1].
    cbn [root_]. destruct (@Erase K D p k (mkMap T1)) as [T2].
    cbn [root_]. exact HH.
  - exact H31.
Qed.

End ObjectSearch.

Module CrossedComparatorFacts.
Import IntString IntStringFacts CrossedComparators.
Local Open Scope string_scope.

Lemma GreaterThan_int_order : StrictWeakOrdering Z (P := GreaterThan_int).
Proof.
  split; unfold equiv_, pred_, GreaterThan_int.
  - intros x. rewrite Z.gtb_ltb. apply Z.ltb_irrefl.
  - intros x y z. rewrite !Z.gtb_ltb, !Z.ltb_lt. lia.
  - intros x y z.
    rewrite !Z.gtb_ltb, !andb_true_iff, !negb_true_iff, !Z.ltb_ge. lia.
Qed.

Lemma Reachable_crossed : Object.Reachable crossed.
Proof.
  apply Object.Made_Assign.
  - apply Object.Made_New. exact LessThan_int_order.
  - repeat apply Object.Made_Put. apply Object.Made_New.
    exact GreaterThan_int_order.
Qed.

(** C2, at the failing input.  [b] is constructed with [>] and receives
    [Put] of 1, 2 and 3; [a] is constructed with [<]; then [a = b].  The
    object [a], reached by public operations only, now holds the tree of
    [b] with its own comparator: the tree is not in binary-search order
    for the [pred_] of [a] and the five invariants fail, while they hold
    for [b] and for the copy [Map_ADT(b)], whose constructor takes [pred_]
    along. *)
Theorem Assign_keeps_pred_and_breaks_order :
  Object.Reachable crossed
  /\ Object.root_ crossed = Object.root_ b
  /\ Object.pred_ crossed = Object.pred_ a
  /\ IsBST (P := Object.pred_ crossed) (Object.root_ crossed) = false
  /\ Object.Invariants crossed = false
  /\ Object.Invariants b = true
  /\ Object.Invariants (Object.Copy b) = true.
Proof.
  split; [exact Reachable_crossed|]. vm_compute. repeat split.
Qed.

(** C5, at the failing input.  After [a = b] between objects with
    different comparators the entry [(3, c)] is live in the tree of [a],
    yet [a.Retrieve(3, d)] returns false and leaves [d] as it was; on [b]
    and on the copy [Map_ADT(b)] it returns true with [c]. *)
Theorem Retrieve_misses_live_entry_after_Assign :
  Object.Reachable crossed
  /\ In (mkEntry 3 "c") (LiveEntries (Object.root_ crossed))
  /\ Object.Retrieve 3 "none" crossed = (false, "none")
  /\ Object.Retrieve 3 "none" b = (true, "c")
  /\ Object.Retrieve 3 "none" (Object.Copy b) = (true, "c").
Proof.
  split; [exact Reachable_crossed|].
  split; [left; reflexivity|]. vm_compute. repeat split.
Qed.

(** C1, at the failing input.  After [a = b] between objects with
    different comparators the live in-order sequence of [a] has the keys
    3, 2, 1; [a.Rehash()] leaves no tombstone but the keys 1, 2, 3, so the
    sequence after the call is not the one before it.  On the copy
    [Map_ADT(b)] the sequence is kept. *)
Theorem Rehash_reorders_after_Assign :
  Object.Reachable crossed
  /\ Traverse (Object.tree crossed)
     = [mkEntry 3 "c"; mkEntry 2 "b"; mkEntry 1 "a"]
  /\ Traverse (Object.tree (Object.Rehash crossed))
     = [mkEntry 1 "a"; mkEntry 2 "b"; mkEntry 3 "c"]
  /\ Traverse (Object.tree (Object.Rehash crossed))
     <> Traverse (Object.tree crossed)
  /\ NumNodes (Object.tree (Object.Rehash crossed))
     = Size (Object.tree (Object.Rehash crossed))
  /\ Traverse (Object.tree (Object.Rehash (Object.Copy b)))
     = Traverse (Object.tree (Object.Copy b)).
Proof.
  split; [exact Reachable_crossed|]. vm_compute.
  repeat split. discriminate.
Qed.

End CrossedComparatorFacts.

(** ** The specification's claims *)

Section Claims.

Context {K D : Type} {P : Predicate K} {DC : DefaultConstructible D}.
Context {SWO : StrictWeakOrdering K}.
Implicit Types (n : Node K D) (k : K) (v d : D) (m : Map_ADT K D).

Lemma Sound_five m :
  Sound m ->
  IsBST (root_ m) = true
  /\ LeftLeaning (root_ m) = true
  /\ NoRedRedLeft (root_ m) = true
  /\ BlackBalanced (root_ m) = true
  /\ RootIsBlack (root_ m) = true.
Proof.
  intros H. apply Sound_Invariants in H. unfold Invariants in H.
  rewrite !andb_true_iff in H. tauto.
Qed.

(** Under one comparator: for every map state reachable by public
    operations, [Rehash] leaves no tombstone (the node count equals the live count), the live
    in-order sequence of entries is the one before the call, both as
    stored and as the live iterator yields it, and the five structural
    invariants hold. *)
Theorem Rehash_compacts m :
  Reachable m ->
  NumNodes (Rehash m) = Size (Rehash m)
  /\ LiveEntries (root_ (Rehash m)) = LiveEntries (root_ m)
  /\ Traverse (Rehash m) = Traverse m
  /\ (IsBST (root_ (Rehash m)) = true
      /\ LeftLeaning (root_ (Rehash m)) = true
      /\ NoRedRedLeft (root_ (Rehash m)) = true
      /\ BlackBalanced (root_ (Rehash m)) = true
      /\ RootIsBlack (root_ (Rehash m)) = true).
Proof.
  intros Hr. pose proof (Reachable_Sound m Hr) as Hs.
  destruct (Rehash_spec m Hs) as (H1 & _ & H3).
  repeat split; try assumption.
  - rewrite !Traverse_LiveEntries. assumption.
  - apply (Sound_five (Rehash m)), Sound_Rehash.
  - apply (Sound_five (Rehash m)), Sound_Rehash.
  - apply (Sound_five (Rehash m)), Sound_Rehash.
  - apply (Sound_five (Rehash m)), Sound_Rehash.
  - apply (Sound_five (Rehash m)), Sound_Rehash.
Qed.

(** Under one comparator: after any sequence of public operations
    ([Get], [Put], [Insert], [Erase], [Clear], [Rehash], copy construction,
    assignment between objects with that comparator) the tree is
    in binary-search order, no node has a red right child with a black
    left child, no red left child has a red left child, every path to a
    null link crosses the same number of black nodes, and the root, if
    present, is black. *)
Theorem Reachable_Invariants m :
  Reachable m ->
  IsBST (root_ m) = true
  /\ LeftLeaning (root_ m) = true
  /\ NoRedRedLeft (root_ m) = true
  /\ BlackBalanced (root_ m) = true
  /\ RootIsBlack (root_ m) = true.
Proof. intros Hr. apply Sound_five, Reachable_Sound, Hr. Qed.

(** C4. For every reachable map, key and value, after
    [Put(k,v); Erase(k); Put(k,v)] a [Retrieve] of [k] returns true with
    [v]; [Erase] keeps every node and only makes [k] dead, the second [Put]
    adds no node, and it restores the very tree the first [Put] left.
    The same holds for every object reached with a [pred_] of its own,
    assignment between objects with different comparators included: the
    rotations never move a node off the path its key takes. *)
Theorem Put_Erase_Put_resurrects :
  (forall m k v d,
      Reachable m ->
      let m1 := Put k v m in
      let m2 := Erase k m1 in
      let m3 := Put k v m2 in
      Retrieve k d m3 = (true, v)
      /\ NumNodes m3 = NumNodes m2
      /\ NumNodes m2 = NumNodes m1
      /\ Retrieve k d m2 = (false, d)
      /\ m3 = m1)
  /\ (forall (o : Object.obj K D) k v d,
         Object.Reachable o ->
         let o1 := Object.Put k v o in
         let o2 := Object.Erase k o1 in
         let o3 := Object.Put k v o2 in
         Object.Retrieve k d o3 = (true, v)
         /\ NumNodes (Object.tree o3) = NumNodes (Object.tree o2)
         /\ NumNodes (Object.tree o2) = NumNodes (Object.tree o1)
         /\ Object.Retrieve k d o2 = (false, d)
         /\ o3 = o1).
Proof.
  split; [|intros o k v d Hr; exact (Object_Put_Erase_Put o k v d Hr)].
  intros m k v d Hr m1 m2 m3. pose proof (Reachable_Sound m Hr) as Hs.
  assert (H31 : m3 = m1) by (apply Put_Erase_Put, Hs).
  assert (H21 : NumNodes m2 = NumNodes m1)
    by (unfold NumNodes, m2, Erase; simpl; apply RNumNodes_Erase).
  repeat split.
  - rewrite H31. apply Retrieve_Put, Hs.
  - rewrite H31. symmetry. exact H21.
  - exact H21.
  - apply Retrieve_Erase_Put, Hs.
  - exact H31.
Qed.

(** Under one comparator: for every reachable map and key [k],
    [Retrieve(k, d)] returns
    true with the stored value exactly when a live entry with a key
    equivalent to [k] holds that value, and it returns false, leaving [d]
    as it was, exactly when there is no live entry for [k] (the key is
    absent or only a tombstone). *)
Theorem Retrieve_live_entry m k d :
  Reachable m ->
  (forall v, Retrieve k d m = (true, v) <-> HasLive m k v)
  /\ ((forall v, ~ HasLive m k v) <-> Retrieve k d m = (false, d)).
Proof. intros Hr. apply Retrieve_HasLive, Reachable_Sound, Hr. Qed.

(** C6. For every tree, key and value, [Put(k,v)] ([RGet], blacken the
    root, assign through the returned reference) produces the same tree
    as [RInsert(root,k,v)] followed by blackening the root: same
    structure, colours, liveness bits and entries, whether the key is
    new, live or a tombstone. *)
Theorem Put_equals_RInsert m k v :
  Put k v m = mkMap (SetBlack (RInsert (root_ m) k v)).
Proof. apply Put_RInsert. Qed.

(** C7, as amended.  On a node whose right child is not red,
    [RotateLeft] returns the node unchanged; it writes its diagnostic
    when that child exists and nothing when the child is null.
    [RotateRight] does the same for the left child. *)
Theorem Rotate_on_wrong_colour n :
  (RightChildIsRed n = false ->
   RotateLeft n
   = (n, match rchild n with nullptr => [] | _ => [RotateLeft_msg] end))
  /\ (LeftChildIsRed n = false ->
      RotateRight n
      = (n, match lchild n with nullptr => [] | _ => [RotateRight_msg] end)).
Proof.
  split.
  - destruct n as [|e l [|pe pl pr pf] f]; try reflexivity.
    rewrite RightChildIsRed_eq. simpl. rewrite IsRed_mk. intros ->. reflexivity.
  - destruct n as [|e [|pe pl pr pf] r f]; try reflexivity.
    rewrite LeftChildIsRed_eq. simpl. rewrite IsRed_mk. intros ->. reflexivity.
Qed.

(** C9. For every map whose nodes are all tombstones, [Rehash] leaves
    the map empty: the live iterator yields nothing, the root becomes
    null, [Empty] holds, no node remains, and [Clear] deletes every node
    of the old tree. *)
Theorem Rehash_of_tombstones m :
  Size m = 0 -> 0 < NumNodes m ->
  Traverse m = []
  /\ root_ (Rehash m) = nullptr
  /\ Empty (Rehash m) = true
  /\ NumNodes (Rehash m) = 0
  /\ Clear_deleted m = NumNodes m.
Proof.
  intros Hsize Hnodes. pose proof (Live_nil_Size m Hsize) as Hlive.
  assert (Hroot : root_ (Rehash m) = nullptr)
    by (rewrite Rehash_fold, Hlive; reflexivity).
  repeat split.
  - rewrite Traverse_LiveEntries. exact Hlive.
  - exact Hroot.
  - unfold Empty. rewrite Hroot. reflexivity.
  - unfold NumNodes. rewrite Hroot. reflexivity.
  - apply RRelease_count.
Qed.

(** C10. Self-assignment leaves the store of map objects as it is, the
    assigned map and the allocation counters included, and returns the
    address of the map. *)
Theorem Assign_self (s : Store K D) (a : nat) : Assign a a s = (s, a).
Proof. unfold Assign. rewrite Nat.eqb_refl. reflexivity. Qed.

(** Assignment from another object, for comparison: the target is
    cleared and receives a clone. *)
Lemma Assign_other (s : Store K D) (a b : nat) mthis mthat :
  a <> b -> nth_error (objects s) a = Some mthis ->
  nth_error (objects s) b = Some mthat ->
  Assign a b s
  = (mkStore (Replace (objects s) a mthat)
             (allocated s + NumNodes mthat) (freed s + NumNodes mthis), a).
Proof.
  intros Hab Ha Hb. unfold Assign.
  apply Nat.eqb_neq in Hab. rewrite Hab, Ha, Hb. simpl.
  unfold AssignFrom, Clear_deleted. rewrite RClone_id, RRelease_count.
  destruct mthat. reflexivity.
Qed.

Context {NEK : NotEqual K} {NED : NotEqual D} {NEQ : NotEqualDecides K D}.

(** C8. [operator ==] returns true exactly when the live in-order
    sequences of entries of the two maps are identical, as stored and as
    the two iterators yield them; hence two reachable maps with the same
    set of live entries compare equal whatever their node structure. *)
Theorem Equal_live_sequences (m1 m2 : Map_ADT K D) :
  (Equal m1 m2 = true <-> LiveEntries (root_ m1) = LiveEntries (root_ m2))
  /\ (Equal m1 m2 = true <-> Traverse m1 = Traverse m2)
  /\ (Reachable m1 -> Reachable m2 ->
      (forall e, In e (LiveEntries (root_ m1)) <-> In e (LiveEntries (root_ m2))) ->
      Equal m1 m2 = true).
Proof.
  split; [apply Equal_spec|]. split.
  - rewrite !Traverse_LiveEntries. apply Equal_spec.
  - intros H1 H2 Hin. apply Equal_spec.
    apply LiveEntries_ext; [apply Reachable_Sound, H1|apply Reachable_Sound, H2|exact Hin].
Qed.

End Claims.

(** ** The claims on integer keys *)

Module IntStringClaims.
Import IntString IntStringFacts.
Local Open Scope string_scope.

(** C3. For every reachable map, [Height() <= 2 log2(NumNodes() + 1)],
    with the logarithm rounded down and, equivalently for the real
    logarithm, [2 ^ Height() <= (NumNodes() + 1) ^ 2]; in particular the
    map built by putting the keys [1..N] in ascending order, or in
    descending order, has [N] nodes and height at most
    [2 log2(N + 1)].  The bound does not depend on the comparator: it
    holds as well for every object reached with a [pred_] of its own,
    assignment between objects with different comparators included. *)
Theorem Height_bound :
  (forall (K D : Type) (P : Predicate K) (DC : DefaultConstructible D),
      StrictWeakOrdering K ->
      forall m : Map_ADT K D,
        Reachable m ->
        Height m <= 2 * Z.log2 (NumNodes m + 1)
        /\ 2 ^ Height m <= (NumNodes m + 1) ^ 2)
  /\ (forall (N : nat) (d : string),
         NumNodes (PutAll (upto N) d fresh) = Z.of_nat N
         /\ Height (PutAll (upto N) d fresh) <= 2 * Z.log2 (Z.of_nat N + 1))
  /\ (forall (N : nat) (d : string),
         NumNodes (PutAll (rev (upto N)) d fresh) = Z.of_nat N
         /\ Height (PutAll (rev (upto N)) d fresh) <= 2 * Z.log2 (Z.of_nat N + 1))
  /\ (forall (K D : Type) (DC : DefaultConstructible D) (o : Object.obj K D),
         Object.Reachable o ->
         Height (Object.tree o) <= 2 * Z.log2 (NumNodes (Object.tree o) + 1)
         /\ 2 ^ Height (Object.tree o) <= (NumNodes (Object.tree o) + 1) ^ 2).
Proof.
  split; [|split; [|split]].
  - intros K D P DC SWO m Hr. apply Sound_height, Reachable_Sound, Hr.
  - intros N d. split; [apply NumNodes_ascending|].
    rewrite <- (NumNodes_ascending d N).
    apply Sound_height, Reachable_Sound, Reachable_PutAll, Reach_new.
  - intros N d. split; [apply NumNodes_descending|].
    rewrite <- (NumNodes_descending d N).
    apply Sound_height, Reachable_Sound, Reachable_PutAll, Reach_new.
  - intros K D DC o Hr.
    exact (Shaped_height _ (Object_Reachable_Shaped o Hr)).
Qed.

(** *** The claims at concrete maps *)

Lemma Reachable_seven : Reachable seven.
Proof. apply Reachable_PutAll, Reach_new. Qed.

Lemma Rehash_compacts_witness :
  Reachable (Erase 5 (Erase 2 seven))
  /\ NumNodes (Rehash (Erase 5 (Erase 2 seven))) = 5
  /\ Size (Rehash (Erase 5 (Erase 2 seven))) = 5
  /\ LiveEntries (root_ (Rehash (Erase 5 (Erase 2 seven))))
     = LiveEntries (root_ (Erase 5 (Erase 2 seven))).
Proof.
  assert (Hr : Reachable (Erase 5 (Erase 2 seven)))
    by (apply Reach_Erase, Reach_Erase, Reachable_seven).
  destruct (Rehash_compacts (Erase 5 (Erase 2 seven)) Hr) as (H1 & H2 & _).
  split; [exact Hr|]. split; [vm_compute; reflexivity|].
  split; [rewrite <- H1; vm_compute; reflexivity|exact H2].
Defined.

Lemma Reachable_Invariants_witness :
  Reachable (Put 4 "X" (Erase 4 seven))
  /\ IsBST (root_ (Put 4 "X" (Erase 4 seven))) = true
  /\ LeftLeaning (root_ (Put 4 "X" (Erase 4 seven))) = true
  /\ NoRedRedLeft (root_ (Put 4 "X" (Erase 4 seven))) = true
  /\ BlackBalanced (root_ (Put 4 "X" (Erase 4 seven))) = true
  /\ RootIsBlack (root_ (Put 4 "X" (Erase 4 seven))) = true.
Proof.
  assert (Hr : Reachable (Put 4 "X" (Erase 4 seven)))
    by (apply Reach_Put, Reach_Erase, Reachable_seven).
  split; [exact Hr|].
  exact (Reachable_Invariants (Put 4 "X" (Erase 4 seven)) Hr).
Defined.

Lemma Height_bound_witness :
  (Reachable seven
   /\ Height seven <= 2 * Z.log2 (NumNodes seven + 1)
   /\ 2 ^ Height seven <= (NumNodes seven + 1) ^ 2)
  /\ (Object.Reachable CrossedComparators.crossed
      /\ Height (Object.tree CrossedComparators.crossed)
         <= 2 * Z.log2 (NumNodes (Object.tree CrossedComparators.crossed) + 1)).
Proof.
  split.
  - split; [exact Reachable_seven|].
    exact (proj1 Height_bound Z string _ _ LessThan_int_order seven
             Reachable_seven).
  - split; [exact CrossedComparatorFacts.Reachable_crossed|].
    exact (proj1 (proj2 (proj2 (proj2 Height_bound)) Z string _
                    CrossedComparators.crossed
                    CrossedComparatorFacts.Reachable_crossed)).
Defined.

Lemma Put_Erase_Put_resurrects_witness :
  (Reachable seven
   /\ Retrieve 4 "none" (Put 4 "X" (Erase 4 (Put 4 "X" seven))) = (true, "X")
   /\ Put 4 "X" (Erase 4 (Put 4 "X" seven)) = Put 4 "X" seven)
  /\ (Object.Reachable CrossedComparators.crossed
      /\ Object.Retrieve 3 "none"
           (Object.Put 3 "X" (Object.Erase 3
              (Object.Put 3 "X" CrossedComparators.crossed)))
         = (true, "X")).
Proof.
  split.
  - split; [exact Reachable_seven|].
    destruct (proj1 Put_Erase_Put_resurrects seven 4 "X" "none" Reachable_seven)
      as (H1 & _ & _ & _ & H5).
    split; [exact H1|exact H5].
  - split; [exact CrossedComparatorFacts.Reachable_crossed|].
    exact (proj1 (proj2 Put_Erase_Put_resurrects CrossedComparators.crossed
                    3 "X" "none" CrossedComparatorFacts.Reachable_crossed)).
Defined.

Lemma Retrieve_live_entry_witness :
  Reachable (Erase 4 seven)
  /\ (forall v, Retrieve 3 "none" (Erase 4 seven) = (true, v)
                <-> HasLive (Erase 4 seven) 3 v)
  /\ ((forall v, ~ HasLive (Erase 4 seven) 4 v)
      <-> Retrieve 4 "none" (Erase 4 seven) = (false, "none")).
Proof.
  assert (Hr : Reachable (Erase 4 seven)) by (apply Reach_Erase, Reachable_seven).
  split; [exact Hr|]. split.
  - exact (proj1 (Retrieve_live_entry (Erase 4 seven) 3 "none" Hr)).
  - exact (proj2 (Retrieve_live_entry (Erase 4 seven) 4 "none" Hr)).
Defined.

Lemma Rotate_on_wrong_colour_witness :
  RightChildIsRed black_pair = false
  /\ LeftChildIsRed black_pair = false
  /\ RotateLeft black_pair = (black_pair, [RotateLeft_msg])
  /\ RotateRight black_pair = (black_pair, [RotateRight_msg]).
Proof.
  split; [reflexivity|]. split; [reflexivity|]. split.
  - exact (proj1 (Rotate_on_wrong_colour black_pair) eq_refl).
  - exact (proj2 (Rotate_on_wrong_colour black_pair) eq_refl).
Defined.

(** C7 as stated fails on a node without children: its right child is
    not red, yet [RotateLeft] writes no diagnostic (and likewise
    [RotateRight] for the left child). *)
Lemma Rotate_null_child_is_silent :
  RightChildIsRed lone_node = false
  /\ RotateLeft lone_node = (lone_node, [])
  /\ RotateLeft lone_node <> (lone_node, [RotateLeft_msg])
  /\ LeftChildIsRed lone_node = false
  /\ RotateRight lone_node = (lone_node, [])
  /\ RotateRight lone_node <> (lone_node, [RotateRight_msg]).
Proof.
  repeat split; try reflexivity; discriminate.
Qed.

Lemma Equal_live_sequences_witness :
  root_ one_to_four <> root_ four_to_one
  /\ Reachable one_to_four /\ Reachable four_to_one
  /\ Equal one_to_four four_to_one = true.
Proof.
  assert (H1 : Reachable one_to_four) by (apply Reachable_PutAll, Reach_new).
  assert (H2 : Reachable four_to_one) by (apply Reachable_PutAll, Reach_new).
  split; [vm_compute; discriminate|]. split; [exact H1|]. split; [exact H2|].
  apply (proj2 (proj2 (Equal_live_sequences one_to_four four_to_one)) H1 H2).
  intros e. vm_compute. tauto.
Defined.

Lemma Rehash_of_tombstones_witness :
  Size tombstone_only = 0 /\ 0 < NumNodes tombstone_only
  /\ root_ (Rehash tombstone_only) = nullptr
  /\ Empty (Rehash tombstone_only) = true.
Proof.
  assert (H1 : Size tombstone_only = 0) by reflexivity.
  assert (H2 : 0 < NumNodes tombstone_only) by reflexivity.
  destruct (Rehash_of_tombstones tombstone_only H1 H2) as (_ & H3 & H4 & _).
  split; [exact H1|]. split; [exact H2|]. split; [exact H3|exact H4].
Defined.

(** The seed scenarios of the specification, evaluated on the model. *)

Example scenario_five_puts :
  let m := Put 4 "e" (Put 1 "d" (Put 8 "c" (Put 3 "b" (Put 5 "a" fresh)))) in
  Traverse m
  = [mkEntry 1 "d"; mkEntry 3 "b"; mkEntry 4 "e"; mkEntry 5 "a"; mkEntry 8 "c"]
  /\ Height m = 2 /\ RootIsBlack (root_ m) = true.
Proof. vm_compute. repeat split. Qed.

Example scenario_erase_then_put :
  let m := Erase 4 seven in
  Size m = 6 /\ NumNodes m = 7
  /\ Retrieve 4 "none" m = (false, "none")
  /\ map key_ (Traverse m) = [1; 2; 3; 5; 6; 7]
  /\ Size (Put 4 "X" m) = 7
  /\ Retrieve 4 "none" (Put 4 "X" m) = (true, "X").
Proof. vm_compute. repeat split. Qed.

Example scenario_rehash :
  let m := Rehash (Erase 5 (Erase 2 seven)) in
  Size m = 5 /\ NumNodes m = 5
  /\ map key_ (Traverse m) = [1; 3; 4; 6; 7]
  /\ Invariants m = true.
Proof. vm_compute. repeat split. Qed.

Example scenario_thousand :
  (Height (PutAll (upto 1000) "x" fresh) <=? 20)%Z = true
  /\ (Height (PutAll (rev (upto 1000)) "x" fresh) <=? 20)%Z = true.
Proof. vm_compute. split; reflexivity. Qed.

(** Self-assignment and assignment between two objects, evaluated. *)
Example Assign_self_example : Assign 0 0 two_objects = (two_objects, 0%nat).
Proof. reflexivity. Qed.

Example Assign_other_example :
  Assign 1 0 two_objects = (mkStore [seven; seven] 16 2, 1%nat).
Proof. vm_compute. reflexivity. Qed.

End IntStringClaims.

(** * Further properties of the header *)

(** ** Flag bytes *)

Module FlagRoundTrips.
Import Flags FlagFacts.

Lemma uint8_range z : 0 <= uint8 z < 256.
Proof.
  unfold uint8. change 255 with (Z.ones 8). rewrite Z.land_ones by lia.
  apply Z.mod_pos_bound. reflexivity.
Qed.

Lemma SetRed_red f : four f -> IsRed f = true -> SetRed f = f.
Proof. intros H. by_cases H. Qed.
Lemma SetRed_SetBlack f : four f -> IsRed f = true -> SetRed (SetBlack f) = f.
Proof. intros H. by_cases H. Qed.
Lemma SetBlack_SetRed f : four f -> IsRed f = false -> SetBlack (SetRed f) = f.
Proof. intros H. by_cases H. Qed.
Lemma SetRed_SetRed f : four f -> IsRed f = true -> SetRed (SetRed f) = f.
Proof. intros H. by_cases H. Qed.

Lemma SetDead_dead f : four f -> IsDead f = true -> SetDead f = f.
Proof. intros H. by_cases H. Qed.

Lemma SetDead_SetDead f : SetDead (SetDead f) = SetDead f.
Proof.
  unfold SetDead, uint8, DEAD. apply Z.bits_inj'. intros n Hn.
  rewrite !Z.land_spec, !Z.lor_spec, !Z.land_spec, !Z.lor_spec.
  destruct (Z.testbit f n), (Z.testbit 1 n), (Z.testbit 255 n); reflexivity.
Qed.

Lemma testbit_uint8 z i : 0 <= i < 8 -> Z.testbit (uint8 z) i = Z.testbit z i.
Proof.
  intros Hi. unfold uint8. rewrite Z.land_spec.
  change 255 with (Z.ones 8). rewrite Z.ones_spec_low by lia.
  apply andb_true_r.
Qed.

Lemma testbit_RED i : i <> 1 -> Z.testbit RED i = false.
Proof. intros Hi. change RED with (2 ^ 1). apply Z.pow2_bits_false. lia. Qed.

Lemma testbit_DEAD i : i <> 0 -> Z.testbit DEAD i = false.
Proof. intros Hi. change DEAD with (2 ^ 0). apply Z.pow2_bits_false. lia. Qed.

(** X1. On every value of the flag byte each setter changes its own bit
    and nothing else: afterwards [IsRed] or [IsDead] reports the bit as
    set or cleared, the other flag reads as before, each of the bits 0 to
    7 other than the setter's own is what it was, and the result is again
    a byte. *)
Theorem Flag_setters_touch_one_bit f :
  (IsRed (SetRed f) = true /\ IsRed (SetBlack f) = false
   /\ IsDead (SetDead f) = true /\ IsDead (SetAlive f) = false)
  /\ (IsDead (SetRed f) = IsDead f /\ IsDead (SetBlack f) = IsDead f
      /\ IsRed (SetDead f) = IsRed f /\ IsRed (SetAlive f) = IsRed f)
  /\ (0 <= SetRed f < 256 /\ 0 <= SetBlack f < 256
      /\ 0 <= SetDead f < 256 /\ 0 <= SetAlive f < 256)
  /\ (forall i, 0 <= i < 8 ->
        (i <> 1 -> Z.testbit (SetRed f) i = Z.testbit f i
                   /\ Z.testbit (SetBlack f) i = Z.testbit f i)
        /\ (i <> 0 -> Z.testbit (SetDead f) i = Z.testbit f i
                      /\ Z.testbit (SetAlive f) i = Z.testbit f i)).
Proof.
  split; [|split; [|split]].
  - auto using IsRed_SetRed, IsRed_SetBlack, IsDead_SetDead, IsDead_SetAlive.
  - auto using IsDead_SetRed, IsDead_SetBlack, IsRed_SetDead, IsRed_SetAlive.
  - unfold SetRed, SetBlack, SetDead, SetAlive. auto using uint8_range.
  - intros i Hi. unfold SetRed, SetBlack, SetDead, SetAlive.
    rewrite !testbit_uint8 by exact Hi.
    rewrite !Z.lor_spec, !Z.land_spec, !Z.lnot_spec by lia.
    split; intros Hne.
    + rewrite (testbit_RED i Hne). simpl. rewrite orb_false_r, andb_true_r. auto.
    + rewrite (testbit_DEAD i Hne). simpl. rewrite orb_false_r, andb_true_r. auto.
Qed.

Lemma Flag_setters_touch_one_bit_witness :
  0 <= 7 < 8 /\ 7 <> 1
  /\ SetRed 165 = 167 /\ SetBlack 167 = 165
  /\ Z.testbit (SetRed 165) 7 = Z.testbit 165 7
  /\ Z.testbit (SetBlack 167) 7 = Z.testbit 167 7.
Proof.
  assert (H : 0 <= 7 < 8) by lia. assert (H1 : 7 <> 1) by lia.
  split; [exact H|]. split; [exact H1|].
  split; [reflexivity|]. split; [reflexivity|]. split.
  - exact (proj1 (proj1 (proj2 (proj2 (proj2 (Flag_setters_touch_one_bit 165))) 7 H) H1)).
  - exact (proj2 (proj1 (proj2 (proj2 (proj2 (Flag_setters_touch_one_bit 167))) 7 H) H1)).
Defined.

End FlagRoundTrips.

(** ** Glyphs and rotations *)

Section GlyphFacts.
Context {K D : Type} {P : Predicate K} {DC : DefaultConstructible D}.
Context {SWO : StrictWeakOrdering K}.
Implicit Types (n t l r : Node K D) (e : Entry K D) (k : K) (d : D) (f : Z).
Implicit Types (m : Map_ADT K D) (loc : Location).

Lemma FlagsOK_Forall t :
  FlagsOK t = true -> Forall (fun n => Flags.four (flags n)) (Inorder t).
Proof.
  induction t as [|e l IHl r IHr f]; intros H; simpl; [constructor|].
  apply FlagsOK_mk in H. destruct H as (H1 & H2 & H3).
  apply Forall_app. split; [auto|]. constructor; auto.
Qed.

Lemma BWMap_four f :
  Flags.four f ->
  BWMap f = if Flags.IsRed f
            then (if Flags.IsDead f then "r"%char else "R"%char)
            else (if Flags.IsDead f then "b"%char else "B"%char).
Proof.
  intros H. destruct (FlagFacts.four_cases _ H) as [-> | [-> | [-> | ->]]];
    reflexivity.
Qed.

(** X2. In a reachable map every node carries one of the four flag
    states, so [BWMap] never yields the unknown glyph: it is [R]/[r] for a
    red node and [B]/[b] for a black one, in lower case exactly for a
    tombstone. *)
Theorem BWMap_of_reachable m :
  Reachable m ->
  Forall (fun n =>
            BWMap (flags n)
            = if IsRed n
              then (if IsDead n then "r"%char else "R"%char)
              else (if IsDead n then "b"%char else "B"%char))
         (Inorder (root_ m)).
Proof.
  intros Hr. destruct (Reachable_Sound m Hr) as (_ & _ & _ & Hf).
  eapply Forall_impl; [|apply FlagsOK_Forall, Hf].
  intros n Hn. apply BWMap_four, Hn.
Qed.

(** X3. On a node whose flag bytes hold flag states, rotating left about
    a red right child and then right again gives back the very same
    subtree, without a diagnostic; likewise right then left about a red
    left child. *)
Theorem Rotate_round_trip n :
  FlagsOK n = true ->
  (RightChildIsRed n = true -> RotateRight (fst (RotateLeft n)) = (n, []))
  /\ (LeftChildIsRed n = true -> RotateLeft (fst (RotateRight n)) = (n, [])).
Proof.
  intros Hok. split.
  - destruct n as [|e l [|pe pl pr pf] f]; try discriminate.
    rewrite RightChildIsRed_eq. simpl. rewrite IsRed_mk. intros Hp.
    apply FlagsOK_mk in Hok. destruct Hok as (Hf & _ & Hr).
    apply FlagsOK_mk in Hr. destruct Hr as (Hpf & _ & _).
    rewrite Hp. simpl. rewrite FlagFacts.IsRed_SetRed. simpl.
    destruct (Flags.IsRed f) eqn:Ef.
    + rewrite FlagFacts.IsRed_SetRed.
      rewrite (FlagRoundTrips.SetRed_SetRed f), (FlagRoundTrips.SetRed_SetRed pf) by assumption.
      reflexivity.
    + rewrite FlagFacts.IsRed_SetBlack.
      rewrite (FlagRoundTrips.SetBlack_SetRed f), (FlagRoundTrips.SetRed_SetBlack pf) by assumption.
      reflexivity.
  - destruct n as [|e [|pe pl pr pf] r f]; try discriminate.
    rewrite LeftChildIsRed_eq. simpl. rewrite IsRed_mk. intros Hp.
    apply FlagsOK_mk in Hok. destruct Hok as (Hf & Hl & _).
    apply FlagsOK_mk in Hl. destruct Hl as (Hpf & _ & _).
    rewrite Hp. simpl. rewrite FlagFacts.IsRed_SetRed. simpl.
    destruct (Flags.IsRed f) eqn:Ef.
    + rewrite FlagFacts.IsRed_SetRed.
      rewrite (FlagRoundTrips.SetRed_SetRed f), (FlagRoundTrips.SetRed_SetRed pf) by assumption.
      reflexivity.
    + rewrite FlagFacts.IsRed_SetBlack.
      rewrite (FlagRoundTrips.SetBlack_SetRed f), (FlagRoundTrips.SetRed_SetBlack pf) by assumption.
      reflexivity.
Qed.

Lemma BlackHeight_mk e l r f :
  BlackHeight (mkNode e l r f)
  = match BlackHeight l, BlackHeight r with
    | Some hl, Some hr =>
        if hl =? hr then Some (hl + Z.b2z (Flags.IsBlack f)) else None
    | _, _ => None
    end.
Proof. reflexivity. Qed.

Lemma IsBlack_SetRed f : Flags.IsBlack (Flags.SetRed f) = false.
Proof. unfold Flags.IsBlack. rewrite FlagFacts.IsRed_SetRed. reflexivity. Qed.
Lemma IsBlack_SetBlack f : Flags.IsBlack (Flags.SetBlack f) = true.
Proof. unfold Flags.IsBlack. rewrite FlagFacts.IsRed_SetBlack. reflexivity. Qed.

Lemma BlackHeight_RotateLeft n : BlackHeight (fst (RotateLeft n)) = BlackHeight n.
Proof.
  destruct n as [|e l [|pe pl pr pf] f]; try reflexivity.
  simpl RotateLeft. destruct (Flags.IsRed pf) eqn:Hp; [|reflexivity].
  simpl fst. rewrite !BlackHeight_mk.
  assert (Hb : Flags.IsBlack
                 (if Flags.IsRed f then Flags.SetRed pf else Flags.SetBlack pf)
               = Flags.IsBlack f).
  { unfold Flags.IsBlack at 2. destruct (Flags.IsRed f);
      [apply IsBlack_SetRed|apply IsBlack_SetBlack]. }
  rewrite Hb, IsBlack_SetRed.
  replace (Flags.IsBlack pf) with false
    by (unfold Flags.IsBlack; rewrite Hp; reflexivity).
  destruct (BlackHeight l) as [hl|], (BlackHeight pl) as [hpl|],
    (BlackHeight pr) as [hpr|]; try reflexivity;
    cbn [Z.b2z negb]; rewrite ?Z.add_0_r;
    repeat match goal with
           | |- context [?a =? ?b] => destruct (Z.eqb_spec a b); subst
           end;
    try reflexivity; try contradiction.
Qed.

End GlyphFacts.

(** ** Rotations and the reference of [Get] *)

Section RotationFacts.
Context {K D : Type} {P : Predicate K} {DC : DefaultConstructible D}.
Context {SWO : StrictWeakOrdering K}.
Implicit Types (n t l r : Node K D) (e : Entry K D) (k : K) (d : D) (f : Z).
Implicit Types (m : Map_ADT K D) (loc : Location).

Lemma BlackHeight_RotateRight n : BlackHeight (fst (RotateRight n)) = BlackHeight n.
Proof.
  destruct n as [|e [|pe pl pr pf] r f]; try reflexivity.
  simpl RotateRight. destruct (Flags.IsRed pf) eqn:Hp; [|reflexivity].
  simpl fst. rewrite !BlackHeight_mk.
  assert (Hb : Flags.IsBlack
                 (if Flags.IsRed f then Flags.SetRed pf else Flags.SetBlack pf)
               = Flags.IsBlack f).
  { unfold Flags.IsBlack at 2. destruct (Flags.IsRed f);
      [apply IsBlack_SetRed|apply IsBlack_SetBlack]. }
  rewrite Hb, IsBlack_SetRed.
  replace (Flags.IsBlack pf) with false
    by (unfold Flags.IsBlack; rewrite Hp; reflexivity).
  destruct (BlackHeight pl) as [hpl|], (BlackHeight pr) as [hpr|],
    (BlackHeight r) as [hr|]; try reflexivity;
    cbn [Z.b2z negb]; rewrite ?Z.add_0_r;
    repeat match goal with
           | |- context [?a =? ?b] => destruct (Z.eqb_spec a b); subst
           end;
    try reflexivity; try contradiction.
Qed.

Lemma AllKeys_Forall (Q : K -> bool) t :
  AllKeys Q t = true -> Forall (fun x => Q (item_key x) = true) (Items t).
Proof.
  induction t as [|e l IHl r IHr f]; simpl; intros H; [constructor|].
  rewrite !andb_true_iff in H. destruct H as [[H1 H2] H3].
  apply Forall_app. split; [auto|]. constructor; auto.
Qed.

Lemma IsBST_Ascending t : IsBST t = true -> Ascending (Items t).
Proof.
  induction t as [|e l IHl r IHr f]; simpl; intros H; [exact I|].
  rewrite !andb_true_iff in H. destruct H as [[[H1 H2] H3] H4].
  apply Ascending_join; auto.
  - exact (AllKeys_Forall _ _ H1).
  - exact (AllKeys_Forall _ _ H2).
Qed.

Lemma IsBST_Items t1 t2 : Items t1 = Items t2 -> IsBST t1 = true -> IsBST t2 = true.
Proof.
  intros E H. apply Ascending_IsBST. rewrite <- E. apply IsBST_Ascending, H.
Qed.

(** X4. A rotation, whether or not it takes place, keeps the in-order
    sequence of entries with their liveness, the number of nodes, and the
    search-tree order. *)
Theorem Rotate_keeps_content n :
  (Items (fst (RotateLeft n)) = Items n
   /\ NodeCount (fst (RotateLeft n)) = NodeCount n
   /\ (IsBST n = true -> IsBST (fst (RotateLeft n)) = true))
  /\ (Items (fst (RotateRight n)) = Items n
      /\ NodeCount (fst (RotateRight n)) = NodeCount n
      /\ (IsBST n = true -> IsBST (fst (RotateRight n)) = true)).
Proof.
  split; (split; [|split]).
  - apply Items_RotateLeft.
  - rewrite !NodeCount_Inorder.
    destruct n as [|e l [|pe pl pr pf] f]; try reflexivity.
    simpl. destruct (Flags.IsRed pf); simpl; [|reflexivity].
    rewrite !length_app. simpl. rewrite !length_app. simpl. lia.
  - apply IsBST_Items. symmetry. apply Items_RotateLeft.
  - apply Items_RotateRight.
  - rewrite !NodeCount_Inorder.
    destruct n as [|e [|pe pl pr pf] r f]; try reflexivity.
    simpl. destruct (Flags.IsRed pf); simpl; [|reflexivity].
    rewrite !length_app. simpl. rewrite !length_app. simpl. lia.
  - apply IsBST_Items. symmetry. apply Items_RotateRight.
Qed.

(** X5. A rotation keeps the black height of the subtree: balanced
    stays balanced with the same count, unbalanced stays unbalanced. *)
Theorem Rotate_keeps_black_height n :
  BlackHeight (fst (RotateLeft n)) = BlackHeight n
  /\ BlackHeight (fst (RotateRight n)) = BlackHeight n.
Proof. split; [apply BlackHeight_RotateLeft|apply BlackHeight_RotateRight]. Qed.

(** *** The reference returned by [Get] *)

Lemma ItemAt_SetBlack n loc : ItemAt (SetBlack n) loc = ItemAt n loc.
Proof.
  destruct n; [reflexivity|]. destruct loc as [|[|] ?]; simpl; try reflexivity.
  rewrite FlagFacts.IsAlive_SetBlack. reflexivity.
Qed.

Lemma ItemAt_RotateLeft n loc :
  ItemAt (fst (RotateLeft n)) (RotateLeft_loc n loc) = ItemAt n loc.
Proof.
  destruct n as [|e l [|pe pl pr pf] f]; try reflexivity.
  simpl. destruct (Flags.IsRed pf) eqn:E; simpl; [|reflexivity].
  destruct loc as [|[|] [|[|] ?]]; simpl;
    rewrite ?FlagFacts.IsAlive_SetRed; try reflexivity;
    destruct (Flags.IsRed f);
    rewrite ?FlagFacts.IsAlive_SetRed, ?FlagFacts.IsAlive_SetBlack; reflexivity.
Qed.

Lemma ItemAt_RotateRight n loc :
  ItemAt (fst (RotateRight n)) (RotateRight_loc n loc) = ItemAt n loc.
Proof.
  destruct n as [|e [|pe pl pr pf] r f]; try reflexivity.
  simpl. destruct (Flags.IsRed pf) eqn:E; simpl; [|reflexivity].
  destruct loc as [|[|] [|[|] ?]]; simpl;
    rewrite ?FlagFacts.IsAlive_SetRed; try reflexivity;
    destruct (Flags.IsRed f);
    rewrite ?FlagFacts.IsAlive_SetRed, ?FlagFacts.IsAlive_SetBlack; reflexivity.
Qed.

Lemma ItemAt_FlipColors n loc : ItemAt (FlipColors n) loc = ItemAt n loc.
Proof.
  destruct n; [reflexivity|]. destruct loc as [|[|] ?]; simpl;
    rewrite ?ItemAt_SetBlack, ?FlagFacts.IsAlive_SetRed; reflexivity.
Qed.

Lemma ItemAt_Repair n loc : ItemAt (Repair n) (Repair_loc n loc) = ItemAt n loc.
Proof.
  unfold Repair, Repair3, Repair_loc, Repair2_loc, Repair2.
  destruct (LeftChildIsRed (Repair1 n) && LeftChildIsRed (lchild (Repair1 n)));
    match goal with
    | |- context [if ?b then FlipColors ?x else ?y] =>
        destruct b; rewrite ?ItemAt_FlipColors
    end;
    rewrite ?ItemAt_RotateRight;
    unfold Repair1, Repair1_loc;
    destruct (RightChildIsRed n && negb (LeftChildIsRed n));
    rewrite ?ItemAt_RotateLeft; reflexivity.
Qed.

Lemma ItemAt_RGet k t :
  ItemAt (fst (RGet t k)) (snd (RGet t k))
  = Some (match FoundAt t k with
          | Some (e0, _) => e0
          | None => mkEntry k D_default
          end, true).
Proof.
  induction t as [|e l IHl r IHr f]; [reflexivity|]. simpl.
  destruct (pred_ k (key_ e)); [|destruct (pred_ (key_ e) k)].
  - destruct (RGet l k) as [l' loc]. simpl in *. rewrite ItemAt_Repair. exact IHl.
  - destruct (RGet r k) as [r' loc]. simpl in *. rewrite ItemAt_Repair. exact IHr.
  - simpl. rewrite ItemAt_Repair. simpl.
    rewrite FlagFacts.IsAlive_SetAlive. reflexivity.
Qed.

Lemma ItemAt_AssignData n : forall loc d,
  ItemAt (AssignData n loc d) loc
  = option_map (fun x => (mkEntry (key_ (fst x)) d, snd x)) (ItemAt n loc).
Proof.
  induction n as [|e l IHl r IHr f]; intros loc d; [reflexivity|].
  destruct loc as [|[|] ?]; simpl; auto.
Qed.

Lemma FoundAt_equiv k t e f :
  FoundAt t k = Some (e, f) -> equiv_ k (key_ e) = true.
Proof.
  induction t as [|e0 l IHl r IHr f0]; simpl; [discriminate|].
  destruct (pred_ k (key_ e0)) eqn:E1; [auto|].
  destruct (pred_ (key_ e0) k) eqn:E2; [auto|].
  intros [= <- <-]. unfold equiv_. rewrite E1, E2. reflexivity.
Qed.

(** X7. For every tree, the reference [Get(k)] returns names a live node
    of the returned tree: the node that the descent for [k] ends on, with
    its entry untouched, or a new entry [(k, D())] when there is none.
    [Put(k,d)] stores [d] in that very slot and keeps the key.  The key
    there is equivalent to [k], and the map is not empty afterwards. *)
Theorem Get_reference k d m :
  let e := match FoundAt (root_ m) k with
           | Some (e0, _) => e0
           | None => mkEntry k D_default
           end in
  ItemAt (root_ (fst (Get k m))) (snd (Get k m)) = Some (e, true)
  /\ ItemAt (root_ (Put k d m)) (snd (Get k m)) = Some (mkEntry (key_ e) d, true)
  /\ equiv_ k (key_ e) = true
  /\ Empty (fst (Get k m)) = false.
Proof.
  intros e. pose proof (ItemAt_RGet k (root_ m)) as H.
  unfold Put, Get. destruct (RGet (root_ m) k) as [root loc] eqn:E. simpl in *.
  split; [|split; [|split]].
  - rewrite ItemAt_SetBlack. exact H.
  - rewrite ItemAt_AssignData, ItemAt_SetBlack, H. reflexivity.
  - unfold e. destruct (FoundAt (root_ m) k) as [[e0 f0]|] eqn:Ef.
    + eapply FoundAt_equiv; eauto.
    + unfold equiv_. simpl. rewrite pred_irrefl. reflexivity.
  - unfold Empty. simpl. destruct root; [discriminate H|reflexivity].
Qed.

(** X6. The repair tail of [RGet] and [RInsert] never writes a
    diagnostic, since it rotates only about a red child, and it keeps the
    in-order sequence of entries with their liveness, the number of nodes
    and the search-tree order. *)
Theorem Repair_keeps_content n :
  Repair_cerr n = []
  /\ Items (Repair n) = Items n
  /\ NodeCount (Repair n) = NodeCount n
  /\ (IsBST n = true -> IsBST (Repair n) = true).
Proof.
  split; [apply Repair_is_silent|].
  split; [apply Items_Repair|]. split.
  - assert (H : forall t, Z.of_nat (NodeCount t) = RNumNodes t).
    { induction t as [|e l IHl r IHr f]; [reflexivity|].
      rewrite RNumNodes_mk, <- IHl, <- IHr. simpl NodeCount. lia. }
    apply Nat2Z.inj. rewrite !H, !RNumNodes_Items, Items_Repair. reflexivity.
  - apply IsBST_Items. symmetry. apply Items_Repair.
Qed.

End RotationFacts.

(** ** The operations as [Retrieve] and the counters see them *)

Section ObservationalLaws.
Context {K D : Type} {P : Predicate K} {DC : DefaultConstructible D}.
Context {SWO : StrictWeakOrdering K}.
Implicit Types (n t l r : Node K D) (e : Entry K D) (k : K) (d v : D) (f : Z).
Implicit Types (m : Map_ADT K D) (x : Item K D) (xs : list (Item K D)).

(** *** Keyed update and search on lists *)

Lemma Find_Upsert_same k fresh upd xs :
  (fresh = [] \/ exists x0, fresh = [x0] /\ item_key x0 = k) ->
  (forall a, item_key (upd a) = item_key a) ->
  Find k (Upsert k fresh upd xs)
  = match Find k xs with
    | Some x => Some (upd x)
    | None => hd_error fresh
    end.
Proof.
  intros Hf Hu.
  assert (Hfresh : forall ys, (forall y, In y ys -> pred_ k (item_key y) = true) ->
                              Find k (fresh ++ ys) = hd_error fresh).
  { intros ys Hys. destruct Hf as [-> | (x0 & -> & Hx)]; simpl.
    - destruct ys as [|y ys]; [reflexivity|]. simpl.
      rewrite (Hys y (or_introl eq_refl)). reflexivity.
    - rewrite Hx, pred_irrefl. reflexivity. }
  induction xs as [|a xs IH]; simpl.
  - rewrite <- (app_nil_r fresh) at 1. apply Hfresh. intros y [].
  - destruct (pred_ k (item_key a)) eqn:E1; [|destruct (pred_ (item_key a) k) eqn:E2].
    + destruct Hf as [-> | (x0 & -> & Hx)]; simpl.
      * rewrite E1. reflexivity.
      * rewrite Hx, pred_irrefl. reflexivity.
    + simpl. rewrite E1, E2. exact IH.
    + simpl. rewrite Hu, E1, E2. reflexivity.
Qed.

Lemma not_equiv k k' :
  equiv_ k k' = false -> pred_ k k' = true \/ pred_ k' k = true.
Proof.
  unfold equiv_. destruct (pred_ k k'), (pred_ k' k); simpl; auto; discriminate.
Qed.

Lemma Find_Upsert_other k k' fresh upd xs :
  equiv_ k k' = false ->
  (fresh = [] \/ exists x0, fresh = [x0] /\ item_key x0 = k) ->
  (forall a, item_key (upd a) = item_key a) ->
  Find k' (Upsert k fresh upd xs) = Find k' xs.
Proof.
  intros Hne Hf Hu.
  assert (Hfresh : forall ys,
             (forall y, In y ys -> pred_ k (item_key y) = true) ->
             Find k' (fresh ++ ys) = Find k' ys).
  { intros ys Hys. destruct Hf as [-> | (x0 & -> & Hx)]; [reflexivity|].
    simpl. rewrite Hx.
    destruct (pred_ k' k) eqn:E1.
    - destruct ys as [|y ys]; [reflexivity|]. simpl.
      rewrite (pred_trans _ _ _ E1 (Hys y (or_introl eq_refl))). reflexivity.
    - destruct (not_equiv _ _ Hne) as [-> | E]; [reflexivity|congruence]. }
  induction xs as [|a xs IH]; simpl.
  - rewrite <- (app_nil_r fresh). apply Hfresh. intros y [].
  - destruct (pred_ k (item_key a)) eqn:E1; [|destruct (pred_ (item_key a) k) eqn:E2].
    + destruct Hf as [-> | (x0 & -> & Hx)]; [reflexivity|].
      simpl. rewrite Hx.
      destruct (pred_ k' k) eqn:E3.
      * rewrite (pred_trans _ _ _ E3 E1). reflexivity.
      * destruct (not_equiv _ _ Hne) as [-> | E]; [reflexivity|congruence].
    + simpl. rewrite IH. reflexivity.
    + simpl. rewrite Hu.
      destruct (pred_ k' (item_key a)) eqn:E3; [reflexivity|].
      destruct (pred_ (item_key a) k') eqn:E4; [reflexivity|].
      assert (Hq : equiv_ k k' = true).
      { apply (equiv_trans k (item_key a) k'); apply equiv_intro; assumption. }
      congruence.
Qed.

Lemma length_Upsert k fresh upd xs :
  length (Upsert k fresh upd xs)
  = (length xs + match Find k xs with Some _ => 0 | None => length fresh end)%nat.
Proof.
  induction xs as [|a xs IH]; simpl.
  - reflexivity.
  - destruct (pred_ k (item_key a)); [|destruct (pred_ (item_key a) k)]; simpl.
    + rewrite length_app. simpl. lia.
    + rewrite IH. lia.
    + lia.
Qed.

Lemma length_Live_Upsert k x0 upd xs :
  snd x0 = true -> (forall a, snd (upd a) = true) ->
  length (Live (Upsert k [x0] upd xs))
  = (length (Live xs)
     + match Find k xs with Some (_, true) => 0 | _ => 1 end)%nat.
Proof.
  intros H0 Hu. unfold Live. rewrite !length_map.
  induction xs as [|a xs IH]; simpl.
  - rewrite H0. reflexivity.
  - destruct (pred_ k (item_key a)); [|destruct (pred_ (item_key a) k)]; simpl.
    + rewrite H0. simpl. destruct (snd a); simpl; lia.
    + destruct (snd a); simpl; rewrite IH; lia.
    + rewrite Hu. destruct a as [e [|]]; simpl; lia.
Qed.

Lemma length_Live_erase k xs :
  (length (Live (Upsert k [] upd_erase xs))
   + match Find k xs with Some (_, true) => 1 | _ => 0 end)%nat
  = length (Live xs).
Proof.
  unfold Live. rewrite !length_map.
  induction xs as [|a xs IH]; simpl.
  - reflexivity.
  - destruct (pred_ k (item_key a)); [|destruct (pred_ (item_key a) k)]; simpl.
    + lia.
    + destruct (snd a); simpl; rewrite <- IH; lia.
    + destruct a as [e [|]]; simpl; lia.
Qed.

Lemma Upsert_ins_twice k v1 v2 xs :
  Upsert k (fresh_ins k v2) (upd_ins v2) (Upsert k (fresh_ins k v1) (upd_ins v1) xs)
  = Upsert k (fresh_ins k v2) (upd_ins v2) xs.
Proof.
  induction xs as [|a xs IH]; simpl.
  - unfold item_key. simpl. rewrite pred_irrefl. reflexivity.
  - destruct (pred_ k (item_key a)) eqn:E1; [|destruct (pred_ (item_key a) k) eqn:E2].
    + simpl. unfold item_key at 1 2. simpl. rewrite pred_irrefl. reflexivity.
    + simpl. rewrite E1, E2, IH. reflexivity.
    + simpl. unfold item_key at 1 2. simpl. fold (item_key a).
      rewrite E1, E2. reflexivity.
Qed.

(** *** The operations as seen through [Retrieve] and the counters *)

Lemma Items_Get k m :
  Sound m ->
  Items (root_ (fst (Get k m))) = Upsert k (fresh_get k) upd_get (Items (root_ m)).
Proof.
  intros Hs. unfold Get. pose proof (Items_RGet k _ (proj1 Hs)) as H.
  destruct (RGet (root_ m) k) as [root loc]. simpl in *.
  rewrite Items_SetBlack. exact H.
Qed.

Lemma Items_Erase_map k m :
  Sound m ->
  Items (root_ (Erase k m)) = Upsert k [] upd_erase (Items (root_ m)).
Proof. intros Hs. apply Items_Erase, Hs. Qed.


Lemma Retrieve_Get k d m :
  Sound m ->
  Retrieve k d (fst (Get k m))
  = (true, match FoundAt (root_ m) k with
           | Some (e0, _) => data_ e0
           | None => D_default
           end).
Proof.
  intros Hs. rewrite Retrieve_Find by (apply Sound_Get, Hs).
  rewrite Items_Get by assumption.
  rewrite Find_Upsert_same;
    [|right; eexists; split; reflexivity|reflexivity].
  rewrite (FoundAt_Find k _ (proj1 Hs)).
  destruct (FoundAt (root_ m) k) as [[e0 f0]|]; reflexivity.
Qed.


(** X9. [Get] on an erased key brings the old data back: after
    [Put(k,v); Erase(k)] the key is not retrievable, and after a following
    [Get(k)] it is retrievable with [v], not with [D()]. *)
Theorem Get_resurrects_old_value k v d m :
  Reachable m ->
  Retrieve k d (Erase k (Put k v m)) = (false, d)
  /\ Retrieve k d (fst (Get k (Erase k (Put k v m)))) = (true, v).
Proof.
  intros Hr. pose proof (Reachable_Sound m Hr) as Hs.
  split; [apply Retrieve_Erase_Put, Hs|].
  rewrite Retrieve_Get by (apply Sound_Erase, Sound_Put, Hs).
  destruct (FoundAt_Put k v m Hs) as (e & f & Hfound & Hd & _).
  unfold Erase. simpl.
  rewrite Erase_UpdateAt, FoundAt_UpdateAt by reflexivity.
  rewrite Hfound. simpl. rewrite Hd. reflexivity.
Qed.


(** X11. A second [Put] on the same key overwrites: [Retrieve] yields
    the second value, the live entries are those of a single [Put] of the
    second value, and neither the node count nor the live count moves. *)
Theorem Put_overwrites k v1 v2 d m :
  Reachable m ->
  Retrieve k d (Put k v2 (Put k v1 m)) = (true, v2)
  /\ LiveEntries (root_ (Put k v2 (Put k v1 m))) = LiveEntries (root_ (Put k v2 m))
  /\ NumNodes (Put k v2 (Put k v1 m)) = NumNodes (Put k v1 m)
  /\ Size (Put k v2 (Put k v1 m)) = Size (Put k v1 m).
Proof.
  intros Hr. pose proof (Reachable_Sound m Hr) as Hs.
  pose proof (Sound_Put k v1 m Hs) as Hs1.
  assert (HI : Items (root_ (Put k v2 (Put k v1 m))) = Items (root_ (Put k v2 m))).
  { rewrite !Items_Put by assumption. apply Upsert_ins_twice. }
  split; [apply Retrieve_Put, Hs1|]. split; [|split].
  - unfold LiveEntries. rewrite HI. reflexivity.
  - unfold NumNodes. rewrite !RNumNodes_Items, HI, !Items_Put by assumption.
    rewrite !length_Upsert. reflexivity.
  - unfold Size. rewrite !RSize_Items, HI, !Items_Put by assumption.
    unfold fresh_ins. rewrite !length_Live_Upsert by reflexivity. reflexivity.
Qed.

Lemma RHeight_Erase k t : RHeight (Erase_loop t k) = RHeight t.
Proof.
  induction t as [|e l IHl r IHr f]; [reflexivity|]. simpl Erase_loop.
  destruct (pred_ k (key_ e)); [|destruct (pred_ (key_ e) k)];
    rewrite !RHeight_mk, ?IHl, ?IHr; reflexivity.
Qed.

(** X13. On a reachable map, after [Erase(k)] a [Retrieve] of [k]
    returns false and leaves the output slot alone; [Retrieve] of every key
    not equivalent to [k] is unchanged; the live count drops by one exactly
    when [k] was retrievable. *)
Theorem Erase_observed k d m :
  Reachable m ->
  Retrieve k d (Erase k m) = (false, d)
  /\ (forall k', equiv_ k k' = false ->
                 Retrieve k' d (Erase k m) = Retrieve k' d m)
  /\ Size (Erase k m) = Size m - (if fst (Retrieve k d m) then 1 else 0).
Proof.
  intros Hr. pose proof (Reachable_Sound m Hr) as Hs.
  pose proof (Sound_Erase k m Hs) as Hs'.
  split; [|split].
  - rewrite Retrieve_Find, Items_Erase_map by assumption.
    rewrite Find_Upsert_same by auto.
    destruct (Find k (Items (root_ m))) as [[e b]|]; reflexivity.
  - intros k' Hne. rewrite !Retrieve_Find, Items_Erase_map by assumption.
    rewrite Find_Upsert_other; auto.
  - unfold Size. rewrite !RSize_Items, Items_Erase_map by assumption.
    rewrite (Retrieve_Find k d m Hs).
    pose proof (length_Live_erase k (Items (root_ m))) as HL.
    destruct (Find k (Items (root_ m))) as [[e [|]]|]; simpl; lia.
Qed.

End ObservationalLaws.

(** ** Structure: [Erase], counters, [Clear], copies, [Includes] *)

Section StructuralLaws.
Context {K D : Type} {P : Predicate K} {DC : DefaultConstructible D}.
Implicit Types (n t l r : Node K D) (e : Entry K D) (k : K) (d v : D) (f : Z).
Implicit Types (m : Map_ADT K D) (x : Item K D) (xs : list (Item K D)).

Lemma Map_ADT_ext m1 m2 : root_ m1 = root_ m2 -> m1 = m2.
Proof. destruct m1, m2. simpl. intros ->. reflexivity. Qed.

Lemma Erase_loop_twice k t : Erase_loop (Erase_loop t k) k = Erase_loop t k.
Proof.
  induction t as [|e l IHl r IHr f]; [reflexivity|]. simpl.
  destruct (pred_ k (key_ e)) eqn:E1; [|destruct (pred_ (key_ e) k) eqn:E2];
    simpl; rewrite ?E1, ?E2, ?IHl, ?IHr, ?FlagRoundTrips.SetDead_SetDead;
    reflexivity.
Qed.

Lemma Erase_loop_absent k t : FoundAt t k = None -> Erase_loop t k = t.
Proof.
  induction t as [|e l IHl r IHr f]; [reflexivity|]. simpl.
  destruct (pred_ k (key_ e)); [|destruct (pred_ (key_ e) k)]; intros H;
    rewrite ?IHl, ?IHr by assumption; try reflexivity. discriminate.
Qed.

Lemma BlackHeight_Erase k t : BlackHeight (Erase_loop t k) = BlackHeight t.
Proof.
  induction t as [|e l IHl r IHr f]; [reflexivity|]. simpl Erase_loop.
  destruct (pred_ k (key_ e)); [|destruct (pred_ (key_ e) k)];
    rewrite !BlackHeight_mk, ?IHl, ?IHr; try reflexivity.
  unfold Flags.IsBlack. rewrite FlagFacts.IsRed_SetDead. reflexivity.
Qed.

(** X14. For every tree, [Erase] twice is [Erase] once, [Erase] of a key
    with no node changes nothing, and [Erase] never changes the number of
    nodes, the height or the black height. *)
Theorem Erase_is_idempotent k m :
  Erase k (Erase k m) = Erase k m
  /\ (FoundAt (root_ m) k = None -> Erase k m = m)
  /\ NumNodes (Erase k m) = NumNodes m
  /\ Height (Erase k m) = Height m
  /\ BlackHeight (root_ (Erase k m)) = BlackHeight (root_ m).
Proof.
  unfold Erase, NumNodes, Height. simpl. repeat split.
  - rewrite Erase_loop_twice. reflexivity.
  - intros H. rewrite Erase_loop_absent by assumption. destruct m. reflexivity.
  - apply RNumNodes_Erase.
  - apply RHeight_Erase.
  - apply BlackHeight_Erase.
Qed.

Lemma RSize_bounds t : 0 <= RSize t <= RNumNodes t.
Proof.
  induction t as [|e l IHl r IHr f]; [cbn; lia|].
  rewrite RSize_mk, RNumNodes_mk. destruct (Flags.IsAlive f); cbn [Z.b2z]; lia.
Qed.

Lemma RHeight_bounds t : -1 <= RHeight t <= RNumNodes t - 1.
Proof.
  induction t as [|e l IHl r IHr f]; [cbn; lia|].
  rewrite RHeight_mk, RNumNodes_mk.
  pose proof (RNumNodes_nonneg l). pose proof (RNumNodes_nonneg r).
  destruct (RHeight l <? RHeight r); lia.
Qed.

(** X17. For every tree the counters agree: the live count lies between
    zero and the node count, the height lies between -1 and the node count
    minus one, and the map is empty exactly when the node count is zero,
    exactly when the height is -1. *)
Theorem Counters_agree m :
  0 <= Size m <= NumNodes m
  /\ -1 <= Height m <= NumNodes m - 1
  /\ (Empty m = true <-> NumNodes m = 0)
  /\ (Empty m = true <-> Height m = -1)
  /\ (Empty m = true -> Size m = 0).
Proof.
  unfold Size, NumNodes, Height, Empty.
  pose proof (RSize_bounds (root_ m)). pose proof (RHeight_bounds (root_ m)).
  destruct (root_ m) as [|e l r f] eqn:E.
  - cbn. repeat split; auto; lia.
  - rewrite RNumNodes_mk in *. rewrite RHeight_mk in *.
    pose proof (RNumNodes_nonneg l). pose proof (RNumNodes_nonneg r).
    pose proof (RHeight_bounds l). pose proof (RHeight_bounds r).
    repeat split; try lia; try discriminate;
      destruct (RHeight l <? RHeight r); lia.
Qed.

(** X18. [Clear] deletes every node exactly once ([RRelease] the
    descendants of the root, then the root) and leaves an empty map: no
    node, height -1. *)
Theorem Clear_releases_every_node m :
  Clear_deleted m = NumNodes m
  /\ RRelease (root_ m) = (if Empty m then 0 else NumNodes m - 1)
  /\ Empty (Clear m) = true
  /\ NumNodes (Clear m) = 0 /\ Size (Clear m) = 0 /\ Height (Clear m) = -1.
Proof.
  pose proof (RRelease_count (root_ m)) as H.
  unfold Clear_deleted, NumNodes, Empty. split; [exact H|]. split.
  - destruct (root_ m); [reflexivity|lia].
  - repeat split.
Qed.

(** X19. [RClone] reproduces the tree node for node, with keys, data,
    colours and tombstones, so a copy-constructed or assigned map has the
    structure, the counters and the live entries of its source. *)
Theorem Copy_is_structural m (that : Map_ADT K D) :
  CopyConstruct m = m
  /\ AssignFrom m that = that
  /\ Size (CopyConstruct m) = Size m
  /\ NumNodes (CopyConstruct m) = NumNodes m
  /\ LiveEntries (root_ (CopyConstruct m)) = LiveEntries (root_ m).
Proof.
  assert (H : CopyConstruct m = m)
    by (unfold CopyConstruct; rewrite RClone_id; destruct m; reflexivity).
  rewrite H. repeat split.
  unfold AssignFrom. rewrite RClone_id. destruct that. reflexivity.
Qed.

(** *** [Includes] *)

Lemma Includes_loop_stack k t : forall stk,
  match FoundAt t k with
  | Some (e, f) =>
      if Flags.IsAlive f
      then exists l r path,
          Includes_loop t k stk = mkNode e l r f :: path ++ stk
          /\ Z.of_nat (length path) <= RHeight t
      else Includes_loop t k stk = []
  | None => Includes_loop t k stk = []
  end.
Proof.
  induction t as [|e l IHl r IHr f]; intros stk; [reflexivity|].
  simpl FoundAt. simpl Includes_loop.
  destruct (pred_ k (key_ e)); [|destruct (pred_ (key_ e) k)].
  - specialize (IHl (mkNode e l r f :: stk)).
    destruct (FoundAt l k) as [[e' f']|]; [|exact IHl].
    destruct (Flags.IsAlive f'); [|exact IHl].
    destruct IHl as (l' & r' & path & Hp & Hlen).
    exists l', r', (path ++ [mkNode e l r f]). split.
    + rewrite Hp, <- app_assoc. reflexivity.
    + rewrite length_app, RHeight_mk. simpl length.
      destruct (RHeight l <? RHeight r) eqn:E;
        [apply Z.ltb_lt in E|]; lia.
  - specialize (IHr (mkNode e l r f :: stk)).
    destruct (FoundAt r k) as [[e' f']|]; [|exact IHr].
    destruct (Flags.IsAlive f'); [|exact IHr].
    destruct IHr as (l' & r' & path & Hp & Hlen).
    exists l', r', (path ++ [mkNode e l r f]). split.
    + rewrite Hp, <- app_assoc. reflexivity.
    + rewrite length_app, RHeight_mk. simpl length.
      destruct (RHeight l <? RHeight r) eqn:E;
        [|apply Z.ltb_ge in E]; lia.
  - unfold IsAlive, IsDead, Flags.IsAlive. simpl flags.
    destruct (Flags.IsDead f); simpl; [reflexivity|].
    exists l, r, []. split; [reflexivity|].
    pose proof (RHeight_bounds l). pose proof (RHeight_bounds r).
    change (0 <= RHeight (mkNode e l r f)).
    rewrite RHeight_mk. destruct (RHeight l <? RHeight r); lia.
Qed.

Context {SWO : StrictWeakOrdering K}.

(** X21. On a reachable map [Includes(k)] is [End] exactly when
    [Retrieve] fails; otherwise the top of the returned stack is a live
    node with a key equivalent to [k] holding the retrieved data, and the
    stack below it, the path from the root, has at most [Height()] nodes,
    hence at most [2 log2(NumNodes() + 1) - 1]. *)
Theorem Includes_positions k d m :
  Reachable m ->
  (Includes k m = [] <-> Retrieve k d m = (false, d))
  /\ (forall n path, Includes k m = n :: path ->
        IsAlive n = true
        /\ (exists e l r f, n = mkNode e l r f /\ equiv_ k (key_ e) = true
                            /\ Retrieve k d m = (true, data_ e))
        /\ Z.of_nat (length path) <= Height m
        /\ Z.of_nat (length path) <= 2 * Z.log2 (NumNodes m + 1) - 1).
Proof.
  intros Hr. pose proof (Reachable_Sound m Hr) as Hs.
  pose proof (Includes_loop_stack k (root_ m) []) as H.
  rewrite Retrieve_FoundAt. unfold Includes.
  destruct (FoundAt (root_ m) k) as [[e f]|] eqn:Ef.
  - destruct (Flags.IsAlive f) eqn:Ea.
    + destruct H as (l & r & path & Hp & Hlen). rewrite app_nil_r in Hp.
      rewrite Hp. split; [split; discriminate|].
      intros n path' [= <- <-]. split; [|split; [|split]].
      * unfold IsAlive, IsDead. simpl. exact Ea.
      * exists e, l, r, f. split; [reflexivity|]. split; [|reflexivity].
        eapply FoundAt_equiv; eauto.
      * exact Hlen.
      * destruct (Sound_height m Hs) as [Hh _]. unfold Height in Hh.
        destruct Hs as (_ & [h Hh'] & Hroot & _).
        destruct (LLRB_height _ _ Hh') as [H1 H2]. rewrite Hroot in H1.
        change (Z.b2z false) with 0 in H1.
        pose proof (RNumNodes_nonneg (root_ m)) as Hn.
        assert (Hlog : Z.of_nat h <= Z.log2 (RNumNodes (root_ m) + 1))
          by (apply Z.log2_le_pow2; lia).
        unfold NumNodes. lia.
    + rewrite H. split; [split; reflexivity|]. intros n path [=].
  - rewrite H. split; [split; reflexivity|]. intros n path [=].
Qed.

End StructuralLaws.

(** ** [Rehash] and [operator ==] *)

Section RehashEqualLaws.
Context {K D : Type} {P : Predicate K} {DC : DefaultConstructible D}.
Context {SWO : StrictWeakOrdering K}.
Implicit Types (m : Map_ADT K D).



Context {NEK : NotEqual K} {NED : NotEqual D} {NEQ : NotEqualDecides K D}.



End RehashEqualLaws.

(** ** [DumpBW] *)

Section DumpFacts.
Context {K D : Type}.
Implicit Types (n t l r root : Node K D) (q acc : list (Slot K D)).

Lemma DumpBW_for_all q : forall acc os (c : nat),
  DumpBW_for (length q) (q ++ acc) os c
  = (acc ++ flat_map SlotKids q, os ++ map SlotGlyph q,
     (c + fold_right (fun s a => (SlotCount s + a)%nat) O q)%nat).
Proof.
  induction q as [|s q IH]; intros acc os c; simpl.
  - rewrite !app_nil_r, Nat.add_0_r. destruct acc; reflexivity.
  - rewrite <- app_assoc, IH, <- !app_assoc. simpl.
    rewrite Nat.add_assoc. reflexivity.
Qed.

Lemma Reals_app q1 q2 : Reals (q1 ++ q2) = (Reals q1 + Reals q2)%nat.
Proof. unfold Reals. rewrite filter_app, length_app. reflexivity. Qed.

Lemma PushChild_Reals (c : Node K D) : Reals [PushChild c] = CountChild c.
Proof. destruct c; reflexivity. Qed.

Lemma SlotCount_Reals (s : Slot K D) : SlotCount s = Reals (SlotKids s).
Proof.
  destruct s as [[|e l r f]|]; try reflexivity. simpl SlotKids.
  change [PushChild l; PushChild r] with ([PushChild l] ++ [PushChild r]).
  rewrite Reals_app, !PushChild_Reals. reflexivity.
Qed.

Lemma count_kids q :
  fold_right (fun s a => (SlotCount s + a)%nat) O q = Reals (flat_map SlotKids q).
Proof.
  induction q as [|s q IH]; simpl; [reflexivity|].
  rewrite Reals_app, IH, SlotCount_Reals. reflexivity.
Qed.

Lemma length_kids q : length (flat_map SlotKids q) = (2 * length q)%nat.
Proof.
  induction q as [|s q IH]; simpl; [reflexivity|].
  rewrite length_app, IH. destruct s as [[|e l r f]|]; simpl; lia.
Qed.

Lemma Level_S root i : Level root (S i) = flat_map SlotKids (Level root i).
Proof. reflexivity. Qed.

Lemma length_Level root i : length (Level root i) = (2 ^ i)%nat.
Proof.
  induction i as [|i IH]; [reflexivity|].
  rewrite Level_S, length_kids, IH. simpl. lia.
Qed.

(** Levels of a queue, to relate occupancy with the height. *)
Lemma iter_kids_app i : forall q1 q2,
  Nat.iter i (flat_map SlotKids) (q1 ++ q2)
  = Nat.iter i (flat_map SlotKids) q1 ++ Nat.iter i (flat_map SlotKids) q2.
Proof.
  induction i as [|i IH]; intros q1 q2; simpl; [reflexivity|].
  rewrite IH, flat_map_app. reflexivity.
Qed.

Lemma iter_kids_shift i : forall q,
  Nat.iter (S i) (flat_map SlotKids) q
  = Nat.iter i (flat_map SlotKids) (flat_map SlotKids q).
Proof.
  induction i as [|i IH]; intros q; [reflexivity|].
  change (Nat.iter (S (S i)) (flat_map SlotKids) q)
    with (flat_map SlotKids (Nat.iter (S i) (flat_map SlotKids) q)).
  rewrite IH. reflexivity.
Qed.

Lemma Reals_None i : Reals (Nat.iter i (flat_map SlotKids) [@None (Node K D)]) = O.
Proof.
  induction i as [|i IH]; [reflexivity|].
  rewrite iter_kids_shift. simpl flat_map.
  change [@None (Node K D); None] with ([@None (Node K D)] ++ [None]).
  rewrite iter_kids_app, Reals_app, IH. reflexivity.
Qed.

Lemma Reals_Level_height i : forall t,
  (0 < Reals (Nat.iter i (flat_map SlotKids) [PushChild t]))%nat
  <-> Z.of_nat i <= RHeight t.
Proof.
  induction i as [|i IH]; intros t.
  - destruct t as [|e l r f].
    + cbn. lia.
    + pose proof (RHeight_bounds l). pose proof (RHeight_bounds r).
      rewrite RHeight_mk.
      change (Reals (Nat.iter 0 (flat_map SlotKids) [PushChild (mkNode e l r f)]))
        with 1%nat.
      change (Z.of_nat 0) with 0.
      destruct (RHeight l <? RHeight r); lia.
  - rewrite iter_kids_shift. destruct t as [|e l r f].
    + simpl flat_map.
      change [@None (Node K D); None] with ([@None (Node K D)] ++ [None]).
      rewrite iter_kids_app, Reals_app, !Reals_None. cbn. lia.
    + simpl flat_map. rewrite ?app_nil_r.
      change [PushChild l; PushChild r] with ([PushChild l] ++ [PushChild r]).
      rewrite iter_kids_app, Reals_app, RHeight_mk.
      specialize (IH l) as IHl. specialize (IH r) as IHr.
      destruct (RHeight l <? RHeight r) eqn:E;
        [apply Z.ltb_lt in E|apply Z.ltb_ge in E]; lia.
Qed.

Lemma DumpBW_while_rows root j : forall fuel i os,
  (j <= fuel)%nat ->
  Z.of_nat (i + j) = RHeight root + 1 ->
  DumpBW_while fuel (Reals (Level root i)) (length (Level root i)) (Level root i) os
  = os ++ flat_map (Row root) (seq i j).
Proof.
  induction j as [|j IH]; intros fuel i os Hfuel Hi.
  - assert (Hz : Reals (Level root i) = O).
    { pose proof (Reals_Level_height i root) as H. unfold Level.
      destruct (Reals _); [reflexivity|]. lia. }
    rewrite Hz, app_nil_r. destruct fuel; reflexivity.
  - destruct fuel as [|fuel]; [lia|].
    assert (Hp : (0 < Reals (Level root i))%nat).
    { apply (Reals_Level_height i root). lia. }
    simpl DumpBW_while.
    destruct (Reals (Level root i)) as [|c] eqn:Ec; [lia|].
    rewrite <- (app_nil_r (Level root i)) at 2.
    rewrite DumpBW_for_all. simpl app at 1.
    rewrite count_kids. simpl Nat.add at 1.
    change (flat_map SlotKids (Level root i)) with (Level root (S i)).
    replace (length (Level root i) + (length (Level root i) + 0))%nat
      with (length (Level root (S i)))
      by (rewrite Level_S, length_kids; lia).
    rewrite IH by lia.
    simpl seq. simpl flat_map. unfold Row at 2.
    rewrite <- !app_assoc. reflexivity.
Qed.

Lemma NodeCount_RNumNodes t : RNumNodes t = Z.of_nat (NodeCount t).
Proof.
  induction t as [|e l IHl r IHr f]; [reflexivity|].
  rewrite RNumNodes_mk, IHl, IHr. simpl NodeCount. lia.
Qed.

(** X24. [DumpBW] prints one line per level of the tree, [Height() + 1]
    lines in all and nothing for an empty map: line [i] is a space, the
    [2 ^ i] positions of level [i] from left to right, each the glyph of
    the node there or [-] when there is none, and a newline. *)
Theorem DumpBW_prints_levels (m : Map_ADT K D) :
  DumpBW m = flat_map (Row (root_ m)) (seq 0 (Z.to_nat (Height m + 1)))
  /\ (forall i, length (Row (root_ m) i) = (2 ^ i + 2)%nat)
  /\ (Empty m = true -> DumpBW m = []).
Proof.
  split; [|split].
  - unfold DumpBW, Height. destruct (root_ m) as [|e l r f] eqn:E; [reflexivity|].
    rewrite <- E.
    pose proof (RHeight_bounds (root_ m)) as Hb.
    assert (H0 : 0 <= RHeight (root_ m)).
    { rewrite E, RHeight_mk.
      pose proof (RHeight_bounds l). pose proof (RHeight_bounds r).
      destruct (RHeight l <? RHeight r); lia. }
    replace (Z.to_nat (RHeight (root_ m) + 1))
      with (S (Z.to_nat (RHeight (root_ m)))) by lia.
    simpl seq. simpl flat_map.
    pose proof (DumpBW_while_rows (root_ m) (Z.to_nat (RHeight (root_ m)))
                  (NodeCount (root_ m)) 1 (Row (root_ m) 0)) as Hw.
    assert (Hc : Reals (Level (root_ m) 1) = (CountChild l + CountChild r)%nat)
      by (rewrite E; destruct l, r; reflexivity).
    rewrite Hc in Hw.
    transitivity (Row (root_ m) 0
                  ++ flat_map (Row (root_ m)) (seq 1 (Z.to_nat (RHeight (root_ m)))));
      [|rewrite E; reflexivity].
    rewrite <- Hw.
    + rewrite E. reflexivity.
    + rewrite NodeCount_RNumNodes in Hb. lia.
    + lia.
  - intros i. unfold Row. simpl. rewrite length_app, length_map, length_Level.
    simpl. lia.
  - unfold Empty, DumpBW. destruct (root_ m); [reflexivity|discriminate].
Qed.

End DumpFacts.

(** ** Operations that leave the tree as it is *)

Section InPlaceLaws.
Context {K D : Type} {P : Predicate K} {DC : DefaultConstructible D}.
Context {SWO : StrictWeakOrdering K}.
Implicit Types (n t l r : Node K D) (e : Entry K D) (k : K) (d v : D) (f : Z).
Implicit Types (m : Map_ADT K D) (x : Item K D) (xs : list (Item K D)).

Lemma Retrieve_true_FoundAt k d v m :
  Retrieve k d m = (true, v) ->
  exists e f, FoundAt (root_ m) k = Some (e, f)
              /\ data_ e = v /\ Flags.IsDead f = false.
Proof.
  rewrite Retrieve_FoundAt.
  destruct (FoundAt (root_ m) k) as [[e f]|]; [|discriminate].
  unfold Flags.IsAlive. destruct (Flags.IsDead f) eqn:E; [discriminate|].
  intros [= <-]. eauto.
Qed.

Lemma Retrieve_false_FoundAt k d m :
  Retrieve k d m = (false, d) ->
  FoundAt (root_ m) k = None
  \/ exists e f, FoundAt (root_ m) k = Some (e, f) /\ Flags.IsDead f = true.
Proof.
  rewrite Retrieve_FoundAt.
  destruct (FoundAt (root_ m) k) as [[e f]|]; [|auto].
  unfold Flags.IsAlive. destruct (Flags.IsDead f) eqn:E; [|discriminate].
  right. eauto.
Qed.

Lemma Put_in_place k v m e f :
  Sound m -> FoundAt (root_ m) k = Some (e, f) ->
  root_ (Put k v m)
  = UpdateAt (fun e f => (mkEntry (key_ e) v, Flags.SetAlive f)) (root_ m) k.
Proof.
  intros (Ha & [h Hh] & Hr & Hf) Hfound. rewrite Put_RInsert. simpl.
  rewrite (RInsert_present k v h) by (auto; congruence).
  apply SetBlack_same.
  - rewrite IsRed_UpdateAt; [assumption|intros; apply FlagFacts.IsRed_SetAlive].
  - clear Hh Hr Ha Hfound.
    induction (root_ m) as [|e0 l IHl r IHr f0]; [reflexivity|].
    apply FlagsOK_mk in Hf. destruct Hf as (H1 & H2 & H3). simpl.
    destruct (pred_ k (key_ e0)); [|destruct (pred_ (key_ e0) k)];
      apply FlagsOK_mk; auto using FlagFacts.four_SetAlive.
Qed.

(** X12. On a reachable map, [Put] of the value a key already holds
    leaves the tree exactly as it is, and it undoes an [Erase] of that key:
    no rotation, no colour change, no new node. *)
Theorem Put_of_stored_value_is_identity k v d m :
  Reachable m -> Retrieve k d m = (true, v) ->
  Put k v m = m /\ Put k v (Erase k m) = m.
Proof.
  intros Hr Hret. pose proof (Reachable_Sound m Hr) as Hs.
  destruct (Retrieve_true_FoundAt k d v m Hret) as (e & f & Hfound & Hd & Hal).
  assert (Hfour : Flags.four f) by (eapply FoundAt_four; [apply Hs|eauto]).
  split; apply Map_ADT_ext.
  - rewrite (Put_in_place k v m e f Hs Hfound).
    apply (UpdateAt_same _ k _ e f Hfound).
    rewrite FlagFacts.SetAlive_alive by assumption.
    destruct e; simpl in *; subst; reflexivity.
  - assert (Hfe : FoundAt (root_ (Erase k m)) k = Some (e, Flags.SetDead f)).
    { unfold Erase. simpl. rewrite Erase_UpdateAt, FoundAt_UpdateAt by reflexivity.
      rewrite Hfound. reflexivity. }
    rewrite (Put_in_place k v _ _ _ (Sound_Erase k m Hs) Hfe).
    unfold Erase. simpl. rewrite Erase_UpdateAt.
    rewrite UpdateAt_compose by reflexivity. simpl.
    apply (UpdateAt_same _ k _ e f Hfound).
    rewrite FlagFacts.SetAlive_SetDead by assumption.
    destruct e; simpl in *; subst; reflexivity.
Qed.

(** X15. On a reachable map, [Erase] of a key that is not retrievable
    (absent, or already a tombstone) leaves the tree exactly as it is. *)
Theorem Erase_without_live_entry_is_identity k d m :
  Reachable m -> Retrieve k d m = (false, d) -> Erase k m = m.
Proof.
  intros Hr Hret. pose proof (Reachable_Sound m Hr) as Hs.
  apply Map_ADT_ext. unfold Erase. simpl.
  destruct (Retrieve_false_FoundAt k d m Hret) as [Hn | (e & f & Hfound & Hdead)].
  - apply Erase_loop_absent, Hn.
  - rewrite Erase_UpdateAt. apply (UpdateAt_same _ k _ e f Hfound).
    rewrite FlagRoundTrips.SetDead_dead; [reflexivity| |assumption].
    eapply FoundAt_four; [apply Hs|eauto].
Qed.

Lemma all_alive_of_length xs :
  length (Live xs) = length xs -> Forall (fun x => snd x = true) xs.
Proof.
  unfold Live. rewrite length_map.
  induction xs as [|a xs IH]; simpl; [constructor|].
  pose proof (filter_length_le snd xs) as Hle.
  destruct (snd a) eqn:E; simpl; intros H.
  - constructor; [assumption|]. apply IH. lia.
  - exfalso. unfold Item in *. rewrite H in Hle. lia.
Qed.

Lemma Find_In k xs x : Find k xs = Some x -> In x xs.
Proof.
  induction xs as [|a xs IH]; simpl; [discriminate|].
  destruct (pred_ k (item_key a)); [discriminate|].
  destruct (pred_ (item_key a) k); [auto|]. intros [= ->]. auto.
Qed.

Lemma length_Live_ins k v xs :
  length (Live (Upsert k (fresh_ins k v) (upd_ins v) xs))
  = (length (Live xs)
     + match Find k xs with Some (_, true) => 0 | _ => 1 end)%nat.
Proof. apply length_Live_Upsert; reflexivity. Qed.

Lemma length_Live_get k xs :
  length (Live (Upsert k (fresh_get k) upd_get xs))
  = (length (Live xs)
     + match Find k xs with Some (_, true) => 0 | _ => 1 end)%nat.
Proof. apply length_Live_Upsert; reflexivity. Qed.

(** X16. No operation other than [Erase] creates a tombstone: on a
    reachable map without tombstones, [Put], [Get], [Clear] and copy
    construction leave a map without tombstones, and so does [Rehash]. *)
Theorem Only_Erase_makes_tombstones k v m :
  Reachable m -> Size m = NumNodes m ->
  Size (Put k v m) = NumNodes (Put k v m)
  /\ Size (fst (Get k m)) = NumNodes (fst (Get k m))
  /\ Size (Rehash m) = NumNodes (Rehash m)
  /\ Size (Clear m) = NumNodes (Clear m)
  /\ Size (CopyConstruct m) = NumNodes (CopyConstruct m).
Proof.
  intros Hr Hsz. pose proof (Reachable_Sound m Hr) as Hs.
  assert (Hall : Forall (fun x => snd x = true) (Items (root_ m))).
  { apply all_alive_of_length. unfold Size, NumNodes in Hsz.
    rewrite RSize_Items, RNumNodes_Items in Hsz. lia. }
  assert (Hfind : match Find k (Items (root_ m)) with
                  | Some (_, true) => 0%nat | _ => 1%nat end
                  = match Find k (Items (root_ m)) with
                    | Some _ => 0%nat | None => 1%nat end).
  { destruct (Find k (Items (root_ m))) as [[e b]|] eqn:E; [|reflexivity].
    apply Find_In in E. rewrite Forall_forall in Hall.
    specialize (Hall _ E). simpl in Hall. subst. reflexivity. }
  unfold Size, NumNodes in *. rewrite RSize_Items, RNumNodes_Items in Hsz.
  split; [|split; [|split; [|split]]].
  - rewrite RSize_Items, RNumNodes_Items, Items_Put by assumption.
    rewrite length_Live_ins, length_Upsert, Hfind. simpl length. lia.
  - rewrite RSize_Items, RNumNodes_Items, Items_Get by assumption.
    rewrite length_Live_get, length_Upsert, Hfind. simpl length. lia.
  - symmetry. apply (Rehash_spec m Hs).
  - reflexivity.
  - unfold CopyConstruct. simpl. rewrite RClone_id.
    rewrite RSize_Items, RNumNodes_Items. lia.
Qed.

End InPlaceLaws.

(** ** [operator=] and the free store *)

Section MemoryFacts.

Context {K D : Type}.
Implicit Types (p n l r : Ptr K D) (h : Heap) (s : Memory K D) (x a b : nat).

Lemma NoDup_app_iff {A} (l1 l2 : list A) :
  NoDup (l1 ++ l2)
  <-> NoDup l1 /\ NoDup l2 /\ (forall u, In u l1 -> ~ In u l2).
Proof.
  induction l1 as [|y l1 IH]; simpl.
  - split; [intros H; repeat split; [constructor|exact H|tauto]|tauto].
  - split.
    + intros H. inversion H as [|? ? Hn Hd]; subst.
      apply IH in Hd. destruct Hd as (H1 & H2 & H3).
      rewrite in_app_iff in Hn.
      repeat split; [constructor; tauto|exact H2|].
      intros u [->|Hu]; [tauto|auto].
    + intros (H1 & H2 & H3). inversion H1 as [|? ? Hn Hd]; subst.
      constructor.
      * rewrite in_app_iff. intros [Hy|Hy]; [tauto|].
        exact (H3 y (or_introl eq_refl) Hy).
      * apply IH. repeat split; auto.
Qed.

(** *** [RClone] *)

Lemma RClone_at_spec n : forall h,
  Pointee (fst (RClone_at n h)) = Pointee n
  /\ Addrs (fst (RClone_at n h)) = seq (brk h) (length (Addrs n))
  /\ brk (snd (RClone_at n h)) = (brk h + length (Addrs n))%nat
  /\ live (snd (RClone_at n h)) = rev (Addrs (fst (RClone_at n h))) ++ live h
  /\ faults (snd (RClone_at n h)) = faults h.
Proof.
  induction n as [|a e l IHl r IHr f]; intros h.
  - simpl. repeat split. lia.
  - simpl.
    specialize (IHl (mkHeap (S (brk h)) (brk h :: live h) (faults h))).
    destruct (RClone_at l (mkHeap (S (brk h)) (brk h :: live h) (faults h)))
      as [l' h2]. cbn [fst snd brk live faults] in IHl.
    destruct IHl as (L1 & L2 & L3 & L4 & L5).
    specialize (IHr h2).
    destruct (RClone_at r h2) as [r' h3]. cbn [fst snd] in *.
    destruct IHr as (R1 & R2 & R3 & R4 & R5).
    cbn [Pointee Addrs]. rewrite L1, R1, L2, R2.
    split; [destruct e; reflexivity|].
    split.
    { rewrite length_app, L3. cbn [length seq]. rewrite seq_app. reflexivity. }
    split; [rewrite R3, L3; cbn [length]; rewrite length_app; lia|].
    split.
    { rewrite R4, L4, R2, L2. cbn [rev].
      rewrite rev_app_distr, <- !app_assoc. reflexivity. }
    congruence.
Qed.

(** *** [RRelease] and [delete] *)

Lemma existsb_eqb_In a (xs : list nat) : existsb (Nat.eqb a) xs = true <-> In a xs.
Proof.
  rewrite existsb_exists. split.
  - intros (x & Hx & E). apply Nat.eqb_eq in E. subst. exact Hx.
  - intros H. exists a. split; [exact H|apply Nat.eqb_refl].
Qed.

Lemma operator_delete_live a h :
  In a (live h) ->
  faults (operator_delete a h) = faults h
  /\ brk (operator_delete a h) = brk h
  /\ (NoDup (live h) -> NoDup (live (operator_delete a h)))
  /\ (forall x, In x (live (operator_delete a h)) <-> In x (live h) /\ x <> a).
Proof.
  intros Ha. unfold operator_delete.
  rewrite (proj2 (existsb_eqb_In a (live h)) Ha). cbn [faults brk live].
  repeat split.
  - apply NoDup_filter.
  - apply filter_In in H. tauto.
  - apply filter_In in H. destruct H as [_ H]. apply negb_true_iff in H.
    apply Nat.eqb_neq in H. congruence.
  - intros [H1 H2]. apply filter_In. split; [exact H1|].
    apply negb_true_iff, Nat.eqb_neq. congruence.
Qed.

Lemma RRelease_at_node a e l r f h :
  RRelease_at (node_at a e l r f) h = Clear_at r (Clear_at l h).
Proof. destruct l, r; reflexivity. Qed.

Lemma Clear_at_spec p : forall h,
  NoDup (Addrs p) -> (forall x, In x (Addrs p) -> In x (live h)) ->
  faults (Clear_at p h) = faults h
  /\ brk (Clear_at p h) = brk h
  /\ (NoDup (live h) -> NoDup (live (Clear_at p h)))
  /\ (forall x, In x (live (Clear_at p h))
                <-> In x (live h) /\ ~ In x (Addrs p)).
Proof.
  induction p as [|a e l IHl r IHr f]; intros h Hnd Hin.
  - unfold Clear_at. simpl. repeat split; tauto.
  - cbn [Addrs] in Hnd, Hin. inversion Hnd as [|? ? Ha Hlr]; subst.
    apply NoDup_app_iff in Hlr. destruct Hlr as (Hl & Hr & Hdis).
    rewrite in_app_iff in Ha.
    destruct (IHl h Hl) as (L1 & L2 & L3 & L4).
    { intros x Hx. apply Hin. right. apply in_app_iff. auto. }
    destruct (IHr (Clear_at l h) Hr) as (R1 & R2 & R3 & R4).
    { intros x Hx. apply L4. split.
      - apply Hin. right. apply in_app_iff. auto.
      - intros Hxl. exact (Hdis x Hxl Hx). }
    unfold Clear_at at 1 2 3 4. cbv zeta. rewrite RRelease_at_node.
    destruct (operator_delete_live a (Clear_at r (Clear_at l h)))
      as (D1 & D2 & D3 & D4).
    { apply R4. split; [|tauto]. apply L4. split; [|tauto].
      apply Hin. left. reflexivity. }
    split; [congruence|]. split; [congruence|]. split; [auto|].
    intros x. rewrite D4, R4, L4. cbn [Addrs In]. rewrite in_app_iff.
    split.
    + intros (((H1 & H2) & H3) & H4). split; [exact H1|].
      intros [E|[E|E]]; [congruence|tauto|tauto].
    + intros (H1 & H2).
      repeat split; try tauto; intros E; apply H2; left; congruence.
Qed.

(** *** The list of roots *)

Lemma SetRoot_split (pre post : list (Ptr K D)) p q :
  SetRoot (pre ++ p :: post) (length pre) q = pre ++ q :: post.
Proof. induction pre as [|y pre IH]; simpl; [reflexivity|rewrite IH; reflexivity]. Qed.

Lemma nth_error_SetRoot_other (rs : list (Ptr K D)) a c q :
  c <> a -> nth_error (SetRoot rs a q) c = nth_error rs c.
Proof.
  revert a c. induction rs as [|hd tl IH]; intros [|a] [|c] H; simpl;
    try reflexivity; try congruence.
  apply IH. congruence.
Qed.

Lemma nth_error_SetRoot_same (rs : list (Ptr K D)) a q p :
  nth_error rs a = Some p -> nth_error (SetRoot rs a q) a = Some q.
Proof.
  revert a. induction rs as [|hd tl IH]; intros [|a] H; simpl in *;
    try discriminate; auto.
Qed.

Lemma Owned_split (pre post : list (Ptr K D)) p x :
  In x (flat_map (@Addrs K D) (pre ++ p :: post))
  <-> In x (flat_map (@Addrs K D) pre) \/ In x (Addrs p)
      \/ In x (flat_map (@Addrs K D) post).
Proof. rewrite flat_map_app. cbn [flat_map]. rewrite !in_app_iff. tauto. Qed.

Lemma In_Owned_nth s b p x :
  nth_error (roots s) b = Some p -> In x (Addrs p) -> In x (Owned s).
Proof.
  intros Hb Hx. unfold Owned. apply in_flat_map. exists p.
  split; [eapply nth_error_In; eauto|exact Hx].
Qed.

(** X20. [operator=] on objects in memory.  In a memory in order, assignment
    (self-assignment included) returns the target and leaves the memory
    in order: the live nodes are again exactly the nodes the objects
    hold, none held twice.  No [delete] hits an address that is not live.
    The target then points to a tree with the contents of the source
    tree; for two different objects every node of it is new, not one of
    the nodes held before, and no node of the old target tree is live any
    more.  The source and every other object are untouched. *)
Theorem Assign_keeps_memory_in_order s a b rthis rthat :
  Intact s ->
  nth_error (roots s) a = Some rthis ->
  nth_error (roots s) b = Some rthat ->
  snd (Assign_at a b s) = a
  /\ Intact (fst (Assign_at a b s))
  /\ faults (heap (fst (Assign_at a b s))) = faults (heap s)
  /\ (exists r', nth_error (roots (fst (Assign_at a b s))) a = Some r'
                 /\ Pointee r' = Pointee rthat
                 /\ (a <> b -> forall x, In x (Addrs r') -> ~ In x (Owned s)))
  /\ (a <> b -> forall x, In x (Addrs rthis) ->
                 ~ In x (live (heap (fst (Assign_at a b s)))))
  /\ (forall c, c <> a ->
        nth_error (roots (fst (Assign_at a b s))) c = nth_error (roots s) c).
Proof.
  intros (HO & HL & HLO & HB) Ha Hb. unfold Assign_at.
  destruct (Nat.eqb a b) eqn:Eab; cbn [negb].
  { apply Nat.eqb_eq in Eab. subst b. cbn [fst snd].
    split; [reflexivity|]. split; [repeat split; auto; apply HLO|].
    split; [reflexivity|]. split.
    - exists rthis. split; [exact Ha|]. split; [congruence|]. intros H; congruence.
    - split; [intros H; congruence|reflexivity]. }
  apply Nat.eqb_neq in Eab. rewrite Ha, Hb.
  destruct (nth_error_split _ _ Ha) as (pre & post & Hroots & Hlen).
  assert (HOs : forall x, In x (Owned s)
                 <-> In x (flat_map (@Addrs K D) pre) \/ In x (Addrs rthis)
                     \/ In x (flat_map (@Addrs K D) post)).
  { intros x. unfold Owned. rewrite Hroots. apply Owned_split. }
  assert (HOd : NoDup (flat_map (@Addrs K D) pre) /\ NoDup (Addrs rthis)
                /\ NoDup (flat_map (@Addrs K D) post)
                /\ (forall x, In x (flat_map (@Addrs K D) pre) ->
                       ~ In x (Addrs rthis)
                       /\ ~ In x (flat_map (@Addrs K D) post))
                /\ (forall x, In x (Addrs rthis) ->
                       ~ In x (flat_map (@Addrs K D) post))).
  { unfold Owned in HO. rewrite Hroots, flat_map_app in HO. cbn [flat_map] in HO.
    apply NoDup_app_iff in HO. destruct HO as (H1 & H23 & H123).
    apply NoDup_app_iff in H23. destruct H23 as (H2 & H3 & H23).
    repeat split; auto.
    - intros Hx. apply (H123 x H). apply in_app_iff. auto.
    - intros Hx. apply (H123 x H). apply in_app_iff. auto. }
  destruct HOd as (Dpre & Dthis & Dpost & Xpre & Xthis).
  destruct (Clear_at_spec rthis (heap s) Dthis) as (C1 & C2 & C3 & C4).
  { intros x Hx. apply HLO, HOs. auto. }
  specialize (C3 HL).
  pose proof (RClone_at_spec rthat (Clear_at rthis (heap s)))
    as (Q1 & Q2 & Q3 & Q4 & Q5).
  destruct (RClone_at rthat (Clear_at rthis (heap s))) as [r' h2].
  cbn [fst snd roots heap] in *.
  assert (Hfresh : forall x, In x (Addrs r') ->
                     (brk (heap s) <= x)%nat
                     /\ (x < brk h2)%nat).
  { intros x Hx. rewrite Q2 in Hx. apply in_seq in Hx. rewrite Q3, C2 in *. lia. }
  assert (Hnew : forall x, In x (Addrs r') -> ~ In x (Owned s)).
  { intros x Hx Hox. apply HLO in Hox. apply HB in Hox.
    apply Hfresh in Hx. lia. }
  assert (Hroots' : SetRoot (roots s) a r' = pre ++ r' :: post).
  { rewrite Hroots, <- Hlen. apply SetRoot_split. }
  split; [reflexivity|]. split.
  { unfold Intact, Owned. cbn [roots heap]. rewrite Hroots'.
    split; [|split; [|split]].
    - rewrite flat_map_app. cbn [flat_map].
      apply NoDup_app_iff. split; [exact Dpre|]. split.
      + apply NoDup_app_iff. split; [|split; [exact Dpost|]].
        * rewrite Q2. apply seq_NoDup.
        * intros x Hx Hp. apply (Hnew x Hx). apply HOs. auto.
      + intros x Hx Hin. apply in_app_iff in Hin. destruct Hin as [Hin|Hin].
        * apply (Hnew x Hin). apply HOs. auto.
        * exact (proj2 (Xpre x Hx) Hin).
    - rewrite Q4. apply NoDup_app_iff. split; [|split; [exact C3|]].
      + apply NoDup_rev. rewrite Q2. apply seq_NoDup.
      + intros x Hx Hl. apply in_rev in Hx. apply C4 in Hl.
        destruct Hl as [Hl _]. apply (Hnew x Hx). apply HLO. exact Hl.
    - intros x. rewrite Q4, in_app_iff, <- in_rev, C4, Owned_split, HLO, HOs.
      split.
      + intros [Hx|[[Hx|[Hx|Hx]] Hn]]; tauto.
      + intros [Hx|[Hx|Hx]]; [|tauto|].
        * right. split; [tauto|]. exact (proj1 (Xpre x Hx)).
        * right. split; [tauto|]. intros Ht. exact (Xthis x Ht Hx).
    - intros x. rewrite Q4, in_app_iff, <- in_rev. intros [Hx|Hx].
      + apply Hfresh. exact Hx.
      + apply C4 in Hx. destruct Hx as [Hx _]. apply HB in Hx.
        rewrite Q3, C2. lia. }
  split; [congruence|]. split.
  { exists r'. split; [exact (nth_error_SetRoot_same _ _ _ _ Ha)|].
    split; [exact Q1|]. intros _. exact Hnew. }
  split.
  { intros _ x Hx. rewrite Q4, in_app_iff, <- in_rev, C4.
    intros [Hn|[_ Hn]]; [|tauto].
    apply (Hnew x Hn). apply HOs. auto. }
  intros c Hc. apply nth_error_SetRoot_other. exact Hc.
Qed.

End MemoryFacts.

(** ** The further properties at concrete maps *)

Module IntStringExtras.
Import IntString IntStringSamples IntStringFacts.
Local Open Scope string_scope.

Lemma Reachable_seven' : Reachable seven.
Proof. apply Reachable_PutAll, Reach_new. Qed.

Lemma Reachable_seven_erased : Reachable (Erase 4 seven).
Proof. apply Reach_Erase, Reachable_seven'. Qed.

Lemma BWMap_of_reachable_witness :
  Reachable (Erase 4 seven)
  /\ map (fun n => BWMap (flags n)) (Inorder (root_ (Erase 4 seven)))
     = ["B"; "B"; "B"; "b"; "B"; "B"; "B"]%char
  /\ Forall (fun n =>
               BWMap (flags n)
               = if IsRed n
                 then (if IsDead n then "r"%char else "R"%char)
                 else (if IsDead n then "b"%char else "B"%char))
            (Inorder (root_ (Erase 4 seven))).
Proof.
  split; [exact Reachable_seven_erased|]. split; [reflexivity|].
  exact (BWMap_of_reachable (Erase 4 seven) Reachable_seven_erased).
Defined.

Lemma Rotate_round_trip_witness :
  FlagsOK red_right = true /\ RightChildIsRed red_right = true
  /\ RotateRight (fst (RotateLeft red_right)) = (red_right, [])
  /\ FlagsOK red_left = true /\ LeftChildIsRed red_left = true
  /\ RotateLeft (fst (RotateRight red_left)) = (red_left, []).
Proof.
  split; [reflexivity|]. split; [reflexivity|]. split.
  - exact (proj1 (Rotate_round_trip red_right eq_refl) eq_refl).
  - split; [reflexivity|]. split; [reflexivity|].
    exact (proj2 (Rotate_round_trip red_left eq_refl) eq_refl).
Defined.

Lemma Rotate_keeps_content_witness :
  IsBST red_right = true
  /\ fst (RotateLeft red_right) = red_left
  /\ IsBST (fst (RotateLeft red_right)) = true
  /\ Items (fst (RotateLeft red_right)) = Items red_right.
Proof.
  split; [reflexivity|]. split; [reflexivity|].
  destruct (proj1 (Rotate_keeps_content red_right)) as (H1 & _ & H3).
  split; [exact (H3 eq_refl)|exact H1].
Defined.

Lemma Repair_keeps_content_witness :
  IsBST red_right = true
  /\ Repair red_right = red_left
  /\ IsBST (Repair red_right) = true.
Proof.
  split; [reflexivity|]. split; [reflexivity|].
  exact (proj2 (proj2 (proj2 (Repair_keeps_content red_right))) eq_refl).
Defined.

Lemma Get_reference_witness :
  ItemAt (root_ (fst (Get 9 seven))) (snd (Get 9 seven)) = Some (mkEntry 9 "", true)
  /\ ItemAt (root_ (fst (Get 4 (Erase 4 seven)))) (snd (Get 4 (Erase 4 seven)))
     = Some (mkEntry 4 "x", true)
  /\ ItemAt (root_ (Put 9 "n" seven)) (snd (Get 9 seven)) = Some (mkEntry 9 "n", true).
Proof.
  split; [exact (proj1 (Get_reference 9 "n" seven))|]. split.
  - exact (proj1 (Get_reference 4 "n" (Erase 4 seven))).
  - exact (proj1 (proj2 (Get_reference 9 "n" seven))).
Defined.


Lemma Get_resurrects_old_value_witness :
  Reachable seven
  /\ Retrieve 4 "none" (Erase 4 (Put 4 "old" seven)) = (false, "none")
  /\ Retrieve 4 "none" (fst (Get 4 (Erase 4 (Put 4 "old" seven)))) = (true, "old").
Proof.
  split; [exact Reachable_seven'|].
  exact (Get_resurrects_old_value 4 "old" "none" seven Reachable_seven').
Defined.


Lemma Put_overwrites_witness :
  Reachable seven
  /\ Retrieve 9 "none" (Put 9 "w" (Put 9 "v" seven)) = (true, "w")
  /\ NumNodes (Put 9 "w" (Put 9 "v" seven)) = NumNodes (Put 9 "v" seven).
Proof.
  split; [exact Reachable_seven'|].
  destruct (Put_overwrites 9 "v" "w" "none" seven Reachable_seven')
    as (H1 & _ & H3 & _).
  split; [exact H1|exact H3].
Defined.

Lemma Put_of_stored_value_is_identity_witness :
  Reachable seven /\ Retrieve 4 "none" seven = (true, "x")
  /\ Put 4 "x" seven = seven /\ Put 4 "x" (Erase 4 seven) = seven.
Proof.
  split; [exact Reachable_seven'|]. split; [reflexivity|].
  exact (Put_of_stored_value_is_identity 4 "x" "none" seven Reachable_seven' eq_refl).
Defined.

Lemma Erase_observed_witness :
  Reachable seven
  /\ Retrieve 4 "none" (Erase 4 seven) = (false, "none")
  /\ Size (Erase 4 seven) = Size seven - 1.
Proof.
  split; [exact Reachable_seven'|].
  destruct (Erase_observed 4 "none" seven Reachable_seven') as (H1 & _ & H3).
  split; [exact H1|exact H3].
Defined.

Lemma Erase_is_idempotent_witness :
  FoundAt (root_ seven) 9 = None
  /\ Erase 9 seven = seven
  /\ Erase 4 (Erase 4 seven) = Erase 4 seven.
Proof.
  split; [reflexivity|]. split.
  - exact (proj1 (proj2 (Erase_is_idempotent 9 seven)) eq_refl).
  - exact (proj1 (Erase_is_idempotent 4 seven)).
Defined.

Lemma Erase_without_live_entry_is_identity_witness :
  Reachable (Erase 4 seven)
  /\ Retrieve 4 "none" (Erase 4 seven) = (false, "none")
  /\ Erase 4 (Erase 4 seven) = Erase 4 seven.
Proof.
  split; [exact Reachable_seven_erased|]. split; [reflexivity|].
  exact (Erase_without_live_entry_is_identity 4 "none" (Erase 4 seven)
           Reachable_seven_erased eq_refl).
Defined.

Lemma Only_Erase_makes_tombstones_witness :
  Reachable seven /\ Size seven = NumNodes seven
  /\ Size (Put 9 "n" seven) = NumNodes (Put 9 "n" seven)
  /\ Size (fst (Get 9 seven)) = NumNodes (fst (Get 9 seven)).
Proof.
  split; [exact Reachable_seven'|]. split; [reflexivity|].
  destruct (Only_Erase_makes_tombstones 9 "n" seven Reachable_seven' eq_refl)
    as (H1 & H2 & _).
  split; [exact H1|exact H2].
Defined.

Lemma Counters_agree_witness :
  Empty fresh = true /\ Size fresh = 0
  /\ 0 <= Size (Erase 4 seven) <= NumNodes (Erase 4 seven).
Proof.
  split; [reflexivity|]. split.
  - exact (proj2 (proj2 (proj2 (proj2 (Counters_agree fresh)))) eq_refl).
  - exact (proj1 (Counters_agree (Erase 4 seven))).
Defined.

Lemma two_in_memory_Intact : Intact MemorySamples.two_in_memory.
Proof.
  unfold Intact, Owned. simpl.
  split; [repeat constructor; simpl; intuition lia|].
  split; [repeat constructor; simpl; intuition lia|].
  split; [intros x; tauto|intros x Hx; lia].
Qed.

Lemma Assign_keeps_memory_in_order_witness :
  Intact MemorySamples.two_in_memory
  /\ fst (Assign_at 0%nat 1%nat MemorySamples.two_in_memory)
     = mkMemory
         [node_at 3%nat (mkEntry 2 "b")
            (node_at 4%nat (mkEntry 1 "z") NULL NULL Flags.RED) NULL Flags.ZERO;
          node_at 1%nat (mkEntry 2 "b")
            (node_at 2%nat (mkEntry 1 "z") NULL NULL Flags.RED) NULL Flags.ZERO]
         (mkHeap 5%nat [4%nat; 3%nat; 1%nat; 2%nat] 0%nat)
  /\ Intact (fst (Assign_at 0%nat 1%nat MemorySamples.two_in_memory)).
Proof.
  split; [exact two_in_memory_Intact|]. split; [reflexivity|].
  exact (proj1 (proj2 (Assign_keeps_memory_in_order MemorySamples.two_in_memory
                         0%nat 1%nat _ _ two_in_memory_Intact eq_refl eq_refl))).
Defined.

Lemma Includes_positions_witness :
  Reachable seven
  /\ (Includes 9 seven = [] <-> Retrieve 9 "none" seven = (false, "none"))
  /\ length (Includes 1 seven) = 3%nat
  /\ Z.of_nat (length (tl (Includes 1 seven))) <= Height seven.
Proof.
  split; [exact Reachable_seven'|]. split.
  - exact (proj1 (Includes_positions 9 "none" seven Reachable_seven')).
  - split; [reflexivity|].
    exact (proj1 (proj2 (proj2
             (proj2 (Includes_positions 1 "none" seven Reachable_seven')
                (hd nullptr (Includes 1 seven)) (tl (Includes 1 seven)) eq_refl)))).
Defined.



Lemma DumpBW_prints_levels_witness :
  Empty fresh = true /\ DumpBW fresh = []
  /\ DumpBW one_to_four
     = flat_map (Row (root_ one_to_four)) (seq 0 (Z.to_nat (Height one_to_four + 1))).
Proof.
  split; [reflexivity|]. split.
  - exact (proj2 (proj2 (DumpBW_prints_levels fresh)) eq_refl).
  - exact (proj1 (DumpBW_prints_levels one_to_four)).
Defined.

(** What [DumpBW] writes for two small maps. *)
Example DumpBW_one_to_four :
  string_of_list_ascii (DumpBW one_to_four)
  = " B" ++ String newline (" BB" ++ String newline (" --R-" ++ String newline ""))
  /\ string_of_list_ascii (DumpBW (Erase 4 seven))
     = " b" ++ String newline (" BB" ++ String newline (" BBBB" ++ String newline "")).
Proof. vm_compute. split; reflexivity. Qed.

End IntStringExtras.
